(** * helmit: benchmark coordination engine and console fan-out/join primitives

    A shallow embedding of [pkg/benchmark/coordinator.go] and
    [internal/console/context.go], with the properties of the coordination
    engine stated and proved over it.

    Conventions.
    - Go's fixed-width integers are [Z] with the wrap-around written out
      ([int] and [time.Duration] are 64-bit two's complement, [uint32] is
      reduced modulo [2^32]).
    - Go's [float64] is IEEE 754 binary64, taken from the standard library's
      executable specification [SpecFloat] at precision 53 and [emax] 1024.
    - An [error] value is [option err]: [None] is Go's [nil]. *)

From Stdlib Require Import ZArith List Bool Lia String Permutation.
From Stdlib Require Import SpecFloat.
From Stdlib Require DecimalString DecimalZ.
Import ListNotations.
Local Open Scope Z_scope.

(* ================================================================== *)
(** * Go's machine numbers *)

Module GoNum.

(** [uint32(x)]: the low 32 bits. *)
Definition uint32 (x : Z) : Z := x mod 2 ^ 32.

(** A 64-bit two's complement value ([int], [int64], [time.Duration]). *)
Definition int64 (x : Z) : Z := (x + 2 ^ 63) mod 2 ^ 64 - 2 ^ 63.

(** Go's [/] on integers truncates toward zero. *)
Definition int_div (a b : Z) : Z := Z.quot a b.

Definition time_Second : Z := 1000000000.
Definition time_Millisecond : Z := 1000000.

End GoNum.

(* ================================================================== *)
(** * Go's float64 *)

Module Float64.

Definition prec : Z := 53.
Definition emax : Z := 1024.

Definition float64 := spec_float.

(** [float64(z)] for an integer [z]: rounded to nearest, ties to even. *)
Definition of_int (z : Z) : float64 := binary_normalize prec emax z 0 false.

(** The quotient [x / y] of two [float64]. *)
Definition div (x y : float64) : float64 := SFdiv prec emax x y.

Definition is_nan (x : float64) : bool :=
  match x with S754_nan => true | _ => false end.

Definition is_pos_inf (x : float64) : bool :=
  match x with S754_infinity false => true | _ => false end.

Definition is_zero (x : float64) : bool :=
  match x with S754_zero _ => true | _ => false end.

Definition signbit (x : float64) : bool :=
  match x with
  | S754_zero s | S754_infinity s | S754_finite s _ _ => s
  | S754_nan => false
  end.

(** [x > y] on [float64]. *)
Definition gt (x y : float64) : bool := SFltb y x.

(** [math.Max] of the Go standard library:
<<
    case IsInf(x, 1) || IsInf(y, 1): return Inf(1)
    case IsNaN(x) || IsNaN(y):       return NaN()
    case x == 0 && x == y:           if Signbit(x) { return y }; return x
    if x > y { return x }; return y
>> *)
Definition Max (x y : float64) : float64 :=
  if is_pos_inf x || is_pos_inf y then S754_infinity false
  else if is_nan x || is_nan y then S754_nan
  else if is_zero x && SFeqb x y then (if signbit x then y else x)
  else if gt x y then x else y.

(** The value Go leaves implementation-dependent when a [float64] that is
    out of range (or a NaN) is converted to [int64]; on amd64 the
    conversion instruction yields the "integer indefinite" [-2^63]. *)
Definition int64_indefinite : Z := - 2 ^ 63.

(** The integer part of a finite float, truncated toward zero. *)
Definition trunc (s : bool) (m : positive) (e : Z) : Z :=
  let a := match e with
           | Z0 => Zpos m
           | Zpos _ => Zpos m * 2 ^ e
           | Zneg _ => Zpos m / 2 ^ (- e)
           end in
  if s then - a else a.

(** [int64(x)], and so [time.Duration(x)], for a [float64] [x]. *)
Definition to_int64 (x : float64) : Z :=
  match x with
  | S754_zero _ => 0
  | S754_finite s m e =>
      let t := trunc s m e in
      if (- 2 ^ 63 <=? t) && (t <? 2 ^ 63) then t else int64_indefinite
  | S754_infinity _ | S754_nan => int64_indefinite
  end.

(** [m * 2^e] is the normalised 53-bit form of the positive integer [a]. *)
Definition normal (a : Z) (m : positive) (e : Z) : Prop :=
  Zpos m = a * 2 ^ (- e) /\ -52 <= e <= 0 /\ 2 ^ 52 <= Zpos m < 2 ^ 53.

(** [float32(num/den)] for a decimal constant, correctly rounded. *)
Definition float32_const (num den : Z) : spec_float :=
  SFdiv 24 128 (binary_normalize 24 128 num 0 false)
               (binary_normalize 24 128 den 0 false).

End Float64.


(* ================================================================== *)
(** * Lists updated by index *)

Module ListUtil.

Fixpoint set_nth {A : Type} (i : nat) (x : A) (l : list A) : list A :=
  match l, i with
  | [], _ => []
  | _ :: t, O => x :: t
  | h :: t, S j => h :: set_nth j x t
  end.

(** The last element of [l] that satisfies [p]. *)
Definition find_last {A : Type} (p : A -> bool) (l : list A) : option A :=
  find p (rev l).

End ListUtil.

(* ================================================================== *)
(** * internal/console/context.go: Joiner and Waiter *)

Module Console.
Import ListUtil.

Section WithErrors.

(** The non-nil values of Go's [error]. *)
Variable E : Type.

Definition error : Type := option E.

(** A [chan error]: its capacity, what it holds, whether it is closed. *)
Record chan := {
  cap : nat;
  buf : list error;
  closed : bool
}.

(** The channels in existence; a channel value is an index in the store. *)
Definition store := list chan.

(** A call acts on the store; it yields [None] when it cannot proceed in
    the store as it is: a receive on an open empty channel and a send on
    a full one block, a send on a closed channel and a second [close]
    panic. *)
Definition M (A : Type) := store -> option (A * store).

Definition ret {A} (a : A) : M A := fun h => Some (a, h).

Definition bind {A B} (m : M A) (k : A -> M B) : M B :=
  fun h => match m h with
           | Some (a, h') => k a h'
           | None => None
           end.

(** [make(chan error, n)] *)
Definition make_chan (n : nat) : M nat :=
  fun h => Some (List.length h, h ++ [{| cap := n; buf := []; closed := false |}]).

(** [ch <- v] on a buffered channel *)
Definition send (ch : nat) (v : error) : M unit :=
  fun h => match nth_error h ch with
           | Some c =>
               if closed c then None
               else if Nat.ltb (List.length (buf c)) (cap c)
                    then Some (tt, set_nth ch {| cap := cap c; buf := buf c ++ [v];
                                                 closed := false |} h)
                    else None
           | None => None
           end.

(** [close(ch)] *)
Definition close (ch : nat) : M unit :=
  fun h => match nth_error h ch with
           | Some c =>
               if closed c then None
               else Some (tt, set_nth ch {| cap := cap c; buf := buf c;
                                            closed := true |} h)
           | None => None
           end.

(** [<-ch]: the oldest value held; on a closed and drained channel, the
    zero value, which for [error] is [nil]. *)
Definition recv (ch : nat) : M error :=
  fun h => match nth_error h ch with
           | Some c =>
               match buf c with
               | v :: rest =>
                   Some (v, set_nth ch {| cap := cap c; buf := rest;
                                          closed := closed c |} h)
               | [] => if closed c then Some (None, h) else None
               end
           | None => None
           end.

(** **** Joiner *)

(** An interface value: the object's [Join] method. *)
Record Joiner := { Joiner_Join : M error }.

Record channelJoiner := { cj_ch : nat }.

Definition channelJoiner_Join (w : channelJoiner) : M error := recv (cj_ch w).

Definition newChannelJoiner (ch : nat) : Joiner :=
  {| Joiner_Join := channelJoiner_Join {| cj_ch := ch |} |}.

(** The loop of [Join], with [err] the variable declared before it. *)
Fixpoint Join_from (err : error) (joiners : list Joiner) : M error :=
  match joiners with
  | [] => ret err
  | joiner :: rest =>
      bind (Joiner_Join joiner) (fun e =>
        match e with
        | Some _ => Join_from e rest
        | None => Join_from err rest
        end)
  end.

Definition Join (joiners : list Joiner) : M error := Join_from None joiners.

(** **** Waiter *)

Record Waiter := { Waiter_Wait : M error }.

Record channelWaiter := { cw_ch : nat }.

Definition channelWaiter_Wait (w : channelWaiter) : M error := recv (cw_ch w).

Definition newChannelWaiter (ch : nat) : Waiter :=
  {| Waiter_Wait := channelWaiter_Wait {| cw_ch := ch |} |}.

Fixpoint Wait_from (err : error) (waiters : list Waiter) : M error :=
  match waiters with
  | [] => ret err
  | waiter :: rest =>
      bind (Waiter_Wait waiter) (fun e =>
        match e with
        | Some _ => Wait_from e rest
        | None => Wait_from err rest
        end)
  end.

Definition Wait (waiters : list Waiter) : M error := Wait_from None waiters.

(** **** Context.Fork and Context.Run *)

(** What [Fork] does before it returns: [ch := make(chan error, 1)], the
    goroutine is started, and the channel is wrapped in a Joiner. The
    channel is returned too, to name the goroutine that owns it. *)
Definition Fork : M (Joiner * nat) :=
  bind (make_chan 1) (fun ch => ret (newChannelJoiner ch, ch)).

(** The same for [Run], which wraps the channel in a Waiter. *)
Definition Run : M (Waiter * nat) :=
  bind (make_chan 1) (fun ch => ret (newChannelWaiter ch, ch)).

(** The goroutine started by [Fork] (and by [Run]), from the moment [f]
    has returned [r]: [if err != nil { ...; ch <- err }], then the
    deferred [close(ch)]. *)
Definition goroutine (ch : nat) (r : error) : M unit :=
  match r with
  | Some _ => bind (send ch r) (fun _ => close ch)
  | None => close ch
  end.

(** [n] tasks forked one after the other. *)
Fixpoint Fork_all (n : nat) : M (list (Joiner * nat)) :=
  match n with
  | O => ret []
  | S k => bind Fork (fun j => bind (Fork_all k) (fun js => ret (j :: js)))
  end.

(** The goroutines of the channels [chs] finish with the results [rs]. *)
Fixpoint finish_all (chs : list nat) (rs : list error) : M unit :=
  match chs, rs with
  | ch :: chs', r :: rs' => bind (goroutine ch r) (fun _ => finish_all chs' rs')
  | _, _ => ret tt
  end.

(** Every joiner joined in turn, with the result of each. *)
Fixpoint join_each (joiners : list Joiner) : M (list error) :=
  match joiners with
  | [] => ret []
  | joiner :: rest =>
      bind (Joiner_Join joiner) (fun e =>
        bind (join_each rest) (fun es => ret (e :: es)))
  end.

Fixpoint wait_each (waiters : list Waiter) : M (list error) :=
  match waiters with
  | [] => ret []
  | waiter :: rest =>
      bind (Waiter_Wait waiter) (fun e =>
        bind (wait_each rest) (fun es => ret (e :: es)))
  end.

(** A task is forked, finishes with [r], and is joined twice. *)
Definition fork_join_twice (r : error) : M (error * error) :=
  bind Fork (fun jc =>
    bind (goroutine (snd jc) r) (fun _ =>
      bind (Joiner_Join (fst jc)) (fun first =>
        bind (Joiner_Join (fst jc)) (fun second => ret (first, second))))).

(** A task is run, finishes with [r], and is waited for twice. *)
Definition run_wait_twice (r : error) : M (error * error) :=
  bind Run (fun wc =>
    bind (goroutine (snd wc) r) (fun _ =>
      bind (Waiter_Wait (fst wc)) (fun first =>
        bind (Waiter_Wait (fst wc)) (fun second => ret (first, second))))).

(** One task is forked for each result of [rs], and every task finishes
    with its result; the Joiners are returned in the order of the tasks. *)
Definition fork_finish (rs : list error) : M (list Joiner) :=
  bind (Fork_all (List.length rs)) (fun jcs =>
    bind (finish_all (map snd jcs) rs) (fun _ => ret (map fst jcs))).

(** A task is forked and joined before it has finished. *)
Definition fork_join_early : M error :=
  bind Fork (fun jc => Join [fst jc]).

(** A channel as [Fork] makes it, and the channel of a goroutine that has
    finished with [r]. *)
Definition fresh : chan := {| cap := 1; buf := []; closed := false |}.

Definition finished (r : error) : chan :=
  {| cap := 1; buf := match r with Some _ => [r] | None => [] end; closed := true |}.

(** The channel of a goroutine that has finished, once it is drained. *)
Definition drained : chan := {| cap := 1; buf := []; closed := true |}.

(** The last non-nil error of a list of results, [nil] if there is none. *)
Definition last_error (rs : list error) : error :=
  match find_last (fun r => match r with Some _ => true | None => false end) rs with
  | Some r => r
  | None => None
  end.

End WithErrors.

Arguments ret {E A} a.
Arguments bind {E A B} m k.
Arguments Joiner_Join {E} j.
Arguments Waiter_Wait {E} w.
Arguments Join {E} joiners.
Arguments Wait {E} waiters.
Arguments Join_from {E} err joiners.
Arguments Wait_from {E} err waiters.
Arguments Fork {E}.
Arguments Run {E}.
Arguments goroutine {E} ch r.
Arguments Fork_all {E} n.
Arguments finish_all {E} chs rs.
Arguments last_error {E} rs.
Arguments join_each {E} joiners.
Arguments wait_each {E} waiters.
Arguments fork_join_twice {E} r.
Arguments run_wait_twice {E} r.
Arguments fork_finish {E} rs.
Arguments fork_join_early {E}.
Arguments fresh {E}.
Arguments finished {E} r.
Arguments drained {E}.
Arguments cap {E} c.
Arguments buf {E} c.
Arguments closed {E} c.
Arguments recv {E} ch.
Arguments send {E} ch v.
Arguments close {E} ch.
Arguments make_chan {E} n.
Arguments newChannelJoiner {E} ch.
Arguments newChannelWaiter {E} ch.

End Console.
(* ================================================================== *)
(** * pkg/benchmark/coordinator.go: data *)

Module Benchmark.
Import GoNum.

(** Go's [error] values of this package: the errors returned by the
    collaborators (job runner, gRPC calls), told apart by a code, and the
    one error the package builds itself with [fmt.Errorf]. *)
Inductive err : Type :=
| ExternalError (code : Z)
| LatencyExceeded (meanLatencyMs : Z) (maxLatency : option Z).

Definition error := option err.

(** The fields of [Config] the coordinator reads. [Duration] and
    [MaxLatency] are pointers: [None] is [nil]. *)
Record Config := {
  ID : string;
  Suite : string;
  Benchmark : string;
  Workers : Z;
  Parallelism : Z;
  Iterations : Z;
  Duration : option Z;
  MaxLatency : option Z;
  Args : list (string * string)
}.

(** [RunRequest], the message of the [RunBenchmark] call. *)
Record RunRequest := {
  rq_Suite : string;
  rq_Benchmark : string;
  rq_Requests : Z;          (* uint32 *)
  rq_Duration : option Z;
  rq_MaxLatency : option Z;
  rq_Parallelism : Z;       (* uint32 *)
  rq_Args : list (string * string)
}.

(** [RunResponse], one worker's answer: [Requests] is a [uint32], the
    others are [time.Duration]s (64-bit nanosecond counts). *)
Record RunResponse := {
  Requests : Z;
  rs_Duration : Z;
  Latency : Z;
  Latency50 : Z;
  Latency75 : Z;
  Latency95 : Z;
  Latency99 : Z
}.

(** [map[float32]time.Duration], as an association list on the keys. *)
Definition percentiles := list (spec_float * Z).

Definition pct_set (k : spec_float) (v : Z) (m : percentiles) : percentiles :=
  if existsb (fun kv => SFeqb (fst kv) k) m
  then map (fun kv => if SFeqb (fst kv) k then (fst kv, v) else kv) m
  else m ++ [(k, v)].

(** A lookup of a missing key yields the zero value. *)
Definition pct_get (k : spec_float) (m : percentiles) : Z :=
  match find (fun kv => SFeqb (fst kv) k) m with
  | Some kv => snd kv
  | None => 0
  end.

Definition k50 := Eval vm_compute in Float64.float32_const 5 10.
Definition k75 := Eval vm_compute in Float64.float32_const 75 100.
Definition k95 := Eval vm_compute in Float64.float32_const 95 100.
Definition k99 := Eval vm_compute in Float64.float32_const 99 100.

Record result := {
  benchmark : string;
  requests : Z;
  duration : Z;
  throughput : Float64.float64;
  meanLatency : Z;
  latencyPercentiles : percentiles
}.

(* ---------------------------------------------------------------- *)
(** ** runBenchmark, lines 414-433: what each worker is sent *)

(** The request built in the goroutine of one worker. The goroutine is
    started with [requests = t.config.Iterations/len(workers)]. *)
Definition runRequest (c : Config) (bench : string) (nworkers : Z) : RunRequest :=
  let requests := int_div (Iterations c) nworkers in
  {| rq_Suite := Suite c;
     rq_Benchmark := bench;
     rq_Requests := uint32 requests;
     rq_Duration := Duration c;
     rq_MaxLatency := MaxLatency c;
     rq_Parallelism := uint32 (Parallelism c);
     rq_Args := Args c |}.

(** One request per worker of the pool, in the order of the pool. *)
Definition dispatch {W : Type} (c : Config) (bench : string) (workers : list W)
  : list RunRequest :=
  map (fun _ => runRequest c bench (Z.of_nat (List.length workers))) workers.

(* ---------------------------------------------------------------- *)
(** ** runBenchmark, lines 443-476: the aggregation *)

(** The seven accumulators declared before the loop over [resultCh]. *)
Record sums := {
  s_duration : Z;
  s_requests : Z;
  s_latencySum : Z;
  s_latency50Sum : Z;
  s_latency75Sum : Z;
  s_latency95Sum : Z;
  s_latency99Sum : Z
}.

Definition sums0 : sums :=
  {| s_duration := 0; s_requests := 0; s_latencySum := 0; s_latency50Sum := 0;
     s_latency75Sum := 0; s_latency95Sum := 0; s_latency99Sum := 0 |}.

(** The body of [for result := range resultCh]. *)
Definition accumulate (a : sums) (r : RunResponse) : sums :=
  {| s_requests := uint32 (s_requests a + Requests r);
     s_duration :=
       Float64.to_int64
         (Float64.Max (Float64.of_int (s_duration a)) (Float64.of_int (rs_Duration r)));
     s_latencySum := int64 (s_latencySum a + Latency r);
     s_latency50Sum := int64 (s_latency50Sum a + Latency50 r);
     s_latency75Sum := int64 (s_latency75Sum a + Latency75 r);
     s_latency95Sum := int64 (s_latency95Sum a + Latency95 r);
     s_latency99Sum := int64 (s_latency99Sum a + Latency99 r) |}.

(** [time.Duration(float64(sum) / float64(len(workers)))]. *)
Definition mean_of (sum nworkers : Z) : Z :=
  Float64.to_int64 (Float64.div (Float64.of_int sum) (Float64.of_int nworkers)).

(** The result built from the responses in the order [resultCh] delivers
    them; [nworkers] is [len(workers)]. *)
Definition aggregate (bench : string) (nworkers : Z) (resultCh : list RunResponse)
  : result :=
  let a := fold_left accumulate resultCh sums0 in
  let throughput :=
    Float64.div (Float64.of_int (s_requests a))
                (Float64.div (Float64.of_int (s_duration a))
                             (Float64.of_int time_Second)) in
  let p := pct_set k50 (mean_of (s_latency50Sum a) nworkers) [] in
  let p := pct_set k75 (mean_of (s_latency75Sum a) nworkers) p in
  let p := pct_set k95 (mean_of (s_latency95Sum a) nworkers) p in
  let p := pct_set k99 (mean_of (s_latency99Sum a) nworkers) p in
  {| benchmark := bench;
     requests := s_requests a;
     duration := s_duration a;
     throughput := throughput;
     meanLatency := mean_of (s_latencySum a) nworkers;
     latencyPercentiles := p |}.


(* ---------------------------------------------------------------- *)
(** ** Buffered channels and outcomes of calls *)

(** A buffered channel: what it holds, oldest first, and whether it is
    closed. Its capacity is given at each send. *)
Record bchan (A : Type) := { items : list A; is_closed : bool }.
Arguments items {A} b.
Arguments is_closed {A} b.

Inductive chan_op (A : Type) :=
| Proceeds (c : bchan A)
| Blocks
| Panics.
Arguments Proceeds {A} c.
Arguments Blocks {A}.
Arguments Panics {A}.

Definition bmake {A : Type} : bchan A := {| items := []; is_closed := false |}.

Definition bsend {A : Type} (capacity : nat) (v : A) (c : bchan A) : chan_op A :=
  if is_closed c then Panics
  else if Nat.ltb (List.length (items c)) capacity
       then Proceeds {| items := items c ++ [v]; is_closed := false |}
       else Blocks.

Definition bclose {A : Type} (c : bchan A) : chan_op A :=
  if is_closed c then Panics else Proceeds {| items := items c; is_closed := true |}.

(** How a call ends: it returns a value, it has not returned (under the
    schedule given), or the process panics. *)
Inductive outcome (A : Type) :=
| Ret (a : A)
| Pending
| Panic.
Arguments Ret {A} a.
Arguments Pending {A}.
Arguments Panic {A}.

(** A schedule names, step after step, the thread that runs: [0] is the
    function's own thread, [S i] the goroutine of index [i]. A thread that
    cannot move when its turn comes leaves the configuration as it is. *)
Definition run_schedule {C : Type} (step : nat -> C -> option C)
           (schedule : list nat) (c : C) : C :=
  fold_left (fun c tid => match step tid c with Some c' => c' | None => c end)
            schedule c.

(* ---------------------------------------------------------------- *)
(** ** setupWorkers and setupBenchmark: the fan-out (lines 278-299, 309-331)

    [errCh := make(chan error)] has no buffer: a send proceeds only
    together with a receive. The goroutines assign the [err] of the
    enclosing function ([_, err = ...], not [:=]), so they share it. *)

Inductive sgo :=
| SgCall                (* before [_, err = worker.SetupWorker(...)] *)
| SgTest                (* before [if err != nil] *)
| SgEval                (* in the branch, before [err] is read for the send *)
| SgSend (v : error)    (* sending [v] on [errCh] *)
| SgDone                (* before [wg.Done()] *)
| SgExit.

Inductive smain :=
| SmLoop (k : nat)      (* in the [for] loop, [k] goroutines started *)
| SmWait                (* at [wg.Wait()] *)
| SmClose               (* at [close(errCh)] *)
| SmRange               (* at [for err := range errCh] *)
| SmReturn (e : error).

Record sconf := {
  sc_err : error;           (* the shared variable [err] *)
  sc_go : list sgo;
  sc_wg : Z;
  sc_closed : bool;         (* [errCh] is closed *)
  sc_main : smain;
  sc_panic : bool
}.

Definition sinit : sconf :=
  {| sc_err := None; sc_go := []; sc_wg := 0; sc_closed := false;
     sc_main := SmLoop 0; sc_panic := false |}.

Definition sset_go (i : nat) (g : sgo) (c : sconf) : sconf :=
  {| sc_err := sc_err c; sc_go := ListUtil.set_nth i g (sc_go c); sc_wg := sc_wg c;
     sc_closed := sc_closed c; sc_main := sc_main c; sc_panic := sc_panic c |}.

Definition sset_main (m : smain) (c : sconf) : sconf :=
  {| sc_err := sc_err c; sc_go := sc_go c; sc_wg := sc_wg c;
     sc_closed := sc_closed c; sc_main := m; sc_panic := sc_panic c |}.

(** [calls] holds, for each worker of the pool, what its call returns. *)
Definition smain_step (calls : list error) (c : sconf) : option sconf :=
  match sc_main c with
  | SmLoop k =>
      if Nat.ltb k (List.length calls)
      then Some {| sc_err := sc_err c; sc_go := sc_go c ++ [SgCall];
                   sc_wg := sc_wg c + 1; sc_closed := sc_closed c;
                   sc_main := SmLoop (S k); sc_panic := sc_panic c |}
      else Some (sset_main SmWait c)
  | SmWait => if sc_wg c =? 0 then Some (sset_main SmClose c) else None
  | SmClose =>
      if sc_closed c
      then Some {| sc_err := sc_err c; sc_go := sc_go c; sc_wg := sc_wg c;
                   sc_closed := true; sc_main := SmClose; sc_panic := true |}
      else Some {| sc_err := sc_err c; sc_go := sc_go c; sc_wg := sc_wg c;
                   sc_closed := true; sc_main := SmRange; sc_panic := sc_panic c |}
  | SmRange =>
      (* a value is handed over in the step of its sender *)
      if sc_closed c then Some (sset_main (SmReturn None) c) else None
  | SmReturn _ => None
  end.

Definition sgo_step (calls : list error) (i : nat) (c : sconf) : option sconf :=
  match nth_error (sc_go c) i with
  | Some SgCall =>
      match nth_error calls i with
      | Some r =>
          Some {| sc_err := r; sc_go := ListUtil.set_nth i SgTest (sc_go c);
                  sc_wg := sc_wg c; sc_closed := sc_closed c;
                  sc_main := sc_main c; sc_panic := sc_panic c |}
      | None => None
      end
  | Some SgTest =>
      match sc_err c with
      | Some _ => Some (sset_go i SgEval c)
      | None => Some (sset_go i SgDone c)
      end
  | Some SgEval => Some (sset_go i (SgSend (sc_err c)) c)
  | Some (SgSend v) =>
      if sc_closed c
      then Some {| sc_err := sc_err c; sc_go := sc_go c; sc_wg := sc_wg c;
                   sc_closed := true; sc_main := sc_main c; sc_panic := true |}
      else match sc_main c with
           | SmRange => Some (sset_main (SmReturn v) (sset_go i SgDone c))
           | _ => None
           end
  | Some SgDone =>
      Some {| sc_err := sc_err c; sc_go := ListUtil.set_nth i SgExit (sc_go c);
              sc_wg := sc_wg c - 1; sc_closed := sc_closed c;
              sc_main := sc_main c; sc_panic := (sc_wg c - 1 <? 0) |}
  | Some SgExit => None
  | None => None
  end.

Definition sstep (calls : list error) (tid : nat) (c : sconf) : option sconf :=
  if sc_panic c then None
  else match tid with
       | O => smain_step calls c
       | S i => sgo_step calls i c
       end.

Definition sresult (c : sconf) : outcome error :=
  if sc_panic c then Panic
  else match sc_main c with
       | SmReturn e => Ret e
       | _ => Pending
       end.

(** The fan-out over a pool whose calls return [calls], under a schedule. *)
Definition setup_fanout (calls : list error) (schedule : list nat) : outcome error :=
  sresult (run_schedule (sstep calls) schedule sinit).

(* ---------------------------------------------------------------- *)
(** ** runBenchmark: the fan-out (lines 410-441)

    [resultCh] and [errCh] have room for one value per worker, and each
    goroutine has an [err] of its own ([result, err := ...]). *)

Inductive bgo :=
| BgCall                               (* before [worker.RunBenchmark(...)] *)
| BgSend (r : RunResponse + err)       (* the call has returned [r] *)
| BgDone                               (* before [wg.Done()] *)
| BgExit.

Inductive bmain :=
| BmLoop (k : nat)
| BmWait
| BmCloseResult
| BmCloseErr
| BmRangeErr              (* at [for err := range errCh] *)
| BmRangeResult           (* at [for result := range resultCh] *)
| BmReturn (r : result + err).

Record bconf := {
  bc_go : list bgo;
  bc_wg : Z;
  bc_resultCh : bchan RunResponse;
  bc_errCh : bchan err;
  bc_main : bmain;
  bc_panic : bool
}.

Definition binit : bconf :=
  {| bc_go := []; bc_wg := 0; bc_resultCh := bmake; bc_errCh := bmake;
     bc_main := BmLoop 0; bc_panic := false |}.

Definition bpanic (c : bconf) : bconf :=
  {| bc_go := bc_go c; bc_wg := bc_wg c; bc_resultCh := bc_resultCh c;
     bc_errCh := bc_errCh c; bc_main := bc_main c; bc_panic := true |}.

Definition bset_main (m : bmain) (c : bconf) : bconf :=
  {| bc_go := bc_go c; bc_wg := bc_wg c; bc_resultCh := bc_resultCh c;
     bc_errCh := bc_errCh c; bc_main := m; bc_panic := bc_panic c |}.

Definition bset_go (i : nat) (g : bgo) (c : bconf) : bconf :=
  {| bc_go := ListUtil.set_nth i g (bc_go c); bc_wg := bc_wg c;
     bc_resultCh := bc_resultCh c; bc_errCh := bc_errCh c;
     bc_main := bc_main c; bc_panic := bc_panic c |}.

Definition bmain_step (bench : string) (calls : list (RunResponse + err)) (c : bconf)
  : option bconf :=
  let n := List.length calls in
  match bc_main c with
  | BmLoop k =>
      if Nat.ltb k n
      then Some {| bc_go := bc_go c ++ [BgCall]; bc_wg := bc_wg c + 1;
                   bc_resultCh := bc_resultCh c; bc_errCh := bc_errCh c;
                   bc_main := BmLoop (S k); bc_panic := bc_panic c |}
      else Some (bset_main BmWait c)
  | BmWait => if bc_wg c =? 0 then Some (bset_main BmCloseResult c) else None
  | BmCloseResult =>
      match bclose (bc_resultCh c) with
      | Proceeds ch =>
          Some {| bc_go := bc_go c; bc_wg := bc_wg c; bc_resultCh := ch;
                  bc_errCh := bc_errCh c; bc_main := BmCloseErr; bc_panic := bc_panic c |}
      | _ => Some (bpanic c)
      end
  | BmCloseErr =>
      match bclose (bc_errCh c) with
      | Proceeds ch =>
          Some {| bc_go := bc_go c; bc_wg := bc_wg c; bc_resultCh := bc_resultCh c;
                  bc_errCh := ch; bc_main := BmRangeErr; bc_panic := bc_panic c |}
      | _ => Some (bpanic c)
      end
  | BmRangeErr =>
      match items (bc_errCh c) with
      | e :: _ => Some (bset_main (BmReturn (inr e)) c)
      | [] => if is_closed (bc_errCh c) then Some (bset_main BmRangeResult c) else None
      end
  | BmRangeResult =>
      (* the loop ends when the channel is closed and drained; it has then
         received the values the channel held, oldest first *)
      if is_closed (bc_resultCh c)
      then Some (bset_main (BmReturn (inl (aggregate bench (Z.of_nat n)
                                                      (items (bc_resultCh c))))) c)
      else None
  | BmReturn _ => None
  end.

Definition bgo_step (calls : list (RunResponse + err)) (i : nat) (c : bconf)
  : option bconf :=
  let n := List.length calls in
  match nth_error (bc_go c) i with
  | Some BgCall =>
      match nth_error calls i with
      | Some r => Some (bset_go i (BgSend r) c)
      | None => None
      end
  | Some (BgSend (inr e)) =>
      match bsend n e (bc_errCh c) with
      | Proceeds ch =>
          Some {| bc_go := ListUtil.set_nth i BgDone (bc_go c); bc_wg := bc_wg c;
                  bc_resultCh := bc_resultCh c; bc_errCh := ch;
                  bc_main := bc_main c; bc_panic := bc_panic c |}
      | Blocks => None
      | Panics => Some (bpanic c)
      end
  | Some (BgSend (inl r)) =>
      match bsend n r (bc_resultCh c) with
      | Proceeds ch =>
          Some {| bc_go := ListUtil.set_nth i BgDone (bc_go c); bc_wg := bc_wg c;
                  bc_resultCh := ch; bc_errCh := bc_errCh c;
                  bc_main := bc_main c; bc_panic := bc_panic c |}
      | Blocks => None
      | Panics => Some (bpanic c)
      end
  | Some BgDone =>
      Some {| bc_go := ListUtil.set_nth i BgExit (bc_go c); bc_wg := bc_wg c - 1;
              bc_resultCh := bc_resultCh c; bc_errCh := bc_errCh c;
              bc_main := bc_main c; bc_panic := (bc_wg c - 1 <? 0) |}
  | Some BgExit => None
  | None => None
  end.

Definition bstep (bench : string) (calls : list (RunResponse + err))
           (tid : nat) (c : bconf) : option bconf :=
  if bc_panic c then None
  else match tid with
       | O => bmain_step bench calls c
       | S i => bgo_step calls i c
       end.

Definition bresult (c : bconf) : outcome (result + err) :=
  if bc_panic c then Panic
  else match bc_main c with
       | BmReturn r => Ret r
       | _ => Pending
       end.

Definition run_fanout (bench : string) (calls : list (RunResponse + err))
           (schedule : list nat) : outcome (result + err) :=
  bresult (run_schedule (bstep bench calls) schedule binit).

(* ---------------------------------------------------------------- *)
(** ** WorkerTask: the calls it makes and the state it keeps *)

(** What the collaborators answer: the job runner, [async.IterAsync] over
    [createWorker], [grpc.Dial], the four calls of the worker service and
    the registry; and the schedules of the three kinds of fan-out. *)
Record World := {
  CreateNamespace : error;
  IterAsync_createWorker : error;
  Dial : nat -> error;
  SetupSuite : error;
  SetupWorker : nat -> error;
  SetupBenchmark : string -> nat -> error;
  RunBenchmark : string -> nat -> RunRequest -> RunResponse + err;
  DeleteNamespace : error;
  getBenchmarks : list string;
  sched_setupWorkers : list nat;
  sched_setupBenchmark : string -> list nat;
  sched_runBenchmark : string -> list nat
}.

(** The calls that leave the process, in the order they are made. *)
Inductive event :=
| EvCreateNamespace
| EvCreateWorkers (n : Z)
| EvDial (i : nat)
| EvSetupSuite (worker : nat)
| EvSetupWorker (pool : list nat)
| EvSetupBenchmark (bench : string) (pool : list nat)
| EvRunBenchmark (bench : string) (requests : list RunRequest)
| EvReport (results : list result)
| EvDeleteNamespace.

(** [WorkerTask]: its [config], its [workers] ([None] is the nil slice, a
    client is named by its ordinal), and the calls made so far. *)
Record WorkerTask := {
  config : Config;
  workers : option (list nat);
  trace : list event
}.

Definition newWorkerTask (c : Config) : WorkerTask :=
  {| config := c; workers := None; trace := [] |}.

Definition M (A : Type) := WorkerTask -> outcome A * WorkerTask.

Definition ret {A} (a : A) : M A := fun t => (Ret a, t).

Definition bind {A B} (m : M A) (k : A -> M B) : M B :=
  fun t => match m t with
           | (Ret a, t') => k a t'
           | (Pending, t') => (Pending, t')
           | (Panic, t') => (Panic, t')
           end.

Definition lift {A} (o : outcome A) : M A := fun t => (o, t).

Definition emit (e : event) : M unit :=
  fun t => (Ret tt, {| config := config t; workers := workers t;
                       trace := trace t ++ [e] |}).

Definition get : M WorkerTask := fun t => (Ret t, t).

Definition set_workers (ws : list nat) : M unit :=
  fun t => (Ret tt, {| config := config t; workers := Some ws; trace := trace t |}).

Declare Scope task_scope.
Delimit Scope task_scope with task.
Notation "x <- m ;; k" := (bind m (fun x => k))
  (at level 61, m at next level, right associativity) : task_scope.
Notation "m ;;; k" := (bind m (fun _ => k))
  (at level 61, right associativity) : task_scope.
Local Open Scope task_scope.

Section Task.

Variable w : World.

(** The loop of [getWorkers]: [n] ordinals left to dial, starting at [i]. *)
Fixpoint dial_loop (n i : nat) (ws : list nat) : M (list nat + err) :=
  match n with
  | O => ret (inl ws)
  | S n' =>
      emit (EvDial i) ;;;
      match Dial w i with
      | Some e => ret (inr e)
      | None => dial_loop n' (S i) (ws ++ [i])
      end
  end.

(** [getWorkers]: the cached slice, or one connection per ordinal.
    [make] panics on a negative length. *)
Definition getWorkers : M (list nat + err) :=
  t <- get ;;
  match workers t with
  | Some ws => ret (inl ws)
  | None =>
      if Workers (config t) <? 0 then lift Panic
      else
        r <- dial_loop (Z.to_nat (Workers (config t))) 0 [] ;;
        match r with
        | inr e => ret (inr e)
        | inl ws => set_workers ws ;;; ret (inl ws)
        end
  end.

(** [setupSuite]: [workers[0]] panics on an empty pool. *)
Definition setupSuite : M error :=
  r <- getWorkers ;;
  match r with
  | inr e => ret (Some e)
  | inl [] => lift Panic
  | inl (worker :: _) => emit (EvSetupSuite worker) ;;; ret (SetupSuite w)
  end.

Definition setupWorkers : M error :=
  r <- getWorkers ;;
  match r with
  | inr e => ret (Some e)
  | inl ws =>
      emit (EvSetupWorker ws) ;;;
      lift (setup_fanout (map (SetupWorker w) ws) (sched_setupWorkers w))
  end.

Definition setupBenchmark (bench : string) : M error :=
  r <- getWorkers ;;
  match r with
  | inr e => ret (Some e)
  | inl ws =>
      emit (EvSetupBenchmark bench ws) ;;;
      lift (setup_fanout (map (SetupBenchmark w bench) ws)
                         (sched_setupBenchmark w bench))
  end.

Definition runBenchmark (bench : string) : M (result + err) :=
  e <- setupBenchmark bench ;;
  match e with
  | Some e => ret (inr e)
  | None =>
      r <- getWorkers ;;
      match r with
      | inr e => ret (inr e)
      | inl ws =>
          t <- get ;;
          let requests := dispatch (config t) bench ws in
          emit (EvRunBenchmark bench requests) ;;;
          lift (run_fanout bench
                  (map (fun wr => RunBenchmark w bench (fst wr) (snd wr))
                       (combine ws requests))
                  (sched_runBenchmark w bench))
      end
  end.

(** The loop over the benchmarks of the suite (lines 363-374). *)
Fixpoint run_suite (benchmarks : list string) (results : list result)
  : M (list result + err) :=
  match benchmarks with
  | [] => ret (inl results)
  | bench :: rest =>
      r <- runBenchmark bench ;;
      match r with
      | inr e => ret (inr e)
      | inl res => run_suite rest (results ++ [res])
      end
  end.

(** [Duration.Milliseconds] *)
Definition Milliseconds (d : Z) : Z := int_div d time_Millisecond.

(** The last loop of [runBenchmarks] (lines 390-395). *)
Fixpoint check_latency (maxLatency : option Z) (results : list result) : error :=
  match results with
  | [] => None
  | r :: rest =>
      match maxLatency with
      | Some m =>
          if meanLatency r >=? m
          then Some (LatencyExceeded (Milliseconds (meanLatency r)) maxLatency)
          else check_latency maxLatency rest
      | None => check_latency maxLatency rest
      end
  end.

(** [runBenchmarks] up to the table: the results, or the first error. *)
Definition run_all : M (list result + err) :=
  e <- setupSuite ;;
  match e with
  | Some e => ret (inr e)
  | None =>
      e <- setupWorkers ;;
      match e with
      | Some e => ret (inr e)
      | None =>
          t <- get ;;
          if String.eqb (Benchmark (config t)) ""
          then run_suite (getBenchmarks w) []
          else
            r <- runBenchmark (Benchmark (config t)) ;;
            match r with
            | inr e => ret (inr e)
            | inl res => ret (inl [res])
            end
      end
  end.

Definition runBenchmarks : M error :=
  r <- run_all ;;
  match r with
  | inr e => ret (Some e)
  | inl results =>
      emit (EvReport results) ;;;
      t <- get ;;
      ret (check_latency (MaxLatency (config t)) results)
  end.

Definition createWorkers : M error :=
  t <- get ;;
  emit (EvCreateWorkers (Workers (config t))) ;;;
  ret (IterAsync_createWorker w).

Definition run : M error :=
  emit EvCreateNamespace ;;;
  match CreateNamespace w with
  | Some e => ret (Some e)
  | None =>
      e <- createWorkers ;;
      match e with
      | Some e => ret (Some e)
      | None =>
          e <- runBenchmarks ;;
          match e with
          | Some e => ret (Some e)
          | None => ret None
          end
      end
  end.

Definition tearDown : M error :=
  emit EvDeleteNamespace ;;; ret (DeleteNamespace w).

Definition Run : M (Z * error) :=
  err <- run ;;
  match err with
  | Some e => tearDown ;;; ret (0, Some e)
  | None => tearDown ;;; ret (0, None)
  end.

End Task.

(** How often [tearDown] has been called. *)
Definition teardowns (t : WorkerTask) : nat :=
  List.length (filter (fun e => match e with EvDeleteNamespace => true | _ => false end)
                      (trace t)).

(* ---------------------------------------------------------------- *)
(** ** runWorkers (lines 90-127)

    One goroutine per task, and one more that waits for them and closes
    the two channels; the function itself goes on to read the channels at
    once. Thread [0] is the function, [1] the closing goroutine, [S (S i)]
    the goroutine of task [i]. *)

Inductive wgo :=
| WgRun                      (* in [task.Run()] *)
| WgSend (r : Z * error)     (* [task.Run()] has returned [r] *)
| WgDone                     (* before [wg.Done()] *)
| WgExit.

Inductive wcloser :=
| WcIdle                     (* not started *)
| WcWait
| WcCloseErr
| WcCloseCode
| WcExit.

(** How [runWorkers] ends: it returns an error, or [os.Exit] ends the
    process. *)
Inductive wresult :=
| Returns (e : error)
| Exits (code : Z).

Inductive wmain :=
| WmLoop (k : nat)
| WmGo                       (* before the closing goroutine is started *)
| WmRangeErr                 (* at [for err := range errChan] *)
| WmRangeCode                (* at [for code := range codeChan] *)
| WmEnd (r : wresult).

Record wconf := {
  wc_go : list wgo;
  wc_wg : Z;
  wc_errChan : bchan err;
  wc_codeChan : bchan Z;
  wc_closer : wcloser;
  wc_main : wmain;
  wc_panic : bool;
  (** the tasks in the order they delivered their result; kept for the
      statements, the code has no such variable *)
  wc_arrived : list nat
}.

Definition winit : wconf :=
  {| wc_go := []; wc_wg := 0; wc_errChan := bmake; wc_codeChan := bmake;
     wc_closer := WcIdle; wc_main := WmLoop 0; wc_panic := false; wc_arrived := [] |}.

Definition wpanic (c : wconf) : wconf :=
  {| wc_go := wc_go c; wc_wg := wc_wg c; wc_errChan := wc_errChan c;
     wc_codeChan := wc_codeChan c; wc_closer := wc_closer c; wc_main := wc_main c;
     wc_panic := true; wc_arrived := wc_arrived c |}.

Definition wset_main (m : wmain) (c : wconf) : wconf :=
  {| wc_go := wc_go c; wc_wg := wc_wg c; wc_errChan := wc_errChan c;
     wc_codeChan := wc_codeChan c; wc_closer := wc_closer c; wc_main := m;
     wc_panic := wc_panic c; wc_arrived := wc_arrived c |}.

Definition wset_closer (k : wcloser) (c : wconf) : wconf :=
  {| wc_go := wc_go c; wc_wg := wc_wg c; wc_errChan := wc_errChan c;
     wc_codeChan := wc_codeChan c; wc_closer := k; wc_main := wc_main c;
     wc_panic := wc_panic c; wc_arrived := wc_arrived c |}.

Definition wset_errChan (ch : bchan err) (c : wconf) : wconf :=
  {| wc_go := wc_go c; wc_wg := wc_wg c; wc_errChan := ch;
     wc_codeChan := wc_codeChan c; wc_closer := wc_closer c; wc_main := wc_main c;
     wc_panic := wc_panic c; wc_arrived := wc_arrived c |}.

Definition wset_codeChan (ch : bchan Z) (c : wconf) : wconf :=
  {| wc_go := wc_go c; wc_wg := wc_wg c; wc_errChan := wc_errChan c;
     wc_codeChan := ch; wc_closer := wc_closer c; wc_main := wc_main c;
     wc_panic := wc_panic c; wc_arrived := wc_arrived c |}.

(** Task [i] has delivered its result and goes on to [wg.Done()]. *)
Definition wdelivered (i : nat) (c : wconf) : wconf :=
  {| wc_go := ListUtil.set_nth i WgDone (wc_go c); wc_wg := wc_wg c;
     wc_errChan := wc_errChan c; wc_codeChan := wc_codeChan c;
     wc_closer := wc_closer c; wc_main := wc_main c;
     wc_panic := wc_panic c; wc_arrived := wc_arrived c ++ [i] |}.

(** [runs] holds, for each task, how its [Run] ends: it returns, it never
    returns, or it panics; a panic in a goroutine ends the process. *)
Definition wmain_step (runs : list (outcome (Z * error))) (c : wconf) : option wconf :=
  match wc_main c with
  | WmLoop k =>
      if Nat.ltb k (List.length runs)
      then Some {| wc_go := wc_go c ++ [WgRun]; wc_wg := wc_wg c + 1;
                   wc_errChan := wc_errChan c; wc_codeChan := wc_codeChan c;
                   wc_closer := wc_closer c; wc_main := WmLoop (S k);
                   wc_panic := wc_panic c; wc_arrived := wc_arrived c |}
      else Some (wset_main WmGo c)
  | WmGo => Some (wset_main WmRangeErr (wset_closer WcWait c))
  | WmRangeErr =>
      match items (wc_errChan c) with
      | e :: rest =>
          Some (wset_main (WmEnd (Returns (Some e)))
                  (wset_errChan {| items := rest;
                                   is_closed := is_closed (wc_errChan c) |} c))
      | [] => if is_closed (wc_errChan c) then Some (wset_main WmRangeCode c) else None
      end
  | WmRangeCode =>
      match items (wc_codeChan c) with
      | code :: rest =>
          let c' := wset_codeChan {| items := rest;
                                     is_closed := is_closed (wc_codeChan c) |} c in
          if code =? 0 then Some c' else Some (wset_main (WmEnd (Exits code)) c')
      | [] =>
          if is_closed (wc_codeChan c) then Some (wset_main (WmEnd (Returns None)) c)
          else None
      end
  | WmEnd _ => None
  end.

Definition wcloser_step (c : wconf) : option wconf :=
  match wc_closer c with
  | WcIdle => None
  | WcWait => if wc_wg c =? 0 then Some (wset_closer WcCloseErr c) else None
  | WcCloseErr =>
      match bclose (wc_errChan c) with
      | Proceeds ch => Some (wset_closer WcCloseCode (wset_errChan ch c))
      | _ => Some (wpanic c)
      end
  | WcCloseCode =>
      match bclose (wc_codeChan c) with
      | Proceeds ch => Some (wset_closer WcExit (wset_codeChan ch c))
      | _ => Some (wpanic c)
      end
  | WcExit => None
  end.

Definition wgo_step (runs : list (outcome (Z * error))) (i : nat) (c : wconf)
  : option wconf :=
  let n := List.length runs in
  match nth_error (wc_go c) i with
  | Some WgRun =>
      match nth_error runs i with
      | Some (Ret r) =>
          Some {| wc_go := ListUtil.set_nth i (WgSend r) (wc_go c); wc_wg := wc_wg c;
                  wc_errChan := wc_errChan c; wc_codeChan := wc_codeChan c;
                  wc_closer := wc_closer c; wc_main := wc_main c;
                  wc_panic := wc_panic c; wc_arrived := wc_arrived c |}
      | Some Panic => Some (wpanic c)
      | _ => None
      end
  | Some (WgSend (_, Some e)) =>
      match bsend n e (wc_errChan c) with
      | Proceeds ch => Some (wdelivered i (wset_errChan ch c))
      | Blocks => None
      | Panics => Some (wpanic c)
      end
  | Some (WgSend (status, None)) =>
      match bsend n status (wc_codeChan c) with
      | Proceeds ch => Some (wdelivered i (wset_codeChan ch c))
      | Blocks => None
      | Panics => Some (wpanic c)
      end
  | Some WgDone =>
      Some {| wc_go := ListUtil.set_nth i WgExit (wc_go c); wc_wg := wc_wg c - 1;
              wc_errChan := wc_errChan c; wc_codeChan := wc_codeChan c;
              wc_closer := wc_closer c; wc_main := wc_main c;
              wc_panic := (wc_wg c - 1 <? 0); wc_arrived := wc_arrived c |}
  | Some WgExit => None
  | None => None
  end.

(** No thread moves once the process has panicked or exited. *)
Definition wstep (runs : list (outcome (Z * error))) (tid : nat) (c : wconf)
  : option wconf :=
  if wc_panic c then None
  else match wc_main c with
       | WmEnd (Exits _) => None
       | _ =>
           match tid with
           | O => wmain_step runs c
           | S O => wcloser_step c
           | S (S i) => wgo_step runs i c
           end
       end.

Definition runWorkers_conf (runs : list (outcome (Z * error))) (schedule : list nat)
  : wconf :=
  run_schedule (wstep runs) schedule winit.

Definition wresult_of (c : wconf) : outcome wresult :=
  if wc_panic c then Panic
  else match wc_main c with
       | WmEnd r => Ret r
       | _ => Pending
       end.

Definition runWorkers (runs : list (outcome (Z * error))) (schedule : list nat)
  : outcome wresult :=
  wresult_of (runWorkers_conf runs schedule).

(** Task [i] has finished when its goroutine is past [task.Run()]. *)
Definition task_finished (c : wconf) (i : nat) : bool :=
  match nth_error (wc_go c) i with
  | Some WgRun | None => false
  | Some _ => true
  end.

(* ---------------------------------------------------------------- *)
(** ** getWorkerName and getWorkerAddress (lines 169-175) *)

(** [fmt.Sprintf("%d", n)]: the decimal digits of [n], after a minus sign
    when [n] is negative. *)
Definition Sprintf_d (n : Z) : string :=
  DecimalString.NilEmpty.string_of_int (Z.to_int n).

Definition getWorkerName (worker : Z) : string :=
  ("worker-" ++ Sprintf_d worker)%string.

Definition getWorkerAddress (t : WorkerTask) (worker : Z) : string :=
  (getWorkerName worker ++ "." ++ ID (config t) ++ ".svc.cluster.local:5000")%string.

(* ---------------------------------------------------------------- *)
(** ** Coordinator.Run (lines 48-87) *)

Definition newJobID (testID suite : string) : string :=
  (testID ++ "-" ++ suite)%string.

(** The tasks built for the suites: one per suite, with the suite's job
    identifier and name, the rest copied from the coordinator's config. *)
Definition Coordinator_tasks (registered : list string) (c : Config)
  : list WorkerTask :=
  let suites := if String.eqb (Suite c) "" then registered else [Suite c] in
  map (fun suite =>
         newWorkerTask
           {| ID := newJobID (ID c) suite; Suite := suite; Benchmark := Benchmark c;
              Workers := Workers c; Parallelism := Parallelism c;
              Iterations := Iterations c; Duration := Duration c;
              MaxLatency := MaxLatency c; Args := Args c |})
      suites.

(** How [task.Run()] ends in the world of the task. *)
Definition task_Run (w : World) (t : WorkerTask) : outcome (Z * error) :=
  fst (Run w t).

(** [Coordinator.Run]: [worlds] gives the world of each task, by the
    suite it runs. *)
Definition Coordinator_Run (registered : list string) (worlds : string -> World)
           (c : Config) (schedule : list nat) : outcome wresult :=
  let tasks := Coordinator_tasks registered c in
  runWorkers (map (fun t => task_Run (worlds (Suite (config t))) t) tasks) schedule.

End Benchmark.

(* ================================================================== *)
(** * internal/console/context.go: options, contexts and Status *)

Module ConsoleContext.
Import GoNum.
Local Open Scope string_scope.

(** ** Options (lines 10-29) *)

Definition defaultRefreshRate : Z := time_Millisecond.

Record Options := {
  RefreshRate : Z;
  Verbose : bool
}.

(** [Option], a function on a pointer to the options: what it does to
    the options it is given. *)
Definition Option : Type := Options -> Options.

Definition WithRefreshRate (d : Z) : Option :=
  fun options => {| RefreshRate := d; Verbose := Verbose options |}.

Definition WithVerbose : Option :=
  fun options => {| RefreshRate := RefreshRate options; Verbose := true |}.

(** ** Contexts (lines 31-101) *)

(** A context: its options, the refresh rate its reporter was made with
    (for the context [NewContext] makes; a forked context reports through
    its parent's), and whether its [closer] is set. *)
Record Context := {
  options : Options;
  reporter : option Z;
  closer : bool
}.

(** [NewContext]: the options are applied in the order given, to the
    defaults. *)
Definition NewContext (opts : list Option) : Context :=
  let options :=
    fold_left (fun options opt => opt options) opts
              {| RefreshRate := defaultRefreshRate; Verbose := false |} in
  {| options := options; reporter := Some (RefreshRate options); closer := true |}.

(** The context [Fork] hands to [f] (lines 59-63). *)
Definition Fork_context (c : Context) : Context :=
  {| options := options c; reporter := None; closer := false |}.

(** [Close]: how many times the reporter is stopped. *)
Definition Close (c : Context) : nat :=
  if closer c then 1%nat else 0%nat.

(** A context reached from [c] through [n] nested calls of [Fork]. *)
Fixpoint descendant (n : nat) (c : Context) : Context :=
  match n with
  | O => c
  | S k => Fork_context (descendant k c)
  end.

(** ** Status and its writer (lines 159-220) *)

(** A [Status] with its report and its writer: whether it is verbose,
    what the writer's buffer holds, and the messages [report.Update] has
    been called with, oldest first. *)
Record Status := {
  verbose : bool;
  writer_buf : string;
  updates : list string
}.

(** [newStatus(report, verbose)], for a report that has not been updated. *)
Definition newStatus (verbose : bool) : Status :=
  {| verbose := verbose; writer_buf := ""; updates := [] |}.

(** [Status.Report] *)
Definition Report (message : string) (s : Status) : Status :=
  {| verbose := verbose s; writer_buf := writer_buf s;
     updates := updates s ++ [message] |}.

(** [statusReportWriter.Write]: [bytes.Buffer.Write] appends and returns
    no error, so the report is updated with all the buffer holds. *)
Definition Write (bytes : string) (s : Status) : Z * Status :=
  (Z.of_nat (String.length bytes),
   {| verbose := verbose s; writer_buf := writer_buf s ++ bytes;
      updates := updates s ++ [writer_buf s ++ bytes] |}).

Definition newline : Ascii.ascii := Ascii.ascii_of_nat 10.

(** [buf.Bytes()[buf.Len()-1]], when [buf.Len() != 0]. *)
Fixpoint last_byte (s : string) : option Ascii.ascii :=
  match s with
  | EmptyString => None
  | String c EmptyString => Some c
  | String _ rest => last_byte rest
  end.

(** The buffer [log] writes: the message, with a newline added when it is
    empty or does not end with one. *)
Definition terminated (message : string) : string :=
  match last_byte message with
  | Some c => if Ascii.eqb c newline then message
              else message ++ String newline EmptyString
  | None => message ++ String newline EmptyString
  end.

(** [Status.log] (and so [Status.Log]) *)
Definition log (message : string) (s : Status) : Status :=
  if verbose s then snd (Write (terminated message) s) else s.

(** The messages logged one after the other. *)
Definition logs (messages : list string) (s : Status) : Status :=
  fold_left (fun s message => log message s) messages s.

End ConsoleContext.

(* ================================================================== *)
(** * The vocabulary of the statements *)

Module Spec.
Import GoNum Benchmark.

(** The sum of one field over the workers' responses. *)
Definition total (f : RunResponse -> Z) (rs : list RunResponse) : Z :=
  fold_right Z.add 0 (map f rs).

(** [m] is the greatest of the values [f] takes on [rs]. *)
Definition greatest (f : RunResponse -> Z) (rs : list RunResponse) (m : Z) : Prop :=
  In m (map f rs) /\ forall r, In r rs -> f r <= m.

(** A nanosecond count that [float64] holds exactly. *)
Definition exact (d : Z) : Prop := 0 <= d < 2 ^ 53.

(** The responses the aggregation handles without loss: counts and times
    are not negative, each duration is held exactly by a [float64], and
    the sums stay below [2^32] for the requests and [2^53] for the
    latencies. *)
Record in_range (rs : list RunResponse) : Prop := {
  range_fields : forall r, In r rs ->
    0 <= Requests r /\ exact (rs_Duration r) /\ 0 <= Latency r /\
    0 <= Latency50 r /\ 0 <= Latency75 r /\ 0 <= Latency95 r /\ 0 <= Latency99 r;
  range_requests : total Requests rs < 2 ^ 32;
  range_latency : total Latency rs < 2 ^ 53;
  range_latency50 : total Latency50 rs < 2 ^ 53;
  range_latency75 : total Latency75 rs < 2 ^ 53;
  range_latency95 : total Latency95 rs < 2 ^ 53;
  range_latency99 : total Latency99 rs < 2 ^ 53
}.

(** The sum of the request counts of the requests sent. *)
Definition dispatched (rqs : list RunRequest) : Z :=
  fold_right Z.add 0 (map rq_Requests rqs).

(** The accumulators after the responses [rs], written with sums and a
    maximum. *)
Definition summed (a : sums) (rs : list RunResponse) : sums :=
  {| s_duration := fold_left Z.max (map rs_Duration rs) (s_duration a);
     s_requests := uint32 (s_requests a + total Requests rs);
     s_latencySum := int64 (s_latencySum a + total Latency rs);
     s_latency50Sum := int64 (s_latency50Sum a + total Latency50 rs);
     s_latency75Sum := int64 (s_latency75Sum a + total Latency75 rs);
     s_latency95Sum := int64 (s_latency95Sum a + total Latency95 rs);
     s_latency99Sum := int64 (s_latency99Sum a + total Latency99 rs) |}.

(** Accumulators as the loop leaves them: reduced to their width. *)
Definition reduced (a : sums) : Prop :=
  uint32 (s_requests a) = s_requests a /\
  int64 (s_latencySum a) = s_latencySum a /\
  int64 (s_latency50Sum a) = s_latency50Sum a /\
  int64 (s_latency75Sum a) = s_latency75Sum a /\
  int64 (s_latency95Sum a) = s_latency95Sum a /\
  int64 (s_latency99Sum a) = s_latency99Sum a.

(** The two workers of the scenario. *)
Definition ms (n : Z) : Z := n * time_Millisecond.

Definition worker0 : RunResponse :=
  {| Requests := 100; rs_Duration := time_Second; Latency := ms 10;
     Latency50 := ms 8; Latency75 := ms 12; Latency95 := ms 20; Latency99 := ms 25 |}.

Definition worker1 : RunResponse :=
  {| Requests := 100; rs_Duration := 2 * time_Second; Latency := ms 20;
     Latency50 := ms 16; Latency75 := ms 24; Latency95 := ms 30; Latency99 := ms 35 |}.

(** Two workers whose request counts add up to [2^32] and whose latencies
    add up to an odd number of nanoseconds. *)
Definition heavy0 : RunResponse :=
  {| Requests := 2147483648; rs_Duration := 1; Latency := 1;
     Latency50 := 1; Latency75 := 1; Latency95 := 1; Latency99 := 1 |}.

Definition heavy1 : RunResponse :=
  {| Requests := 2147483648; rs_Duration := 1; Latency := 2;
     Latency50 := 2; Latency75 := 2; Latency95 := 2; Latency99 := 2 |}.

(** A worker that reports the longest [time.Duration] there is, and one
    that reports five nanoseconds. *)
Definition longest : RunResponse :=
  {| Requests := 1; rs_Duration := 9223372036854775807; Latency := 1;
     Latency50 := 1; Latency75 := 1; Latency95 := 1; Latency99 := 1 |}.

Definition brief : RunResponse :=
  {| Requests := 1; rs_Duration := 5; Latency := 1;
     Latency50 := 1; Latency75 := 1; Latency95 := 1; Latency99 := 1 |}.

(** A configuration of the scenario: two workers, one suite. *)
Definition scenario_config (iterations : Z) (maxLatency : option Z) : Config :=
  {| ID := "run"; Suite := "kv"; Benchmark := ""; Workers := 2; Parallelism := 1;
     Iterations := iterations; Duration := None; MaxLatency := maxLatency;
     Args := [] |}.

(** A schedule under which the fan-out of a setup phase over two workers
    runs to its end: the function starts both goroutines, each goroutine
    runs, then the function waits, closes and reads the channel. *)
Definition setup_schedule : list nat := [0; 0; 0; 1; 1; 1; 2; 2; 2; 0; 0; 0]%nat.

(** The same for the fan-out of [runBenchmark]. *)
Definition run_schedule2 : list nat := [0; 0; 0; 1; 1; 1; 2; 2; 2; 0; 0; 0; 0; 0]%nat.

(** The world of the scenario: a suite with the benchmark "Get", two
    workers that answer as in the scenario; [setupWorker0] is what the
    [SetupWorker] call of worker 0 returns, [deleteNamespace] what the
    teardown returns. *)
Definition scenario_world (setupWorker0 deleteNamespace : error) : World :=
  {| CreateNamespace := None;
     IterAsync_createWorker := None;
     Dial := fun _ => None;
     SetupSuite := None;
     SetupWorker := fun i => match i with O => setupWorker0 | _ => None end;
     SetupBenchmark := fun _ _ => None;
     RunBenchmark := fun _ i _ => match i with O => inl worker0 | _ => inl worker1 end;
     DeleteNamespace := deleteNamespace;
     getBenchmarks := ["Get"%string];
     sched_setupWorkers := setup_schedule;
     sched_setupBenchmark := fun _ => setup_schedule;
     sched_runBenchmark := fun _ => run_schedule2 |}.

(** The result of the scenario. *)
Definition scenario_result : result :=
  {| benchmark := "Get"; requests := 200; duration := 2 * time_Second;
     throughput := Float64.of_int 100; meanLatency := ms 15;
     latencyPercentiles := [(k50, ms 12); (k75, ms 18); (k95, ms 25); (k99, ms 30)] |}.

(** A world in which the teardown returns [d]. *)
Definition with_DeleteNamespace (d : error) (w : World) : World :=
  {| CreateNamespace := CreateNamespace w;
     IterAsync_createWorker := IterAsync_createWorker w;
     Dial := Dial w;
     SetupSuite := SetupSuite w;
     SetupWorker := SetupWorker w;
     SetupBenchmark := SetupBenchmark w;
     RunBenchmark := RunBenchmark w;
     DeleteNamespace := d;
     getBenchmarks := getBenchmarks w;
     sched_setupWorkers := sched_setupWorkers w;
     sched_setupBenchmark := sched_setupBenchmark w;
     sched_runBenchmark := sched_runBenchmark w |}.

(** A world with one worker whose [SetupWorker] call fails, under a
    schedule that lets every thread move as far as it can. *)
Definition failing_world : World :=
  {| CreateNamespace := None;
     IterAsync_createWorker := None;
     Dial := fun _ => None;
     SetupSuite := None;
     SetupWorker := fun _ => Some (ExternalError 14);
     SetupBenchmark := fun _ _ => None;
     RunBenchmark := fun _ _ _ => inl worker0;
     DeleteNamespace := None;
     getBenchmarks := ["Get"%string];
     sched_setupWorkers := [0; 0; 1; 1; 1; 1; 0; 1; 0; 0]%nat;
     sched_setupBenchmark := fun _ => setup_schedule;
     sched_runBenchmark := fun _ => run_schedule2 |}.

Definition one_worker_config : Config :=
  {| ID := "run"; Suite := "kv"; Benchmark := ""; Workers := 1; Parallelism := 1;
     Iterations := 100; Duration := None; MaxLatency := None; Args := [] |}.

(** The error, if any, that task [i] returns, and its status if it
    returns no error. *)
Definition error_of (runs : list (outcome (Z * error))) (i : nat) : list err :=
  match nth_error runs i with
  | Some (Ret (_, Some e)) => [e]
  | _ => []
  end.

Definition code_of (runs : list (outcome (Z * error))) (i : nat) : list Z :=
  match nth_error runs i with
  | Some (Ret (status, None)) => [status]
  | _ => []
  end.

(** The errors and the statuses of the tasks [l], in the order of [l]. *)
Definition errors_of (runs : list (outcome (Z * error))) (l : list nat) : list err :=
  flat_map (error_of runs) l.

Definition codes_of (runs : list (outcome (Z * error))) (l : list nat) : list Z :=
  flat_map (code_of runs) l.

Definition exited (g : wgo) : bool :=
  match g with WgExit => true | _ => false end.

(** The goroutines that have not called [wg.Done()] yet. *)
Definition active (l : list wgo) : nat :=
  List.length (filter (fun g => negb (exited g)) l).

(** Every task has its goroutine, and every goroutine is over. *)
Definition all_exited (runs : list (outcome (Z * error))) (c : wconf) : Prop :=
  List.length (wc_go c) = List.length runs /\ Forall (fun g => g = WgExit) (wc_go c).

(** What the channels hold, by where [runWorkers] stands: [errs] and
    [codes] are the errors and the statuses delivered so far, in the order
    of their delivery. *)
Definition channels_agree (runs : list (outcome (Z * error))) (c : wconf) : Prop :=
  let errs := errors_of runs (wc_arrived c) in
  let codes := codes_of runs (wc_arrived c) in
  match wc_main c with
  | WmLoop _ | WmGo | WmRangeErr =>
      items (wc_errChan c) = errs /\ items (wc_codeChan c) = codes
  | WmRangeCode =>
      errs = [] /\ all_exited runs c /\
      exists zeros, codes = zeros ++ items (wc_codeChan c) /\ Forall (fun z => z = 0) zeros
  | WmEnd (Returns (Some e)) =>
      errs = e :: items (wc_errChan c) /\ items (wc_codeChan c) = codes
  | WmEnd (Exits code) =>
      errs = [] /\ all_exited runs c /\ code <> 0 /\
      exists zeros, codes = zeros ++ code :: items (wc_codeChan c)
                    /\ Forall (fun z => z = 0) zeros
  | WmEnd (Returns None) =>
      errs = [] /\ all_exited runs c /\ Forall (fun z => z = 0) codes
  end.

(** Where a goroutine stands, against the deliveries. *)
Definition go_agrees (runs : list (outcome (Z * error))) (arrived : list nat)
           (i : nat) (g : wgo) : Prop :=
  match g with
  | WgRun => ~ In i arrived
  | WgSend r => nth_error runs i = Some (Ret r) /\ ~ In i arrived
  | WgDone | WgExit => In i arrived /\ exists r, nth_error runs i = Some (Ret r)
  end.

(** What every configuration of [runWorkers] satisfies. *)
Record winv (runs : list (outcome (Z * error))) (c : wconf) : Prop := {
  wi_go : forall i g, nth_error (wc_go c) i = Some g -> go_agrees runs (wc_arrived c) i g;
  wi_wg : wc_wg c = Z.of_nat (active (wc_go c));
  wi_len : match wc_main c with
           | WmLoop k => List.length (wc_go c) = k /\ (k <= List.length runs)%nat
           | _ => List.length (wc_go c) = List.length runs
           end;
  wi_idle : match wc_main c with
            | WmLoop _ | WmGo => wc_closer c = WcIdle
            | _ => True
            end;
  wi_closer : match wc_closer c with
              | WcCloseErr | WcCloseCode | WcExit => all_exited runs c
              | _ => True
              end;
  wi_closed : is_closed (wc_errChan c) = true -> all_exited runs c;
  wi_arrived : forall i, In i (wc_arrived c) -> (i < List.length (wc_go c))%nat;
  wi_chan : channels_agree runs c
}.

(** Two suites: the first task returns the status 0, the second 2. *)
Definition two_suites : list (outcome (Z * error)) := [Ret (0, None); Ret (2, None)].

(** Two suites of which the first fails with an error. *)
Definition failing_suites : list (outcome (Z * error)) :=
  [Ret (0, Some (ExternalError 14)); Ret (0, None)].

(** The function starts both tasks and the closing goroutine, the first
    task runs and delivers its error, and the function reads it. *)
Definition early_schedule : list nat := [0; 0; 0; 0; 2; 2; 0]%nat.

(** Every thread runs to its end, the tasks first. *)
Definition full_schedule : list nat :=
  [0; 0; 0; 0; 2; 2; 2; 3; 3; 3; 1; 1; 1; 0; 0; 0; 0]%nat.

(** ** The fan-out of setupWorkers and setupBenchmark *)

(** The channel is read only once it is closed, and what is returned is
    [nil]. *)
Definition returns_nil (c : sconf) : Prop :=
  match sc_main c with
  | SmRange => sc_closed c = true
  | SmReturn e => e = None
  | _ => True
  end.

(** A goroutine that has not passed its send. *)
Definition before_send (g : sgo) : Prop :=
  match g with
  | SgCall | SgTest | SgEval | SgSend _ => True
  | SgDone | SgExit => False
  end.

Definition not_called (g : sgo) : Prop :=
  match g with SgCall => True | _ => False end.

Record stuck (calls : list error) (c : sconf) : Prop := {
  stuck_panic : sc_panic c = false;
  stuck_open : sc_closed c = false;
  stuck_wg : sc_wg c = Z.of_nat (List.length (sc_go c));
  stuck_main :
    (exists k, sc_main c = SmLoop k /\ k = List.length (sc_go c)
               /\ (k <= List.length calls)%nat) \/
    (sc_main c = SmWait /\ List.length (sc_go c) = List.length calls);
  stuck_go : Forall before_send (sc_go c);
  stuck_err : sc_err c = None -> Forall not_called (sc_go c)
}.

(** ** The phases of a WorkerTask *)

(** A call that leaves the configuration as it is and tears nothing down. *)
Definition steady {A : Type} (m : M A) : Prop :=
  forall t, config (snd (m t)) = config t /\ teardowns (snd (m t)) = teardowns t.

(** ** runWorkers: the channels are closed once, after the last send *)

Definition wsafe (c : wconf) : Prop :=
  wc_panic c = false /\
  (is_closed (wc_errChan c) = true ->
   wc_closer c = WcCloseCode \/ wc_closer c = WcExit) /\
  (is_closed (wc_codeChan c) = true -> wc_closer c = WcExit).

(** The function starts the [n] tasks and the closing goroutine, task [i]
    runs and delivers what it returned, and the function reads the error
    channel; no other task has made a step. *)
Definition hasty_schedule (n i : nat) : list nat :=
  repeat 0%nat n ++ [0; 0; S (S i); S (S i); 0]%nat.

(** Two suites whose tasks both return the status 0. *)
Definition quiet_suites : list (outcome (Z * error)) := [Ret (0, None); Ret (0, None)].

(** The job identifiers of the tasks. *)
Definition job_ids (tasks : list WorkerTask) : list string :=
  map (fun t => ID (config t)) tasks.

(** A world in which the namespace is created, or not. *)
Definition with_CreateNamespace (r : error) (w : World) : World :=
  {| CreateNamespace := r;
     IterAsync_createWorker := IterAsync_createWorker w;
     Dial := Dial w;
     SetupSuite := SetupSuite w;
     SetupWorker := SetupWorker w;
     SetupBenchmark := SetupBenchmark w;
     RunBenchmark := RunBenchmark w;
     DeleteNamespace := DeleteNamespace w;
     getBenchmarks := getBenchmarks w;
     sched_setupWorkers := sched_setupWorkers w;
     sched_setupBenchmark := sched_setupBenchmark w;
     sched_runBenchmark := sched_runBenchmark w |}.

(** A world with other answers to [grpc.Dial]. *)
Definition with_Dial (d : nat -> error) (w : World) : World :=
  {| CreateNamespace := CreateNamespace w;
     IterAsync_createWorker := IterAsync_createWorker w;
     Dial := d;
     SetupSuite := SetupSuite w;
     SetupWorker := SetupWorker w;
     SetupBenchmark := SetupBenchmark w;
     RunBenchmark := RunBenchmark w;
     DeleteNamespace := DeleteNamespace w;
     getBenchmarks := getBenchmarks w;
     sched_setupWorkers := sched_setupWorkers w;
     sched_setupBenchmark := sched_setupBenchmark w;
     sched_runBenchmark := sched_runBenchmark w |}.

Definition no_worker_config : Config :=
  {| ID := "run"; Suite := "kv"; Benchmark := ""; Workers := 0; Parallelism := 1;
     Iterations := 100; Duration := None; MaxLatency := None; Args := [] |}.

(** ** The fan-out of runBenchmark *)

Definition bexited (g : bgo) : bool :=
  match g with BgExit => true | _ => false end.

(** The goroutines that have not called [wg.Done()] yet. *)
Definition bactive (l : list bgo) : nat :=
  List.length (filter (fun g => negb (bexited g)) l).

(** A goroutine that has sent what its call returned. *)
Definition bdelivered (g : bgo) : bool :=
  match g with BgDone | BgExit => true | _ => false end.

(** What the calls of the goroutines that have delivered returned, in the
    order of the pool. *)
Fixpoint delivered_calls (go : list bgo) (calls : list (RunResponse + err))
  : list (RunResponse + err) :=
  match go, calls with
  | g :: go', r :: calls' =>
      (if bdelivered g then [r] else []) ++ delivered_calls go' calls'
  | _, _ => []
  end.

(** What the two channels hold. *)
Definition channel_contents (c : bconf) : list (RunResponse + err) :=
  map inl (items (bc_resultCh c)) ++ map inr (items (bc_errCh c)).

(** The configuration the fan-out has reached under a schedule. *)
Definition run_fanout_conf (bench : string) (calls : list (RunResponse + err))
           (schedule : list nat) : bconf :=
  run_schedule (bstep bench calls) schedule binit.

(** What every configuration of the fan-out satisfies. *)
Record binv (bench : string) (calls : list (RunResponse + err)) (c : bconf) : Prop := {
  bi_panic : bc_panic c = false;
  bi_wg : bc_wg c = Z.of_nat (bactive (bc_go c));
  bi_len : match bc_main c with
           | BmLoop k => List.length (bc_go c) = k /\ (k <= List.length calls)%nat
           | _ => List.length (bc_go c) = List.length calls
           end;
  bi_send : forall i r, nth_error (bc_go c) i = Some (BgSend r) ->
                        nth_error calls i = Some r;
  bi_chan : Permutation (channel_contents c) (delivered_calls (bc_go c) calls);
  bi_open : match bc_main c with
            | BmLoop _ | BmWait | BmCloseResult =>
                is_closed (bc_resultCh c) = false /\ is_closed (bc_errCh c) = false
            | BmCloseErr =>
                is_closed (bc_resultCh c) = true /\ is_closed (bc_errCh c) = false
            | _ => is_closed (bc_resultCh c) = true /\ is_closed (bc_errCh c) = true
            end;
  bi_over : match bc_main c with
            | BmLoop _ | BmWait => True
            | _ => Forall (fun g => g = BgExit) (bc_go c)
            end;
  bi_ret : match bc_main c with
           | BmReturn (inr e) => In e (items (bc_errCh c))
           | BmReturn (inl res) =>
               items (bc_errCh c) = [] /\
               res = aggregate bench (Z.of_nat (List.length calls)) (items (bc_resultCh c))
           | BmRangeResult => items (bc_errCh c) = []
           | _ => True
           end
}.

(** The steps made under a schedule: a thread that is named while it
    cannot move makes none. *)
Fixpoint steps_made {C : Type} (step : nat -> C -> option C) (schedule : list nat)
         (c : C) : nat :=
  match schedule with
  | [] => 0
  | tid :: rest =>
      match step tid c with
      | Some c' => S (steps_made step rest c')
      | None => steps_made step rest c
      end
  end.

(** The steps a goroutine of the fan-out of [runBenchmark] has left, and
    those the function has left once the goroutines are over. *)
Definition bgo_rank (g : bgo) : nat :=
  match g with BgCall => 3 | BgSend _ => 2 | BgDone => 1 | BgExit => 0 end.

Definition bmain_rank (m : bmain) : nat :=
  match m with
  | BmLoop _ => 6
  | BmWait => 5
  | BmCloseResult => 4
  | BmCloseErr => 3
  | BmRangeErr => 2
  | BmRangeResult => 1
  | BmReturn _ => 0
  end.

Definition bmeasure (calls : list (RunResponse + err)) (c : bconf) : nat :=
  bmain_rank (bc_main c) + list_sum (map bgo_rank (bc_go c))
  + 4 * (List.length calls - List.length (bc_go c)).

(** What the calls of a pool of two workers return: two responses, or a
    response and an error. *)
Definition answered_calls : list (RunResponse + err) := [inl worker0; inl worker1].

Definition refused_calls : list (RunResponse + err) :=
  [inl worker0; inr (ExternalError 14)].

(** ** The fan-out of setupWorkers and setupBenchmark when no call fails *)

Definition sexited (g : sgo) : bool :=
  match g with SgExit => true | _ => false end.

(** The goroutines that have not called [wg.Done()] yet. *)
Definition sactive (l : list sgo) : nat :=
  List.length (filter (fun g => negb (sexited g)) l).

(** A goroutine that is not in the branch of [if err != nil]. *)
Definition quiet_go (g : sgo) : Prop :=
  match g with SgEval | SgSend _ => False | _ => True end.

(** The configuration the fan-out has reached under a schedule. *)
Definition setup_fanout_conf (calls : list error) (schedule : list nat) : sconf :=
  run_schedule (sstep calls) schedule sinit.

Record calm (calls : list error) (c : sconf) : Prop := {
  calm_panic : sc_panic c = false;
  calm_err : sc_err c = None;
  calm_wg : sc_wg c = Z.of_nat (sactive (sc_go c));
  calm_len : match sc_main c with
             | SmLoop k => List.length (sc_go c) = k /\ (k <= List.length calls)%nat
             | _ => List.length (sc_go c) = List.length calls
             end;
  calm_go : Forall quiet_go (sc_go c);
  calm_closed : match sc_main c with
                | SmLoop _ | SmWait | SmClose => sc_closed c = false
                | SmRange => sc_closed c = true
                | SmReturn e => e = None
                end;
  calm_over : match sc_main c with
              | SmLoop _ | SmWait => True
              | _ => Forall (fun g => g = SgExit) (sc_go c)
              end
}.

(** The steps a goroutine has left when its call succeeds, and those the
    function has left once the goroutines are over. *)
Definition sgo_rank (g : sgo) : nat :=
  match g with
  | SgCall => 3
  | SgTest | SgEval | SgSend _ => 2
  | SgDone => 1
  | SgExit => 0
  end.

Definition smain_rank (m : smain) : nat :=
  match m with
  | SmLoop _ => 4
  | SmWait => 3
  | SmClose => 2
  | SmRange => 1
  | SmReturn _ => 0
  end.

Definition smeasure (calls : list error) (c : sconf) : nat :=
  smain_rank (sc_main c) + list_sum (map sgo_rank (sc_go c))
  + 4 * (List.length calls - List.length (sc_go c)).

(** A schedule of the fan-out over [n] workers under which worker [j]
    is the last to assign [err]: the function starts the goroutines, the
    calls of the other workers return, the call of worker [j] returns,
    then each goroutine tests [err] and calls [wg.Done()], and the
    function goes on to its end. *)
Definition racy_schedule (n j : nat) : list nat :=
  repeat 0%nat (S n)
  ++ map S (filter (fun i => negb (i =? j)%nat) (seq 0 n))
  ++ [S j]
  ++ flat_map (fun i => [S i; S i]) (seq 0 n)
  ++ [0; 0; 0]%nat.

(** The fan-out while the function waits in [wg.Wait()]. *)
Definition waiting (go : list sgo) (e : error) (wg : Z) : sconf :=
  {| sc_err := e; sc_go := go; sc_wg := wg; sc_closed := false;
     sc_main := SmWait; sc_panic := false |}.

(** The goroutines of the pool, those whose call has returned being given
    by a test on the ordinal. *)
Definition called (calls : list error) (p : nat -> bool) : list sgo :=
  map (fun i => if p i then SgTest else SgCall) (seq 0 (List.length calls)).

(** The goroutines before [k] are over and the others are about to test
    [err], which is [nil]. *)
Definition leaving (calls : list error) (k : nat) : sconf :=
  waiting (repeat SgExit k ++ repeat SgTest (List.length calls - k)) None
          (Z.of_nat (List.length calls - k)).

(** ** Names *)

(** The byte [c] occurs in [s]. *)
Fixpoint mem_char (c : Ascii.ascii) (s : string) : bool :=
  match s with
  | EmptyString => false
  | String x rest => Ascii.eqb x c || mem_char c rest
  end.

(** The bytes ['.'] and ['-']. *)
Definition dot : Ascii.ascii := Ascii.ascii_of_nat 46.

Definition dash : Ascii.ascii := Ascii.ascii_of_nat 45.

(** The suites [Coordinator.Run] runs. *)
Definition suites_of (registered : list string) (c : Config) : list string :=
  if String.eqb (Suite c) "" then registered else [Suite c].

(** A configuration that names no suite: every registered suite is run. *)
Definition no_suite_config : Config :=
  {| ID := "run"; Suite := ""; Benchmark := ""; Workers := 2; Parallelism := 1;
     Iterations := 100; Duration := None; MaxLatency := None; Args := [] |}.

(** ** The benchmarks of a suite *)

(** The benchmarks that have been set up, in the order of the calls. *)
Definition setups (tr : list event) : list string :=
  flat_map (fun e => match e with EvSetupBenchmark b _ => [b] | _ => [] end) tr.

(** The task of the scenario once its two workers are connected. *)
Definition connected_task : WorkerTask :=
  {| config := scenario_config 200 None; workers := Some [0; 1]%nat; trace := [] |}.

(** ** runWorkers when every task returns *)

(** What holds besides of every configuration [runWorkers] reaches: a
    task delivers once, the closing goroutine is started before the
    channels are read, and it has closed a channel once it is past the
    [close]. *)
Record wlive (c : wconf) : Prop := {
  wl_nodup : NoDup (wc_arrived c);
  wl_started : match wc_main c with
               | WmLoop _ | WmGo => True
               | _ => wc_closer c <> WcIdle
               end;
  wl_err_closed : wc_closer c = WcCloseCode \/ wc_closer c = WcExit ->
                  is_closed (wc_errChan c) = true;
  wl_code_closed : wc_closer c = WcExit -> is_closed (wc_codeChan c) = true;
  wl_range : wc_main c = WmRangeCode -> is_closed (wc_errChan c) = true
}.

(** The steps the threads of [runWorkers] have left, at most. *)
Definition wgo_rank (g : wgo) : nat :=
  match g with WgRun => 4 | WgSend _ => 3 | WgDone => 1 | WgExit => 0 end.

Definition wcloser_rank (k : wcloser) : nat :=
  match k with
  | WcIdle => 4
  | WcWait => 3
  | WcCloseErr => 2
  | WcCloseCode => 1
  | WcExit => 0
  end.

Definition wmain_rank (m : wmain) : nat :=
  match m with
  | WmLoop _ => 4
  | WmGo => 3
  | WmRangeErr => 2
  | WmRangeCode => 1
  | WmEnd _ => 0
  end.

Definition wmeasure (runs : list (outcome (Z * error))) (c : wconf) : nat :=
  wmain_rank (wc_main c) + wcloser_rank (wc_closer c)
  + list_sum (map wgo_rank (wc_go c))
  + 5 * (List.length runs - List.length (wc_go c))
  + List.length (items (wc_codeChan c)).

(** Every task returns. *)
Definition returning (runs : list (outcome (Z * error))) : Prop :=
  forall r, In r runs -> exists v, r = Ret v.

End Spec.

(* ================================================================== *)
(** * The vocabulary of the statements about contexts and Status *)

Module ContextSpec.
Import GoNum ConsoleContext.
Local Open Scope string_scope.

(** An option as a caller writes it. *)
Inductive given :=
| RefreshRateGiven (d : Z)
| VerboseGiven.

Definition option_of (g : given) : Option :=
  match g with
  | RefreshRateGiven d => WithRefreshRate d
  | VerboseGiven => WithVerbose
  end.

(** The refresh rates given, in the order given. *)
Definition rates (gs : list given) : list Z :=
  flat_map (fun g => match g with RefreshRateGiven d => [d] | VerboseGiven => [] end) gs.

Definition verbose_given (gs : list given) : bool :=
  existsb (fun g => match g with VerboseGiven => true | RefreshRateGiven _ => false end) gs.

(** The strings of a list, one after the other. *)
Definition joined (l : list string) : string :=
  fold_right String.append "" l.

(** A verbose status, and one that is not. *)
Definition loud (buf : string) (ups : list string) : Status :=
  {| verbose := true; writer_buf := buf; updates := ups |}.

Definition mute (buf : string) (ups : list string) : Status :=
  {| verbose := false; writer_buf := buf; updates := ups |}.

End ContextSpec.

(* ================================================================== *)
(** * The vocabulary of the statements about forked tasks *)

Module ForkSpec.
Import ListUtil Console.

Section WithErrors.

Variable E : Type.

(** The goroutines of the tasks forked from channel [base] on finish in
    the order [order], task [i] with the result [rs[i]]. *)
Fixpoint finish_in (base : nat) (rs : list (error E)) (order : list nat) : M E unit :=
  match order with
  | [] => ret tt
  | i :: rest =>
      match nth_error rs i with
      | Some r => bind (goroutine (base + i) r) (fun _ => finish_in base rs rest)
      | None => finish_in base rs rest
      end
  end.

(** One task is forked for each result of [rs], and the tasks finish in
    the order [order]; the Joiners are returned in the order of the
    tasks. *)
Definition fork_finish_in (rs : list (error E)) (order : list nat)
  : M E (list (Joiner E)) :=
  fun h =>
    bind (Fork_all (List.length rs)) (fun jcs =>
      bind (finish_in (List.length h) rs order) (fun _ => ret (map fst jcs))) h.

(** The channels of [n] forked tasks, of which those that [p] holds of
    have finished. *)
Definition channels (rs : list (error E)) (p : nat -> bool) : store E :=
  map (fun i => if p i then finished (nth i rs None) else fresh)
      (seq 0 (List.length rs)).

End WithErrors.

Arguments finish_in {E} base rs order.
Arguments fork_finish_in {E} rs order.
Arguments channels {E} rs p.

End ForkSpec.

(* ================================================================== *)
(** * Facts on float64: integers below [2^53] *)

Module Float64Facts.
Import Float64.

Lemma digits2_pos_size (p : positive) : digits2_pos p = Pos.size p.
Proof. induction p; simpl; congruence. Qed.

Lemma digits2_bounds (p : positive) :
  2 ^ (Zpos (digits2_pos p) - 1) <= Zpos p < 2 ^ Zpos (digits2_pos p).
Proof.
  rewrite digits2_pos_size.
  pose proof (Pos.size_gt p) as Hgt.
  pose proof (Pos.size_le p) as Hle.
  assert (Hp : (2 ^ Pos.size p)%positive = Z.to_pos (2 ^ Zpos (Pos.size p))).
  { rewrite <- Pos2Z.inj_pow. reflexivity. }
  assert (H2 : 2 ^ Zpos (Pos.size p) = Zpos (2 ^ Pos.size p)) by (rewrite Pos2Z.inj_pow; reflexivity).
  split.
  - assert (2 * 2 ^ (Zpos (Pos.size p) - 1) = 2 ^ Zpos (Pos.size p)).
    { rewrite <- Z.pow_succ_r by lia. f_equal. lia. }
    assert (Zpos (2 ^ Pos.size p) <= Zpos p~0) by (apply Pos2Z.pos_le_pos; exact Hle).
    lia.
  - rewrite H2. apply Pos2Z.pos_lt_pos. exact Hgt.
Qed.

Lemma digits2_unique (p : positive) (d : Z) :
  2 ^ (d - 1) <= Zpos p < 2 ^ d -> Zpos (digits2_pos p) = d.
Proof.
  intros [Hlo Hhi].
  pose proof (digits2_bounds p) as [Blo Bhi].
  set (k := Zpos (digits2_pos p)) in *.
  assert (0 < k) by (subst k; lia).
  destruct (Z.lt_trichotomy k d) as [Hlt | [Heq | Hgt]]; auto; exfalso.
  - assert (2 ^ k <= 2 ^ (d - 1)) by (apply Z.pow_le_mono_r; lia). lia.
  - assert (0 <= d \/ d < 0) as [Hd | Hd] by lia.
    + assert (2 ^ d <= 2 ^ (k - 1)) by (apply Z.pow_le_mono_r; lia). lia.
    + rewrite (Z.pow_neg_r 2 d) in Hhi by lia. lia.
Qed.

Lemma iter_xO_pow (p n : positive) :
  Zpos (Pos.iter xO p n) = Zpos p * 2 ^ Zpos n.
Proof.
  revert p. induction n using Pos.peano_ind; intros p.
  - simpl. lia.
  - rewrite Pos.iter_succ. rewrite Pos2Z.inj_xO, IHn.
    rewrite Pos2Z.inj_succ, Z.pow_succ_r by lia. lia.
Qed.

Lemma shr_fexp_keep (m : positive) (e : Z) (l : location) :
  Zpos (digits2_pos m) = 53 -> -1074 <= e ->
  shr_fexp prec emax (Zpos m) e l = (shr_record_of_loc (Zpos m) l, e).
Proof.
  intros Hd He. unfold shr_fexp, fexp, emin, prec, emax. cbn [Zdigits2]. rewrite Hd.
  replace (Z.max (53 + e - 53) (3 - 1024 - 53) - e) with 0 by lia.
  reflexivity.
Qed.

Lemma shr_fexp_one (m : positive) (e : Z) (l : location) :
  Zpos (digits2_pos m) = 54 -> -1075 <= e ->
  shr_fexp prec emax (Zpos m) e l = (shr_1 (shr_record_of_loc (Zpos m) l), e + 1).
Proof.
  intros Hd He. unfold shr_fexp, fexp, emin, prec, emax. cbn [Zdigits2]. rewrite Hd.
  replace (Z.max (54 + e - 53) (3 - 1024 - 53) - e) with 1 by lia.
  reflexivity.
Qed.

Lemma binary_round_aux_exact (s : bool) (m : positive) (e : Z) :
  Zpos (digits2_pos m) = 53 -> -1074 <= e <= 971 ->
  binary_round_aux prec emax s (Zpos m) e loc_Exact = S754_finite s m e.
Proof.
  intros Hd He. unfold binary_round_aux.
  rewrite shr_fexp_keep by lia. cbn [shr_record_of_loc shr_m loc_of_shr_record round_nearest_even].
  rewrite shr_fexp_keep by lia. cbn [shr_record_of_loc shr_m].
  replace (e <=? emax - prec) with true; [reflexivity|].
  symmetry. apply Z.leb_le. unfold emax, prec. lia.
Qed.

Lemma binary_round_normal (s : bool) (p : positive) :
  Zpos p < 2 ^ 53 ->
  exists m e, binary_round prec emax s p 0 = S754_finite s m e /\ normal (Zpos p) m e.
Proof.
  intros Hp. pose proof (digits2_bounds p) as [Blo Bhi].
  set (d := Zpos (digits2_pos p)) in *.
  assert (Hd1 : 1 <= d) by (subst d; lia).
  assert (Hd53 : d <= 53).
  { destruct (Z_le_gt_dec d 53); auto. exfalso.
    assert (2 ^ 53 <= 2 ^ (d - 1)) by (apply Z.pow_le_mono_r; lia). lia. }
  assert (Hfexp : fexp prec emax (d + 0) = d - 53).
  { unfold fexp, emin, prec, emax. lia. }
  unfold binary_round, shl_align. fold d. rewrite Hfexp.
  replace (d - 53 - 0) with (d - 53) by lia.
  destruct (Z.eq_dec d 53) as [E53 | N53].
  - rewrite E53. change (53 - 53) with 0.
    cbv beta iota. rewrite binary_round_aux_exact by (fold d; lia).
    exists p, 0. split; [reflexivity|]. unfold normal. rewrite E53 in *.
    change (2 ^ (53 - 1)) with (2 ^ 52) in Blo. simpl (- 0). rewrite Z.pow_0_r. lia.
  - destruct (d - 53) as [|q|q] eqn:Eq; try lia.
    assert (Hq : Zpos q = 53 - d) by lia.
    assert (Hm : Zpos (Pos.iter xO p q) = Zpos p * 2 ^ (53 - d)) by (rewrite iter_xO_pow, Hq; reflexivity).
    assert (Hpow : 2 ^ 53 = 2 ^ d * 2 ^ (53 - d)) by (rewrite <- Z.pow_add_r by lia; f_equal; lia).
    assert (Hpow' : 2 ^ 52 = 2 ^ (d - 1) * 2 ^ (53 - d)) by (rewrite <- Z.pow_add_r by lia; f_equal; lia).
    assert (0 < 2 ^ (53 - d)) by (apply Z.pow_pos_nonneg; lia).
    assert (Hr : 2 ^ 52 <= Zpos (Pos.iter xO p q) < 2 ^ 53).
    { rewrite Hm, Hpow, Hpow'. split; [apply Z.mul_le_mono_pos_r | apply Z.mul_lt_mono_pos_r]; lia. }
    cbv beta iota. rewrite binary_round_aux_exact.
    + exists (Pos.iter xO p q), (Z.neg q). split; [reflexivity|]. unfold normal.
      replace (- Z.neg q) with (53 - d) by lia. split; [exact Hm|]. split; [lia | exact Hr].
    + apply digits2_unique. exact Hr.
    + lia.
Qed.

Lemma of_int_zero : of_int 0 = S754_zero false.
Proof. reflexivity. Qed.

Lemma of_int_pos (a : Z) :
  0 < a < 2 ^ 53 ->
  exists m e, of_int a = S754_finite false m e /\ normal a m e.
Proof.
  intros [Ha Hb]. destruct a as [|p|p]; try lia.
  unfold of_int, binary_normalize. apply binary_round_normal. exact Hb.
Qed.

Lemma normal_range (a : Z) (m : positive) (e : Z) :
  normal a m e -> 2 ^ (52 + e) <= a < 2 ^ (53 + e).
Proof.
  intros (Hm & He & Hr).
  assert (Hc : 0 < 2 ^ (- e)) by (apply Z.pow_pos_nonneg; lia).
  assert (H52 : 2 ^ 52 = 2 ^ (52 + e) * 2 ^ (- e)) by (rewrite <- Z.pow_add_r by lia; f_equal; lia).
  assert (H53 : 2 ^ 53 = 2 ^ (53 + e) * 2 ^ (- e)) by (rewrite <- Z.pow_add_r by lia; f_equal; lia).
  rewrite Hm, H52, H53 in Hr. destruct Hr as [Hlo Hhi].
  split.
  - apply (Z.mul_le_mono_pos_r _ _ (2 ^ (- e))); assumption.
  - apply (Z.mul_lt_mono_pos_r (2 ^ (- e))); assumption.
Qed.

Lemma trunc_normal (a : Z) (m : positive) (e : Z) :
  normal a m e -> trunc false m e = a.
Proof.
  intros (Hm & He & Hr). unfold trunc.
  destruct e as [|q|q]; try lia.
  rewrite Hm. apply Z.div_mul. apply Z.pow_nonzero; lia.
Qed.

Lemma to_int64_of_int (a : Z) :
  0 <= a < 2 ^ 53 -> to_int64 (of_int a) = a.
Proof.
  intros Ha. destruct (Z.eq_dec a 0) as [-> | Hn]; [reflexivity|].
  destruct (of_int_pos a) as (m & e & Hof & Hn'); [lia|].
  rewrite Hof. unfold to_int64. rewrite (trunc_normal a m e Hn').
  replace ((- 2 ^ 63 <=? a) && (a <? 2 ^ 63)) with true; [reflexivity|].
  symmetry. apply andb_true_iff. split; [apply Z.leb_le | apply Z.ltb_lt]; lia.
Qed.

Lemma compare_normal (a b : Z) (ma mb : positive) (ea eb : Z) :
  normal a ma ea -> normal b mb eb ->
  SFcompare (S754_finite false ma ea) (S754_finite false mb eb) = Some (a ?= b).
Proof.
  intros Na Nb.
  pose proof (normal_range _ _ _ Na) as [Alo Ahi].
  pose proof (normal_range _ _ _ Nb) as [Blo Bhi].
  destruct Na as (Hma & Hea & _). destruct Nb as (Hmb & Heb & _).
  cbn [SFcompare]. f_equal.
  destruct (Z.compare_spec ea eb) as [Heq | Hlt | Hgt].
  - subst eb. change (Pos.compare_cont Eq ma mb) with (Z.compare (Zpos ma) (Zpos mb)).
    rewrite Hma, Hmb. symmetry. apply Zmult_compare_compat_r.
    apply Z.lt_gt. apply Z.pow_pos_nonneg; lia.
  - symmetry. apply Z.compare_lt_iff.
    assert (2 ^ (53 + ea) <= 2 ^ (52 + eb)) by (apply Z.pow_le_mono_r; lia). lia.
  - symmetry. apply Z.compare_gt_iff.
    assert (2 ^ (53 + eb) <= 2 ^ (52 + ea)) by (apply Z.pow_le_mono_r; lia). lia.
Qed.

Lemma Max_of_int (a b : Z) :
  0 <= a < 2 ^ 53 -> 0 <= b < 2 ^ 53 ->
  Max (of_int a) (of_int b) = of_int (Z.max a b).
Proof.
  intros Ha Hb.
  destruct (Z.eq_dec a 0) as [-> | Hna]; destruct (Z.eq_dec b 0) as [-> | Hnb].
  - reflexivity.
  - rewrite Z.max_r by lia. destruct (of_int_pos b) as (m & e & Hof & _); [lia|].
    rewrite Hof. reflexivity.
  - rewrite Z.max_l by lia. destruct (of_int_pos a) as (m & e & Hof & _); [lia|].
    rewrite Hof. reflexivity.
  - destruct (of_int_pos a) as (ma & ea & Hofa & Na); [lia|].
    destruct (of_int_pos b) as (mb & eb & Hofb & Nb); [lia|].
    rewrite Hofa, Hofb. unfold Max. cbn [is_pos_inf is_nan is_zero orb andb].
    unfold gt, SFltb. rewrite (compare_normal b a mb ma eb ea Nb Na).
    destruct (Z.compare_spec b a) as [Heq | Hlt | Hgt].
    + subst b. rewrite Z.max_id. symmetry. exact Hofb.
    + rewrite Z.max_l by lia. symmetry. exact Hofa.
    + rewrite Z.max_r by lia. symmetry. exact Hofb.
Qed.

Lemma round_nearest_even_cases (m : Z) (l : location) :
  round_nearest_even m l = m \/
  (round_nearest_even m l = m + 1 /\ (l = loc_Inexact Eq \/ l = loc_Inexact Gt)).
Proof.
  destruct l as [|[| |]]; cbn [round_nearest_even]; auto.
  destruct (Z.even m); auto.
Qed.

Lemma shr_1_loc (q : positive) (l : location) :
  (1 < q)%positive ->
  shr_1 (shr_record_of_loc (Zpos q) l) =
  {| shr_m := Zpos q / 2; shr_r := Z.odd (Zpos q);
     shr_s := match l with loc_Exact => false | _ => true end |}.
Proof.
  intros Hq.
  assert (Hdiv : forall p, Zpos p~0 / 2 = Zpos p /\ Zpos p~1 / 2 = Zpos p).
  { intros p. split.
    - rewrite Pos2Z.inj_xO, Z.mul_comm. apply Z.div_mul. lia.
    - rewrite Pos2Z.inj_xI. rewrite Z.mul_comm, Z.div_add_l by lia. reflexivity. }
  destruct q as [p|p|]; [| |lia]; destruct (Hdiv p) as [H0 H1];
    destruct l as [|[| |]]; cbn [shr_record_of_loc shr_1 orb];
    rewrite ?H0, ?H1; reflexivity.
Qed.

(** The second shift of [binary_round_aux], after rounding. *)
Lemma round_finish (s : bool) (m1 : Z) (e : Z) :
  2 ^ 52 <= m1 <= 2 ^ 53 -> -1074 <= e <= 900 ->
  exists m e',
    (let '(mrs, e2) := shr_fexp prec emax m1 e loc_Exact in
     match shr_m mrs with
     | Z0 => S754_zero s
     | Zpos m => if e2 <=? emax - prec then S754_finite s m e2 else S754_infinity s
     | Zneg _ => S754_nan
     end) = S754_finite s m e' /\
    e <= e' <= e + 1 /\ Zpos m * 2 ^ (e' - e) = m1.
Proof.
  intros Hm He.
  destruct m1 as [|p|p]; try lia.
  destruct (Z.eq_dec (Zpos p) (2 ^ 53)) as [Heq | Hne].
  - assert (Hp : p = 9007199254740992%positive) by (change (2 ^ 53) with 9007199254740992 in Heq; congruence).
    subst p. rewrite shr_fexp_one by (try reflexivity; lia).
    cbn [shr_record_of_loc shr_1 shr_m orb].
    exists 4503599627370496%positive, (e + 1).
    replace (e + 1 <=? emax - prec) with true
      by (symmetry; apply Z.leb_le; unfold emax, prec; lia).
    split; [reflexivity|]. split; [lia|].
    replace (e + 1 - e) with 1 by lia. reflexivity.
  - rewrite shr_fexp_keep by (try (apply digits2_unique; change (2 ^ (53 - 1)) with (2 ^ 52)); lia).
    cbn [shr_record_of_loc shr_m].
    exists p, e.
    replace (e <=? emax - prec) with true
      by (symmetry; apply Z.leb_le; unfold emax, prec; lia).
    split; [reflexivity|]. split; [lia|].
    replace (e - e) with 0 by lia. rewrite Z.pow_0_r. lia.
Qed.

(** Rounding a quotient [q] carrying 53 or 54 bits, at exponent [E]: the
    result, scaled back to exponent [E], is [q] or one of its neighbours,
    and lies below [q] only if [q] is odd. *)
Lemma binary_round_aux_quotient (q : positive) (E : Z) (l : location) :
  2 ^ 52 <= Zpos q < 2 ^ 54 -> -1074 <= E <= 800 ->
  exists m e,
    binary_round_aux prec emax false (Zpos q) E l = S754_finite false m e /\
    E <= e <= E + 2 /\
    Zpos q - 1 <= Zpos m * 2 ^ (e - E) <= Zpos q + 1 /\
    (Zpos m * 2 ^ (e - E) = Zpos q - 1 -> Z.odd (Zpos q) = true).
Proof.
  intros Hq HE. unfold binary_round_aux.
  destruct (Z_lt_ge_dec (Zpos q) (2 ^ 53)) as [Hlt | Hge].
  - (* 53 bits: no first shift *)
    rewrite shr_fexp_keep by (try (apply digits2_unique; change (2 ^ (53 - 1)) with (2 ^ 52)); lia).
    assert (Hm : shr_m (shr_record_of_loc (Zpos q) l) = Zpos q) by (destruct l as [|[| |]]; reflexivity).
    rewrite Hm.
    set (m1 := round_nearest_even (Zpos q) (loc_of_shr_record (shr_record_of_loc (Zpos q) l))).
    assert (Hm1 : m1 = Zpos q \/ m1 = Zpos q + 1).
    { subst m1. destruct (round_nearest_even_cases (Zpos q)
        (loc_of_shr_record (shr_record_of_loc (Zpos q) l))) as [H | [H _]]; auto. }
    destruct (round_finish false m1 E) as (m & e' & Hres & He' & Hval); [lia | lia |].
    exists m, e'. split; [exact Hres|]. split; [lia|]. rewrite Hval. split; [lia|]. lia.
  - (* 54 bits: one shift before rounding *)
    rewrite shr_fexp_one by (try (apply digits2_unique; change (2 ^ (54 - 1)) with (2 ^ 53)); lia).
    rewrite shr_1_loc by lia.
    cbn [shr_m].
    set (l' := loc_of_shr_record _).
    set (m1 := round_nearest_even (Zpos q / 2) l').
    assert (Hhalf : Zpos q = 2 * (Zpos q / 2) + (if Z.odd (Zpos q) then 1 else 0)).
    { rewrite (Z.div_mod (Zpos q) 2) at 1 by lia. f_equal. rewrite Zmod_odd. reflexivity. }
    assert (Hm1 : m1 = Zpos q / 2 \/ (m1 = Zpos q / 2 + 1 /\ Z.odd (Zpos q) = true)).
    { subst m1. destruct (round_nearest_even_cases (Zpos q / 2) l') as [H | [H Hl]]; auto.
      right. split; [exact H|]. subst l'. unfold loc_of_shr_record in Hl.
      destruct (Z.odd (Zpos q)); [reflexivity|].
      destruct l as [|[| |]]; destruct Hl; discriminate. }
    assert (Hrange : 2 ^ 52 <= Zpos q / 2 < 2 ^ 53).
    { change (2 ^ 53) with (2 * 2 ^ 52) in Hge. change (2 ^ 54) with (2 * 2 ^ 53) in Hq.
      destruct (Z.odd (Zpos q)); lia. }
    destruct (round_finish false m1 (E + 1)) as (m & e' & Hres & He' & Hval); [lia | lia |].
    exists m, e'. split; [exact Hres|]. split; [lia|].
    replace (e' - E) with (1 + (e' - (E + 1))) by lia.
    rewrite Z.pow_add_r by lia. change (2 ^ 1) with 2.
    replace (Zpos m * (2 * 2 ^ (e' - (E + 1)))) with (2 * (Zpos m * 2 ^ (e' - (E + 1)))) by lia.
    rewrite Hval.
    destruct Hm1 as [H | [H Hodd]].
    + rewrite H. destruct (Z.odd (Zpos q)) eqn:Ho; split; try lia; intros; reflexivity || lia.
    + rewrite H. rewrite Hodd in Hhalf. split; [lia|]. intros; exact Hodd.
Qed.

Lemma normal_digits (a : Z) (m : positive) (e : Z) :
  normal a m e -> Zpos (digits2_pos m) = 53.
Proof.
  intros (_ & _ & Hr). apply digits2_unique. change (2 ^ (53 - 1)) with (2 ^ 52). exact Hr.
Qed.

Lemma div_eucl_div_mod (a b : Z) : Z.div_eucl a b = (a / b, a mod b).
Proof. unfold Z.div, Z.modulo. destruct (Z.div_eucl a b). reflexivity. Qed.

Lemma SFdiv_core_normal (a b : Z) (ma mb : positive) (ea eb : Z) :
  normal a ma ea -> normal b mb eb ->
  SFdiv_core_binary prec emax (Zpos ma) ea (Zpos mb) eb =
  ((Zpos ma * 2 ^ 53) / Zpos mb, ea - eb - 53,
   new_location (Zpos mb) ((Zpos ma * 2 ^ 53) mod Zpos mb)).
Proof.
  intros Na Nb.
  pose proof (normal_digits _ _ _ Na) as Da. pose proof (normal_digits _ _ _ Nb) as Db.
  destruct Na as (_ & Hea & _). destruct Nb as (_ & Heb & _).
  unfold SFdiv_core_binary. cbn [Zdigits2]. rewrite Da, Db.
  assert (He : Z.min (fexp prec emax (53 + ea - (53 + eb))) (ea - eb) = ea - eb - 53).
  { unfold fexp, emin, prec, emax. lia. }
  rewrite He.
  replace (ea - eb - (ea - eb - 53)) with 53 by lia.
  cbv beta iota. rewrite Z.shiftl_mul_pow2 by lia.
  rewrite div_eucl_div_mod. reflexivity.
Qed.

Lemma trunc_scaled (m : positive) (e E : Z) :
  E <= e -> E <= 0 ->
  trunc false m e = (Zpos m * 2 ^ (e - E)) / 2 ^ (- E).
Proof.
  intros H1 H2. unfold trunc.
  assert (HN : 0 < 2 ^ (- E)) by (apply Z.pow_pos_nonneg; lia).
  destruct e as [|p|p].
  - replace (0 - E) with (- E) by lia. rewrite Z.div_mul by lia. reflexivity.
  - replace (Z.pos p - E) with (Z.pos p + - E) by lia.
    rewrite Z.pow_add_r by lia. rewrite Z.mul_assoc, Z.div_mul by lia. reflexivity.
  - assert (Hs : 2 ^ (- E) = 2 ^ (- Z.neg p) * 2 ^ (Z.neg p - E)).
    { rewrite <- Z.pow_add_r by lia. f_equal. lia. }
    rewrite Hs. symmetry. apply Z.div_mul_cancel_r; apply Z.pow_nonzero; lia.
Qed.

(** The float64 quotient of two integers below [2^53], converted back to an
    integer, is their integer quotient. *)
Lemma to_int64_div_of_int (s w : Z) :
  0 <= s < 2 ^ 53 -> 0 < w < 2 ^ 53 ->
  to_int64 (div (of_int s) (of_int w)) = s / w.
Proof.
  intros Hs Hw.
  destruct (of_int_pos w) as (mw & ew & Hofw & Nw); [lia|].
  destruct (Z.eq_dec s 0) as [-> | Hs0].
  { rewrite Hofw. reflexivity. }
  destruct (of_int_pos s) as (ms & es & Hofs & Ns); [lia|].
  rewrite Hofs, Hofw. unfold div. cbn [SFdiv].
  rewrite (SFdiv_core_normal s w ms mw es ew Ns Nw). cbn [xorb].
  pose proof (normal_range _ _ _ Ns) as [Slo Shi].
  pose proof (normal_range _ _ _ Nw) as [Wlo Whi].
  destruct Ns as (Hms & Hes & Rs). destruct Nw as (Hmw & Hew & Rw).
  set (E := es - ew - 53).
  set (N := 2 ^ (- E)).
  set (q := Zpos ms * 2 ^ 53 / Zpos mw).
  set (k := s / w).
  assert (HN : 0 < N) by (apply Z.pow_pos_nonneg; subst E; lia).
  assert (Hcw : 0 < 2 ^ (- ew)) by (apply Z.pow_pos_nonneg; lia).
  (* the quotient of the mantissas is the scaled integer quotient *)
  assert (Hq : q = (s * N) / w).
  { subst q. rewrite Hms, Hmw.
    replace (s * 2 ^ (- es) * 2 ^ 53) with (s * N * 2 ^ (- ew)).
    - apply Z.div_mul_cancel_r; lia.
    - subst N E. rewrite <- !Z.mul_assoc. f_equal.
      rewrite <- !Z.pow_add_r by lia. f_equal. lia. }
  assert (Hqr : 2 ^ 52 <= q < 2 ^ 54).
  { subst q. split.
    - apply Z.div_le_lower_bound; [lia|].
      change (2 ^ 53) with 9007199254740992 in *. change (2 ^ 52) with 4503599627370496 in *. lia.
    - apply Z.div_lt_upper_bound; [lia|].
      change (2 ^ 54) with 18014398509481984. change (2 ^ 53) with 9007199254740992 in *.
      change (2 ^ 52) with 4503599627370496 in *. lia. }
  destruct q as [|pq|pq] eqn:Eq; try lia.
  destruct (binary_round_aux_quotient pq E
              (new_location (Zpos mw) ((Zpos ms * 2 ^ 53) mod Zpos mw)))
    as (m & e & Hres & He & HV & Hodd); [lia | subst E; lia |].
  rewrite Hres. unfold to_int64.
  rewrite (trunc_scaled m e E) by (subst E; lia). fold N.
  set (V := Zpos m * 2 ^ (e - E)) in *.
  (* bounds on the scaled quotient *)
  assert (Hk : 0 <= k) by (subst k; apply Z.div_pos; lia).
  assert (Hdm : s = w * k + s mod w) by (subst k; apply Z.div_mod; lia).
  assert (Hr : 0 <= s mod w < w) by (apply Z.mod_pos_bound; lia).
  assert (HwN : w < N).
  { subst N E. assert (2 ^ (53 + ew) <= 2 ^ (- (es - ew - 53))) by (apply Z.pow_le_mono_r; lia). lia. }
  assert (Hlo : k * N <= Zpos pq).
  { rewrite Hq. apply Z.div_le_lower_bound; [lia|].
    assert (w * k * N <= s * N) by (apply Z.mul_le_mono_nonneg_r; lia). lia. }
  assert (Hhi : Zpos pq + 1 < (k + 1) * N).
  { assert (Zpos pq < (k + 1) * N - 1); [|lia].
    rewrite Hq. apply Z.div_lt_upper_bound; [lia|].
    assert (s mod w * N <= (w - 1) * N) by (apply Z.mul_le_mono_nonneg_r; lia).
    rewrite Hdm at 1. lia. }
  assert (Heven : Z.odd (k * N) = false).
  { subst N. replace (- E) with (1 + (- E - 1)) by lia.
    rewrite Z.pow_add_r by (subst E; lia). change (2 ^ 1) with 2.
    rewrite !Z.odd_mul. cbn [Z.odd]. rewrite andb_false_r. reflexivity. }
  assert (HVlo : k * N <= V).
  { destruct (Z.eq_dec V (Zpos pq - 1)) as [HVeq | HVne].
    - specialize (Hodd HVeq).
      assert (k * N <> Zpos pq) by (intros Hc; rewrite Hc in Heven; congruence). lia.
    - lia. }
  assert (HVk : V / N = k).
  { symmetry. apply (Z.div_unique V N k (V - N * k)); lia. }
  rewrite HVk.
  assert (k <= s).
  { subst k. apply Z.div_le_upper_bound; [lia|].
    assert (1 * s <= w * s) by (apply Z.mul_le_mono_nonneg_r; lia). lia. }
  replace ((- 2 ^ 63 <=? k) && (k <? 2 ^ 63)) with true; [reflexivity|].
  symmetry. apply andb_true_iff. split; [apply Z.leb_le | apply Z.ltb_lt]; lia.
Qed.

End Float64Facts.

(* ================================================================== *)
(** * The aggregation of runBenchmark *)

Module AggregateFacts.
Import GoNum Float64 Float64Facts Benchmark Spec.

Lemma uint32_idem (x : Z) : uint32 (uint32 x) = uint32 x.
Proof. unfold uint32. apply Z.mod_mod. lia. Qed.

Lemma uint32_add_l (x y : Z) : uint32 (uint32 x + y) = uint32 (x + y).
Proof. unfold uint32. apply Zplus_mod_idemp_l. Qed.

Lemma uint32_small (x : Z) : 0 <= x < 2 ^ 32 -> uint32 x = x.
Proof. intros H. unfold uint32. apply Z.mod_small. exact H. Qed.

Lemma int64_add_l (x y : Z) : int64 (int64 x + y) = int64 (x + y).
Proof.
  unfold int64. f_equal.
  replace ((x + 2 ^ 63) mod 2 ^ 64 - 2 ^ 63 + y + 2 ^ 63)
    with ((x + 2 ^ 63) mod 2 ^ 64 + y) by lia.
  rewrite Zplus_mod_idemp_l. f_equal. lia.
Qed.

Lemma int64_idem (x : Z) : int64 (int64 x) = int64 x.
Proof.
  replace (int64 x) with (int64 x + 0) at 1 by lia.
  rewrite int64_add_l. f_equal. lia.
Qed.

Lemma int64_small (x : Z) : - 2 ^ 63 <= x < 2 ^ 63 -> int64 x = x.
Proof. intros H. unfold int64. rewrite Z.mod_small; lia. Qed.

Lemma reduced_sums0 : reduced sums0.
Proof. repeat split. Qed.

Lemma reduced_accumulate (a : sums) (r : RunResponse) : reduced (accumulate a r).
Proof.
  unfold reduced, accumulate. cbn.
  repeat split; auto using uint32_idem, int64_idem.
Qed.

(** One turn of the loop, on durations a [float64] holds exactly. *)
Lemma accumulate_duration (a : sums) (r : RunResponse) :
  exact (s_duration a) -> exact (rs_Duration r) ->
  s_duration (accumulate a r) = Z.max (s_duration a) (rs_Duration r).
Proof.
  unfold exact. intros Ha Hr. cbn.
  rewrite Max_of_int by assumption.
  apply to_int64_of_int. lia.
Qed.

(** The loop over [resultCh] computes sums and a maximum. *)
Lemma fold_accumulate (rs : list RunResponse) :
  forall a, reduced a -> exact (s_duration a) ->
       (forall r, In r rs -> exact (rs_Duration r)) ->
       fold_left accumulate rs a = summed a rs.
Proof.
  induction rs as [| r rs IH]; intros a Hred Hd Hrs.
  - destruct Hred as (H1 & H2 & H3 & H4 & H5 & H6). destruct a. cbn in *.
    unfold summed, total. cbn. rewrite !Z.add_0_r. congruence.
  - cbn [fold_left]. rewrite IH.
    + unfold summed, total. cbn [map fold_right fold_left].
      rewrite accumulate_duration by auto using in_eq.
      cbn. rewrite !uint32_add_l, !int64_add_l, !Z.add_assoc. reflexivity.
    + apply reduced_accumulate.
    + rewrite accumulate_duration by auto using in_eq.
      unfold exact in *. specialize (Hrs r (in_eq _ _)). lia.
    + intros r' Hr'. apply Hrs. right. exact Hr'.
Qed.

Lemma total_perm (f : RunResponse -> Z) (rs rs' : list RunResponse) :
  Permutation rs rs' -> total f rs = total f rs'.
Proof.
  unfold total. induction 1; cbn; lia.
Qed.

Lemma fold_max_perm (l l' : list Z) :
  Permutation l l' -> forall a, fold_left Z.max l a = fold_left Z.max l' a.
Proof.
  induction 1; intros a; cbn.
  - reflexivity.
  - apply IHPermutation.
  - f_equal. lia.
  - rewrite IHPermutation1. apply IHPermutation2.
Qed.

Lemma summed_perm (a : sums) (rs rs' : list RunResponse) :
  Permutation rs rs' -> summed a rs = summed a rs'.
Proof.
  intros Hp. unfold summed.
  rewrite (fold_max_perm _ _ (Permutation_map rs_Duration Hp)).
  rewrite (total_perm Requests _ _ Hp), (total_perm Latency _ _ Hp),
    (total_perm Latency50 _ _ Hp), (total_perm Latency75 _ _ Hp),
    (total_perm Latency95 _ _ Hp), (total_perm Latency99 _ _ Hp).
  reflexivity.
Qed.

(** What a maximum folded from [a] is. *)
Lemma fold_max_spec (l : list Z) :
  forall a, let m := fold_left Z.max l a in
       a <= m /\ (forall x, In x l -> x <= m) /\ (m = a \/ In m l).
Proof.
  induction l as [| x l IH]; intros a; cbn.
  - split; [lia | split; [intros x [] | left; reflexivity]].
  - destruct (IH (Z.max a x)) as (H1 & H2 & H3). split; [| split].
    + lia.
    + intros y [<- | Hy]; [lia | auto].
    + destruct H3 as [H3 | H3]; [| right; right; exact H3].
      destruct (Z.max_spec a x) as [[_ Hm] | [_ Hm]].
      * right. left. congruence.
      * left. congruence.
Qed.

Lemma total_nonneg (f : RunResponse -> Z) (rs : list RunResponse) :
  (forall r, In r rs -> 0 <= f r) -> 0 <= total f rs.
Proof.
  unfold total. induction rs as [| r rs IH]; intros H; cbn; [lia|].
  specialize (H r (in_eq _ _)) as H0.
  assert (0 <= fold_right Z.add 0 (map f rs)) by (apply IH; intros; apply H; right; auto).
  lia.
Qed.

(** The map built by the four assignments of [runBenchmark]. *)
Lemma percentiles_four (v50 v75 v95 v99 : Z) :
  pct_set k99 v99 (pct_set k95 v95 (pct_set k75 v75 (pct_set k50 v50 []))) =
  [(k50, v50); (k75, v75); (k95, v95); (k99, v99)].
Proof. reflexivity. Qed.

(** A mean of the code on a sum below [2^53]: the quotient, rounded down. *)
Lemma mean_of_int64 (t n : Z) :
  0 <= t < 2 ^ 53 -> 0 < n < 2 ^ 53 -> mean_of (int64 (0 + t)) n = t / n.
Proof.
  intros Ht Hn. unfold mean_of. rewrite Z.add_0_l.
  rewrite int64_small by lia.
  apply to_int64_div_of_int; assumption.
Qed.

(** The order of the responses does not matter while each duration is
    held exactly by a [float64]. *)
Lemma aggregate_reorder (bench : string) (W : Z) (rs rs' : list RunResponse) :
  Permutation rs rs' ->
  (forall r, In r rs -> exact (rs_Duration r)) ->
  aggregate bench W rs = aggregate bench W rs'.
Proof.
  intros Hp Hd.
  assert (Hd' : forall r, In r rs' -> exact (rs_Duration r)).
  { intros r Hr. apply Hd. apply (Permutation_in r (Permutation_sym Hp) Hr). }
  unfold aggregate.
  rewrite !fold_accumulate;
    try apply reduced_sums0; try (unfold exact; cbn; lia); try assumption.
  rewrite (summed_perm sums0 rs rs' Hp). reflexivity.
Qed.

End AggregateFacts.

(* ================================================================== *)
(** * Join and Wait *)

Module ConsoleFacts.
Import ListUtil Console.

Lemma nth_error_last {A : Type} (h : list A) (c : A) :
  nth_error (h ++ [c]) (List.length h) = Some c.
Proof.
  rewrite nth_error_app2 by lia. rewrite Nat.sub_diag. reflexivity.
Qed.

Lemma set_nth_last {A : Type} (h : list A) (c x : A) :
  set_nth (List.length h) x (h ++ [c]) = h ++ [x].
Proof.
  induction h as [| a h IH]; cbn; [reflexivity | rewrite IH; reflexivity].
Qed.

Lemma find_last_snoc {A : Type} (p : A -> bool) (l : list A) (x : A) :
  find_last p (l ++ [x]) = if p x then Some x else find_last p l.
Proof.
  unfold find_last. rewrite rev_app_distr. reflexivity.
Qed.

Lemma find_last_cons {A : Type} (p : A -> bool) (x : A) (l : list A) :
  find_last p (x :: l) =
  match find_last p l with
  | Some y => Some y
  | None => if p x then Some x else None
  end.
Proof.
  unfold find_last. cbn [rev].
  induction (rev l) as [| y r IH]; cbn; [reflexivity|].
  destruct (p y); [reflexivity | exact IH].
Qed.

Section WithErrors.

Variable E : Type.

Lemma last_error_cons (e : error E) (es : list (error E)) :
  last_error (e :: es) =
  match last_error es with
  | Some y => Some y
  | None => e
  end.
Proof.
  unfold last_error. rewrite find_last_cons.
  match goal with
  | |- context [find_last ?p es] => destruct (find_last p es) as [[y|]|] eqn:Hf
  end.
  - reflexivity.
  - (* a found element satisfies the test *)
    unfold find_last in Hf. apply find_some in Hf. destruct Hf as [_ Hf]. discriminate.
  - destruct e; reflexivity.
Qed.

(** The loop of [Join], started with [err]: the last error of the
    results, or [err] when there is none. *)
Lemma Join_from_each (joiners : list (Joiner E)) :
  forall (err : error E) (h : store E),
    Join_from err joiners h =
    bind (join_each joiners)
         (fun es => ret (match last_error es with Some y => Some y | None => err end)) h.
Proof.
  induction joiners as [| j rest IH]; intros err h.
  - reflexivity.
  - cbn [Join_from join_each]. unfold bind, ret in *.
    destruct (Joiner_Join j h) as [[e h1]|]; [| reflexivity].
    destruct e as [y|]; rewrite IH;
      destruct (join_each rest h1) as [[es h2]|]; try reflexivity;
      rewrite last_error_cons; destruct (last_error es); reflexivity.
Qed.

Lemma Wait_from_each (waiters : list (Waiter E)) :
  forall (err : error E) (h : store E),
    Wait_from err waiters h =
    bind (wait_each waiters)
         (fun es => ret (match last_error es with Some y => Some y | None => err end)) h.
Proof.
  induction waiters as [| j rest IH]; intros err h.
  - reflexivity.
  - cbn [Wait_from wait_each]. unfold bind, ret in *.
    destruct (Waiter_Wait j h) as [[e h1]|]; [| reflexivity].
    destruct e as [y|]; rewrite IH;
      destruct (wait_each rest h1) as [[es h2]|]; try reflexivity;
      rewrite last_error_cons; destruct (last_error es); reflexivity.
Qed.

(** A receive on the channel made last. *)
Lemma recv_last (h : store E) (c : chan E) :
  recv (List.length h) (h ++ [c]) =
  match buf c with
  | v :: rest => Some (v, h ++ [{| cap := cap c; buf := rest; closed := closed c |}])
  | [] => if closed c then Some (None, h ++ [c]) else None
  end.
Proof.
  unfold recv. rewrite nth_error_last. destruct (buf c); [reflexivity|].
  rewrite set_nth_last. reflexivity.
Qed.

(** The goroutine of the channel made last, finishing with [r]. *)
Lemma goroutine_last (h : store E) (r : error E) :
  goroutine (List.length h) r (h ++ [{| cap := 1; buf := []; closed := false |}]) =
  Some (tt, h ++ [{| cap := 1; buf := match r with Some _ => [r] | None => [] end;
                     closed := true |}]).
Proof.
  destruct r as [e|]; unfold goroutine, bind, send, close;
    rewrite ?nth_error_last; cbn; rewrite ?set_nth_last, ?nth_error_last; cbn;
    rewrite ?set_nth_last; reflexivity.
Qed.

(** A task forked, finished and joined twice, from any store. *)
Lemma fork_join_twice_eq (r : error E) (h : store E) :
  fork_join_twice r h = Some ((r, None), h ++ [drained]).
Proof.
  unfold fork_join_twice, Fork, make_chan, bind at 1 2, ret at 1.
  unfold bind at 1. cbn [snd fst]. rewrite goroutine_last.
  unfold newChannelJoiner, channelJoiner_Join. cbn [Joiner_Join cj_ch].
  unfold bind, ret. rewrite recv_last. cbn [buf closed cap].
  destruct r as [e|]; rewrite ?recv_last; reflexivity.
Qed.

Lemma run_wait_twice_eq (r : error E) (h : store E) :
  run_wait_twice r h = Some ((r, None), h ++ [drained]).
Proof.
  unfold run_wait_twice, Run, make_chan, bind at 1 2, ret at 1.
  unfold bind at 1. cbn [snd fst]. rewrite goroutine_last.
  unfold newChannelWaiter, channelWaiter_Wait. cbn [Waiter_Wait cw_ch].
  unfold bind, ret. rewrite recv_last. cbn [buf closed cap].
  destruct r as [e|]; rewrite ?recv_last; reflexivity.
Qed.

Lemma nth_error_mid (h : store E) (c : chan E) (t : store E) :
  nth_error (h ++ c :: t) (List.length h) = Some c.
Proof.
  rewrite nth_error_app2 by lia. rewrite Nat.sub_diag. reflexivity.
Qed.

Lemma set_nth_mid (h : store E) (c x : chan E) (t : store E) :
  set_nth (List.length h) x (h ++ c :: t) = h ++ x :: t.
Proof.
  induction h as [| a h IH]; cbn; [reflexivity | rewrite IH; reflexivity].
Qed.

Lemma goroutine_mid (h t : store E) (r : error E) :
  goroutine (List.length h) r (h ++ fresh :: t) = Some (tt, h ++ finished r :: t).
Proof.
  destruct r as [e|]; unfold goroutine, bind, send, close, fresh, finished;
    rewrite ?nth_error_mid; cbn; rewrite ?set_nth_mid, ?nth_error_mid; cbn;
    rewrite ?set_nth_mid; reflexivity.
Qed.

Lemma recv_mid (h t : store E) (r : error E) :
  recv (List.length h) (h ++ finished r :: t) = Some (r, h ++ drained :: t).
Proof.
  unfold recv. rewrite nth_error_mid.
  destruct r as [e|]; cbn; [rewrite set_nth_mid|]; reflexivity.
Qed.

Lemma snoc_cons {A : Type} (h : list A) (x : A) (t : list A) :
  h ++ x :: t = (h ++ [x]) ++ t.
Proof. rewrite <- app_assoc. reflexivity. Qed.

Lemma length_snoc {A : Type} (h : list A) (x : A) :
  List.length (h ++ [x]) = S (List.length h).
Proof. rewrite length_app. cbn. lia. Qed.

(** [Fork_all]: the channels are made one after the other. *)
Lemma Fork_all_eq (n : nat) :
  forall h : store E,
    Fork_all n h =
    Some (map (fun ch => (newChannelJoiner ch, ch)) (seq (List.length h) n),
          h ++ repeat fresh n).
Proof.
  induction n as [| n IH]; intros h.
  - cbn. rewrite app_nil_r. reflexivity.
  - cbn [Fork_all]. unfold bind at 1. unfold Fork, make_chan, bind at 1, ret at 1.
    unfold bind at 1. rewrite IH. unfold ret.
    rewrite length_snoc. cbn [seq map repeat].
    rewrite <- app_assoc. reflexivity.
Qed.

(** Every goroutine finishes with its result. *)
Lemma finish_all_eq (rs : list (error E)) :
  forall h t : store E,
    finish_all (seq (List.length h) (List.length rs)) rs
               (h ++ repeat fresh (List.length rs) ++ t) =
    Some (tt, h ++ map finished rs ++ t).
Proof.
  induction rs as [| r rs IH]; intros h t.
  - reflexivity.
  - cbn [List.length seq finish_all repeat map app]. unfold bind.
    rewrite goroutine_mid.
    rewrite (snoc_cons h (finished r)), <- length_snoc with (x := finished r).
    rewrite IH. rewrite <- snoc_cons. reflexivity.
Qed.

(** Every task joined on its own returns the task's result. *)
Lemma join_each_eq (rs : list (error E)) :
  forall h t : store E,
    join_each (map newChannelJoiner (seq (List.length h) (List.length rs)))
              (h ++ map finished rs ++ t) =
    Some (rs, h ++ repeat drained (List.length rs) ++ t).
Proof.
  induction rs as [| r rs IH]; intros h t.
  - reflexivity.
  - cbn [List.length seq map join_each repeat app].
    unfold bind at 1. unfold newChannelJoiner at 1, channelJoiner_Join.
    cbn [Joiner_Join cj_ch]. rewrite recv_mid.
    unfold bind at 1.
    rewrite (snoc_cons h drained), <- length_snoc with (x := drained).
    rewrite IH. unfold ret. rewrite <- snoc_cons. reflexivity.
Qed.

End WithErrors.

End ConsoleFacts.

(* ================================================================== *)
(** * Options and Status *)

Module ContextFacts.
Import GoNum ConsoleContext ContextSpec.
Local Open Scope string_scope.

Lemma last_cons_default {A : Type} (x : A) (l : list A) (a b : A) :
  last (x :: l) a = last (x :: l) b.
Proof.
  revert x. induction l as [| y l IH]; intros x; [reflexivity|].
  change (last (y :: l) a = last (y :: l) b). apply IH.
Qed.

Lemma last_app_cons {A : Type} (l : list A) (x : A) (t : list A) (d : A) :
  last (l ++ x :: t) d = last (x :: t) d.
Proof.
  induction l as [| a l IH]; [reflexivity|].
  destruct l as [| b l]; [reflexivity | exact IH].
Qed.

Lemma options_fold (gs : list given) :
  forall o : Options,
    RefreshRate (fold_left (fun options opt => opt options) (map option_of gs) o) =
      last (rates gs) (RefreshRate o) /\
    Verbose (fold_left (fun options opt => opt options) (map option_of gs) o) =
      (verbose_given gs || Verbose o)%bool.
Proof.
  induction gs as [| g gs IH]; intros o.
  - split; reflexivity.
  - cbn [map fold_left]. destruct (IH (option_of g o)) as [H1 H2].
    rewrite H1, H2. destruct g as [d|]; cbn [option_of rates flat_map verbose_given existsb app].
    + cbn [WithRefreshRate RefreshRate Verbose]. split; [| reflexivity].
      fold (rates gs). destruct (rates gs) as [| z l]; [reflexivity|].
      change (last (d :: z :: l) (RefreshRate o)) with (last (z :: l) (RefreshRate o)).
      apply last_cons_default.
    + cbn [WithVerbose RefreshRate Verbose]. split; [reflexivity|].
      fold (verbose_given gs). rewrite orb_true_r. reflexivity.
Qed.

Lemma descendant_options (n : nat) (c : Context) :
  options (descendant n c) = options c.
Proof. induction n as [| n IH]; cbn; auto. Qed.

Lemma append_nil_r (s : string) : s ++ "" = s.
Proof. induction s as [| c s IH]; cbn; [reflexivity | rewrite IH; reflexivity]. Qed.

Lemma append_assoc' (a b c : string) : (a ++ b) ++ c = a ++ (b ++ c).
Proof. induction a as [| x a IH]; cbn; [reflexivity | rewrite IH; reflexivity]. Qed.

Lemma last_byte_snoc (s : string) (c : Ascii.ascii) :
  last_byte (s ++ String c "") = Some c.
Proof.
  induction s as [| x s IH]; cbn; [reflexivity|].
  rewrite IH. destruct (s ++ String c "") eqn:Hs; [| reflexivity].
  destruct s; discriminate.
Qed.

Lemma last_byte_terminated (m : string) : last_byte (terminated m) = Some newline.
Proof.
  unfold terminated. destruct (last_byte m) as [c|] eqn:Hl.
  - destruct (Ascii.eqb_spec c newline) as [-> | Hne]; [exact Hl | apply last_byte_snoc].
  - apply last_byte_snoc.
Qed.

Lemma terminated_idem (m : string) : terminated (terminated m) = terminated m.
Proof.
  unfold terminated at 1. rewrite last_byte_terminated, Ascii.eqb_refl. reflexivity.
Qed.

Lemma logs_mute (msgs : list string) (buf : string) (ups : list string) :
  logs msgs (mute buf ups) = mute buf ups.
Proof. induction msgs as [| m msgs IH]; cbn; auto. Qed.

Lemma logs_loud (msgs : list string) :
  forall (buf : string) (ups : list string),
    exists ups',
      logs msgs (loud buf ups) = loud (buf ++ joined (map terminated msgs)) (ups ++ ups') /\
      List.length ups' = List.length msgs /\
      (msgs <> [] -> last ups' "" = buf ++ joined (map terminated msgs)).
Proof.
  induction msgs as [| m msgs IH]; intros buf ups.
  - exists []. cbn. rewrite append_nil_r, app_nil_r. repeat split. congruence.
  - unfold logs. cbn [fold_left]. unfold log at 2. cbn [verbose loud Write snd writer_buf updates].
    fold (loud (buf ++ terminated m) (ups ++ [buf ++ terminated m])).
    fold (logs msgs (loud (buf ++ terminated m) (ups ++ [buf ++ terminated m]))).
    destruct (IH (buf ++ terminated m) (ups ++ [(buf ++ terminated m)%string])%list)
      as (ups' & H1 & H2 & H3).
    exists ((buf ++ terminated m)%string :: ups')%list. rewrite H1.
    cbn [map joined fold_right]. fold (joined (map terminated msgs)).
    rewrite append_assoc', <- app_assoc. cbn [app List.length].
    split; [reflexivity|]. split; [lia|]. intros _.
    destruct msgs as [| m' msgs'].
    + destruct ups'; [| discriminate]. cbn. rewrite append_nil_r. reflexivity.
    + specialize (H3 ltac:(discriminate)).
      destruct ups' as [| u ups'']; [discriminate|].
      cbn [last] in *. rewrite H3. cbn [map joined fold_right].
      rewrite append_assoc'. reflexivity.
Qed.

End ContextFacts.

(* ================================================================== *)
(** * The fan-out of setupWorkers and setupBenchmark *)

Module SetupFacts.
Import ListUtil GoNum Benchmark Spec.

(** What holds at the start and is kept by every step holds after every
    schedule. *)
Lemma run_schedule_invariant {C : Type} (step : nat -> C -> option C) (P : C -> Prop) :
  (forall tid c c', P c -> step tid c = Some c' -> P c') ->
  forall schedule c, P c -> P (run_schedule step schedule c).
Proof.
  intros Hstep schedule. unfold run_schedule.
  induction schedule as [| tid rest IH]; intros c Hc; cbn [fold_left].
  - exact Hc.
  - apply IH. destruct (step tid c) as [c'|] eqn:Hs; [eapply Hstep; eauto | exact Hc].
Qed.

Lemma length_set_nth {A : Type} (i : nat) (x : A) (l : list A) :
  List.length (set_nth i x l) = List.length l.
Proof.
  revert i. induction l as [| a l IH]; intros [| i]; cbn; auto.
Qed.

Lemma Forall_set_nth {A : Type} (P : A -> Prop) (i : nat) (x : A) (l : list A) :
  Forall P l -> P x -> Forall P (set_nth i x l).
Proof.
  intros Hl Hx. revert i. induction Hl as [| a l Ha Hl IH]; intros [| i]; cbn; auto.
Qed.

Lemma nth_error_Forall {A : Type} (P : A -> Prop) (i : nat) (x : A) (l : list A) :
  Forall P l -> nth_error l i = Some x -> P x.
Proof.
  intros Hl Hn. apply nth_error_In in Hn. rewrite Forall_forall in Hl. auto.
Qed.

(** *** The function never returns an error *)


Lemma returns_nil_step (calls : list error) (tid : nat) (c c' : sconf) :
  returns_nil c -> sstep calls tid c = Some c' -> returns_nil c'.
Proof.
  unfold returns_nil, sstep. intros Hc Hs.
  destruct (sc_panic c); [discriminate|].
  destruct tid as [| i].
  - unfold smain_step in Hs. destruct (sc_main c) eqn:Hm.
    + destruct (Nat.ltb k (List.length calls)); inversion Hs; subst; cbn; exact I.
    + destruct (sc_wg c =? 0); inversion Hs; subst; cbn; exact I.
    + destruct (sc_closed c); inversion Hs; subst; cbn; auto.
    + destruct (sc_closed c); inversion Hs; subst; cbn; reflexivity.
    + discriminate.
  - unfold sgo_step in Hs.
    destruct (nth_error (sc_go c) i) as [g|]; [| discriminate].
    destruct g.
    + destruct (nth_error calls i); inversion Hs; subst; cbn; exact Hc.
    + destruct (sc_err c); inversion Hs; subst; cbn; exact Hc.
    + inversion Hs; subst; cbn; exact Hc.
    + destruct (sc_closed c) eqn:Hcl.
      * inversion Hs; subst; cbn. destruct (sc_main c); auto.
      * destruct (sc_main c); discriminate.
    + inversion Hs; subst; cbn; exact Hc.
    + discriminate.
Qed.

Lemma setup_fanout_nil (calls : list error) (schedule : list nat) (e : error) :
  setup_fanout calls schedule = Ret e -> e = None.
Proof.
  unfold setup_fanout, sresult. intros H.
  assert (Hinv : returns_nil (run_schedule (sstep calls) schedule sinit)).
  { apply run_schedule_invariant with (P := returns_nil).
    - intros tid c c'. apply returns_nil_step.
    - exact I. }
  unfold returns_nil in Hinv.
  destruct (sc_panic _); [discriminate|].
  destruct (sc_main _); try discriminate. inversion H. congruence.
Qed.

(** *** When every call fails, the function never returns *)


Lemma stuck_init (calls : list error) : stuck calls sinit.
Proof.
  constructor; cbn; auto.
  left. exists 0%nat. repeat split. lia.
Qed.

Lemma stuck_step (calls : list error) (tid : nat) (c c' : sconf) :
  calls <> [] -> (forall r, In r calls -> r <> None) ->
  stuck calls c -> sstep calls tid c = Some c' -> stuck calls c'.
Proof.
  intros Hne Hfail [Hp Ho Hwg Hm Hgo Herr] Hs.
  unfold sstep in Hs. rewrite Hp in Hs.
  destruct tid as [| i].
  - (* the function's own thread *)
    unfold smain_step in Hs.
    destruct Hm as [(k & Hk & Hlen & Hle) | [Hw Hlen]].
    + rewrite Hk in Hs. subst k.
      destruct (Nat.ltb_spec (List.length (sc_go c)) (List.length calls)) as [Hlt | Hge];
        inversion Hs; subst c'; clear Hs; constructor; cbn; auto.
      * rewrite length_app, Hwg. cbn. lia.
      * left. exists (S (List.length (sc_go c))). rewrite length_app. cbn.
        repeat split; lia.
      * apply Forall_app. split; [exact Hgo | constructor; [exact I | constructor]].
      * intros He. apply Forall_app. split; [auto | constructor; [exact I | constructor]].
      * right. split; [reflexivity | lia].
    + rewrite Hw in Hs.
      assert (Hpos : List.length calls <> 0%nat) by (destruct calls; [congruence | discriminate]).
      destruct (Z.eqb_spec (sc_wg c) 0) as [Hz | Hnz]; [lia | discriminate].
  - (* the goroutine of worker [i] *)
    unfold sgo_step in Hs.
    destruct (nth_error (sc_go c) i) as [g|] eqn:Hg; [| discriminate].
    pose proof (nth_error_Forall _ _ _ _ Hgo Hg) as Hbefore.
    destruct g; cbn in Hbefore; try contradiction.
    + (* the call returns, with an error *)
      destruct (nth_error calls i) as [r|] eqn:Hr; [| discriminate].
      assert (Hrn : r <> None) by (apply Hfail; eapply nth_error_In; eauto).
      inversion Hs; subst c'; clear Hs; constructor; cbn; auto.
      * rewrite length_set_nth. exact Hwg.
      * rewrite length_set_nth. exact Hm.
      * apply Forall_set_nth; [exact Hgo | exact I].
      * intros He. congruence.
    + (* the test succeeds: [err] is not nil *)
      destruct (sc_err c) as [e|] eqn:He.
      * inversion Hs; subst c'; clear Hs; constructor; cbn; auto.
        -- rewrite length_set_nth. exact Hwg.
        -- rewrite length_set_nth. exact Hm.
        -- apply Forall_set_nth; [exact Hgo | exact I].
        -- rewrite He. discriminate.
      * exfalso. specialize (Herr eq_refl).
        apply (nth_error_Forall _ _ _ _ Herr Hg).
    + inversion Hs; subst c'; clear Hs; constructor; cbn; auto.
      * rewrite length_set_nth. exact Hwg.
      * rewrite length_set_nth. exact Hm.
      * apply Forall_set_nth; [exact Hgo | exact I].
      * intros He. specialize (Herr He). exfalso.
        apply (nth_error_Forall _ _ _ _ Herr Hg).
    + (* the send finds no receiver *)
      rewrite Ho in Hs.
      destruct Hm as [(k & Hk & _) | [Hw _]]; [rewrite Hk in Hs | rewrite Hw in Hs];
        discriminate.
Qed.

(** The deadlock: every goroutine waits in its send for a receiver, and
    the function waits in [wg.Wait()] for the goroutines. *)
Lemma setup_fanout_deadlock (calls : list error) (schedule : list nat) :
  calls <> [] -> (forall r, In r calls -> r <> None) ->
  setup_fanout calls schedule = Pending.
Proof.
  intros Hne Hfail. unfold setup_fanout, sresult.
  assert (Hinv : stuck calls (run_schedule (sstep calls) schedule sinit)).
  { apply run_schedule_invariant with (P := stuck calls).
    - intros tid c c'. apply stuck_step; assumption.
    - apply stuck_init. }
  destruct Hinv as [Hp _ _ Hm _ _]. rewrite Hp.
  destruct Hm as [(k & Hk & _) | [Hw _]]; [rewrite Hk | rewrite Hw]; reflexivity.
Qed.

(** *** When every call succeeds, the function returns [nil] *)

Lemma count_app {A : Type} (p : A -> bool) (l : list A) (x : A) :
  List.length (filter p (l ++ [x])) =
  (List.length (filter p l) + (if p x then 1 else 0))%nat.
Proof. rewrite filter_app, length_app. cbn. destruct (p x); reflexivity. Qed.

Lemma count_set_nth {A : Type} (p : A -> bool) (i : nat) (g g' : A) (l : list A) :
  nth_error l i = Some g ->
  (List.length (filter p (set_nth i g' l)) + (if p g then 1 else 0) =
   List.length (filter p l) + (if p g' then 1 else 0))%nat.
Proof.
  revert i. induction l as [| a l IH]; intros [| i] Hn; cbn in *; try discriminate.
  - inversion Hn; subst. destruct (p g), (p g'); cbn; lia.
  - specialize (IH i Hn). destruct (p a); cbn; lia.
Qed.

Lemma count_zero {A : Type} (p : A -> bool) (l : list A) :
  List.length (filter p l) = 0%nat -> Forall (fun g => p g = false) l.
Proof.
  induction l as [| a l IH]; cbn; intros H; [constructor|].
  destruct (p a) eqn:Ha; cbn in H; [discriminate|]. constructor; auto.
Qed.

Lemma count_pos {A : Type} (p : A -> bool) (l : list A) :
  (0 < List.length (filter p l))%nat -> exists i g, nth_error l i = Some g /\ p g = true.
Proof.
  induction l as [| a l IH]; cbn; intros H; [lia|].
  destruct (p a) eqn:Ha.
  - exists 0%nat, a. split; [reflexivity | exact Ha].
  - destruct (IH H) as (i & g & Hi & Hg). exists (S i), g. split; assumption.
Qed.

Lemma sum_set_nth {A : Type} (f : A -> nat) (i : nat) (g g' : A) (l : list A) :
  nth_error l i = Some g ->
  (list_sum (map f (set_nth i g' l)) + f g = list_sum (map f l) + f g')%nat.
Proof.
  unfold list_sum.
  revert i. induction l as [| a l IH]; intros [| i] Hn; cbn in *; try discriminate.
  - inversion Hn; subst. lia.
  - specialize (IH i Hn). lia.
Qed.

Lemma nth_error_set_nth_cases {A : Type} (i j : nat) (x g : A) (l : list A) :
  nth_error (set_nth i x l) j = Some g ->
  (j = i /\ g = x) \/ (j <> i /\ nth_error l j = Some g).
Proof.
  revert i j. induction l as [| a l IH]; intros [| i] [| j] H; cbn in *;
    try discriminate.
  - left. split; congruence.
  - right. split; [lia | exact H].
  - right. split; [lia | exact H].
  - destruct (IH i j H) as [[-> ->] | [Hne Hj]]; [left | right]; split; auto.
Qed.

Ltac ssimpl :=
  cbn [sc_err sc_go sc_wg sc_closed sc_main sc_panic sset_go sset_main] in *.

Lemma calm_init (calls : list error) : calm calls sinit.
Proof.
  constructor; cbn; auto. split; [reflexivity | lia].
Qed.

Lemma calm_active (calls : list error) (c : sconf) (i : nat) (g : sgo) :
  calm calls c -> nth_error (sc_go c) i = Some g -> g <> SgExit ->
  (sc_main c = SmWait \/ exists k, sc_main c = SmLoop k) /\ (1 <= sactive (sc_go c))%nat.
Proof.
  intros [Hp He Hwg Hlen Hgo Hcl Hover] Hn Hg. split.
  - destruct (sc_main c); eauto; exfalso; apply Hg;
      exact (nth_error_Forall _ _ _ _ Hover Hn).
  - unfold sactive.
    pose proof (count_set_nth (fun g => negb (sexited g)) i g SgExit (sc_go c) Hn) as H.
    destruct g; cbn in H; try lia. congruence.
Qed.

Lemma calm_step (calls : list error) (tid : nat) (c c' : sconf) :
  (forall r, In r calls -> r = None) ->
  calm calls c -> sstep calls tid c = Some c' -> calm calls c'.
Proof.
  intros Hok Hinv Hs. destruct Hinv as [Hp He Hwg Hlen Hgo Hcl Hover].
  unfold sstep in Hs. rewrite Hp in Hs. destruct tid as [| i].
  - unfold smain_step in Hs.
    destruct (sc_main c) as [k | | | | e] eqn:Hm.
    + destruct (Nat.ltb_spec k (List.length calls)) as [Hlt | Hge];
        inversion Hs; subst c'; clear Hs; constructor; ssimpl; auto.
      * unfold sactive. rewrite count_app. cbn. rewrite Hwg. unfold sactive. lia.
      * rewrite length_app. cbn. lia.
      * apply Forall_app. split; [exact Hgo | constructor; [exact I | constructor]].
      * lia.
    + destruct (Z.eqb_spec (sc_wg c) 0) as [Hz | Hnz]; inversion Hs; subst c'; clear Hs.
      constructor; ssimpl; auto.
      assert (H0 : sactive (sc_go c) = 0%nat) by lia.
      apply count_zero in H0. apply Forall_impl with (2 := H0).
      intros g Hg. destruct g; cbn in Hg; try discriminate. reflexivity.
    + rewrite Hcl in Hs. inversion Hs; subst c'; clear Hs. constructor; ssimpl; auto.
    + rewrite Hcl in Hs. inversion Hs; subst c'; clear Hs. constructor; ssimpl; auto.
    + discriminate.
  - assert (Hinv : calm calls c) by (constructor; assumption).
    unfold sgo_step in Hs.
    destruct (nth_error (sc_go c) i) as [g|] eqn:Hn; [| discriminate].
    pose proof (fun g => calm_active calls c i g Hinv) as Hact.
    pose proof (nth_error_Forall _ _ _ _ Hgo Hn) as Hq.
    assert (Hmain : g <> SgExit ->
              forall g', match sc_main c with
                         | SmLoop _ | SmWait => True
                         | _ => Forall (fun g => g = SgExit) (set_nth i g' (sc_go c))
                         end).
    { intros Hg g'. destruct (Hact g Hn Hg) as [[-> | [k ->]] _]; exact I. }
    assert (Hcount : forall g', sexited g' = sexited g ->
              sactive (set_nth i g' (sc_go c)) = sactive (sc_go c)).
    { intros g' Hg'. unfold sactive.
      pose proof (count_set_nth (fun g => negb (sexited g)) i g g' (sc_go c) Hn) as H.
      cbn in H. rewrite Hg' in H. lia. }
    destruct g; cbn in Hq; try contradiction.
    + destruct (nth_error calls i) as [r|] eqn:Hr; [| discriminate].
      assert (Hnone : r = None) by (apply Hok; eapply nth_error_In; eauto). subst r.
      inversion Hs; subst c'; clear Hs. constructor; ssimpl; auto.
      * rewrite Hcount by reflexivity. exact Hwg.
      * rewrite length_set_nth. exact Hlen.
      * apply Forall_set_nth; [exact Hgo | exact I].
      * apply Hmain. discriminate.
    + rewrite He in Hs. inversion Hs; subst c'; clear Hs. constructor; ssimpl; auto.
      * rewrite Hcount by reflexivity. exact Hwg.
      * rewrite length_set_nth. exact Hlen.
      * apply Forall_set_nth; [exact Hgo | exact I].
      * apply Hmain. discriminate.
    + inversion Hs; subst c'; clear Hs.
      destruct (Hact SgDone Hn ltac:(discriminate)) as [_ Hpos].
      assert (Hex : S (sactive (set_nth i SgExit (sc_go c))) = sactive (sc_go c)).
      { unfold sactive.
        pose proof (count_set_nth (fun g => negb (sexited g)) i SgDone SgExit (sc_go c) Hn)
          as H. cbn in H. lia. }
      constructor; ssimpl; auto.
      * apply Z.ltb_ge. lia.
      * lia.
      * rewrite length_set_nth. exact Hlen.
      * apply Forall_set_nth; [exact Hgo | exact I].
      * apply Hmain. discriminate.
    + discriminate.
Qed.

Lemma calm_reached (calls : list error) (schedule : list nat) :
  (forall r, In r calls -> r = None) -> calm calls (setup_fanout_conf calls schedule).
Proof.
  intros Hok. unfold setup_fanout_conf.
  apply run_schedule_invariant with (P := calm calls).
  - intros tid c c'. apply calm_step. exact Hok.
  - apply calm_init.
Qed.

(** In a configuration that is not final, some thread can make a step. *)
Lemma calm_progress (calls : list error) (c : sconf) :
  calm calls c -> sresult c = Pending -> exists tid c', sstep calls tid c = Some c'.
Proof.
  intros [Hp He Hwg Hlen Hgo Hcl Hover] Hpend.
  unfold sresult in Hpend. unfold sstep. rewrite Hp in *.
  destruct (sc_main c) as [k | | | | e] eqn:Hm.
  - exists 0%nat. unfold smain_step. rewrite Hm.
    destruct (Nat.ltb k (List.length calls)); eauto.
  - destruct (Z.eqb_spec (sc_wg c) 0) as [Hz | Hnz].
    + exists 0%nat. unfold smain_step. rewrite Hm.
      apply Z.eqb_eq in Hz. rewrite Hz. eauto.
    + destruct (count_pos (fun g => negb (sexited g)) (sc_go c)) as (i & g & Hn & Hg).
      { unfold sactive in Hwg. lia. }
      exists (S i). unfold sgo_step. rewrite Hn.
      assert (Hi : (i < List.length calls)%nat)
        by (rewrite <- Hlen; apply nth_error_Some; congruence).
      pose proof (nth_error_Forall _ _ _ _ Hgo Hn) as Hq.
      destruct g; cbn in Hq, Hg; try contradiction; try discriminate.
      * destruct (nth_error calls i) eqn:Hr; eauto.
        apply nth_error_None in Hr. lia.
      * rewrite He. eauto.
      * eauto.
  - exists 0%nat. unfold smain_step. rewrite Hm. rewrite Hcl. eauto.
  - exists 0%nat. unfold smain_step. rewrite Hm. rewrite Hcl. eauto.
  - discriminate.
Qed.

Lemma smeasure_step (calls : list error) (tid : nat) (c c' : sconf) :
  calm calls c -> sstep calls tid c = Some c' ->
  (smeasure calls c' < smeasure calls c)%nat.
Proof.
  intros [Hp He Hwg Hlen Hgo Hcl Hover] Hs.
  unfold sstep in Hs. rewrite Hp in Hs. unfold smeasure. destruct tid as [| i].
  - unfold smain_step in Hs.
    destruct (sc_main c) as [k | | | | e] eqn:Hm.
    + destruct (Nat.ltb_spec k (List.length calls)) as [Hlt | Hge];
        inversion Hs; subst c'; clear Hs; ssimpl; cbn [smain_rank].
      * rewrite map_app, list_sum_app, length_app. cbn. lia.
      * lia.
    + destruct (sc_wg c =? 0); inversion Hs; subst c'; clear Hs; ssimpl;
        cbn [smain_rank]; lia.
    + rewrite Hcl in Hs. inversion Hs; subst c'; clear Hs; ssimpl; cbn [smain_rank]. lia.
    + rewrite Hcl in Hs. inversion Hs; subst c'; clear Hs; ssimpl; cbn [smain_rank]. lia.
    + discriminate.
  - unfold sgo_step in Hs.
    destruct (nth_error (sc_go c) i) as [g|] eqn:Hn; [| discriminate].
    pose proof (nth_error_Forall _ _ _ _ Hgo Hn) as Hq.
    assert (Hrank : forall g', (sgo_rank g' < sgo_rank g)%nat ->
               (smain_rank (sc_main c) + list_sum (map sgo_rank (set_nth i g' (sc_go c)))
                + 4 * (List.length calls - List.length (set_nth i g' (sc_go c)))
                < smain_rank (sc_main c) + list_sum (map sgo_rank (sc_go c))
                  + 4 * (List.length calls - List.length (sc_go c)))%nat).
    { intros g' Hg'. rewrite length_set_nth.
      pose proof (sum_set_nth sgo_rank i g g' (sc_go c) Hn). lia. }
    destruct g; cbn in Hq; try contradiction.
    + destruct (nth_error calls i); inversion Hs; subst c'; clear Hs; ssimpl.
      apply Hrank. cbn. lia.
    + rewrite He in Hs. inversion Hs; subst c'; clear Hs; ssimpl. apply Hrank. cbn. lia.
    + inversion Hs; subst c'; clear Hs; ssimpl. apply Hrank. cbn. lia.
    + discriminate.
Qed.

Lemma run_schedule_step {C : Type} (step : nat -> C -> option C) (tid : nat)
      (s : list nat) (c : C) :
  run_schedule step (tid :: s) c =
  run_schedule step s (match step tid c with Some c' => c' | None => c end).
Proof. reflexivity. Qed.

Lemma calm_steps_bound (calls : list error) (schedule : list nat) :
  (forall r, In r calls -> r = None) ->
  forall c, calm calls c ->
            (steps_made (sstep calls) schedule c
             + smeasure calls (run_schedule (sstep calls) schedule c)
             <= smeasure calls c)%nat.
Proof.
  intros Hok. induction schedule as [| tid rest IH]; intros c Hinv.
  - cbn. lia.
  - rewrite run_schedule_step. cbn [steps_made].
    destruct (sstep calls tid c) as [c'|] eqn:Hs.
    + pose proof (smeasure_step calls tid c c' Hinv Hs).
      specialize (IH c' (calm_step calls tid c c' Hok Hinv Hs)). lia.
    + exact (IH c Hinv).
Qed.

(** *** The error of a call is lost when a later call succeeds *)

Lemma run_schedule_app {C : Type} (step : nat -> C -> option C) (s1 s2 : list nat) (c : C) :
  run_schedule step (s1 ++ s2) c = run_schedule step s2 (run_schedule step s1 c).
Proof. unfold run_schedule. apply fold_left_app. Qed.

Lemma set_nth_app {A : Type} (h : list A) (y x : A) (t : list A) :
  set_nth (List.length h) x (h ++ y :: t) = h ++ x :: t.
Proof. induction h as [| a h IH]; cbn; [reflexivity | rewrite IH; reflexivity]. Qed.

Lemma nth_error_app_mid {A : Type} (h : list A) (y : A) (t : list A) :
  nth_error (h ++ y :: t) (List.length h) = Some y.
Proof. induction h as [| a h IH]; cbn; auto. Qed.

Lemma nth_error_repeat_mid {A : Type} (x y : A) (k : nat) (t : list A) :
  nth_error (repeat x k ++ y :: t) k = Some y.
Proof. induction k as [| k IH]; cbn; auto. Qed.

Lemma set_nth_repeat_mid {A : Type} (x y z : A) (k : nat) (t : list A) :
  set_nth k z (repeat x k ++ y :: t) = repeat x k ++ z :: t.
Proof. induction k as [| k IH]; cbn; [reflexivity | rewrite IH; reflexivity]. Qed.

Lemma set_nth_map_seq {A : Type} (f : nat -> A) (x : A) (n : nat) :
  forall s i, (i < n)%nat ->
    set_nth i x (map f (seq s n)) =
    map (fun k => if (k =? s + i)%nat then x else f k) (seq s n).
Proof.
  induction n as [| n IH]; intros s i Hi; [lia|].
  cbn [seq map]. destruct i as [| i]; cbn [set_nth].
  - rewrite Nat.add_0_r, Nat.eqb_refl. f_equal.
    apply map_ext_in. intros k Hk. apply in_seq in Hk.
    destruct (Nat.eqb_spec k s); [lia | reflexivity].
  - destruct (Nat.eqb_spec s (s + S i)); [lia|]. f_equal.
    rewrite IH by lia. apply map_ext. intros k.
    replace (S s + i)%nat with (s + S i)%nat by lia. reflexivity.
Qed.

Lemma nth_error_map_seq {A : Type} (f : nat -> A) (n i : nat) :
  (i < n)%nat -> nth_error (map f (seq 0 n)) i = Some (f i).
Proof.
  intros Hi. rewrite nth_error_map, nth_error_seq.
  destruct (Nat.ltb_spec i n); [reflexivity | lia].
Qed.

Section Race.

Variable calls : list error.

Lemma called_ext (p p' : nat -> bool) :
  (forall k, (k < List.length calls)%nat -> p k = p' k) -> called calls p = called calls p'.
Proof.
  intros H. unfold called. apply map_ext_in. intros k Hk. apply in_seq in Hk.
  rewrite H by lia. reflexivity.
Qed.

Lemma sloop (k : nat) :
  forall (j : nat) (go : list sgo) (wg : Z),
    (j + k <= List.length calls)%nat ->
    run_schedule (sstep calls) (repeat 0%nat k)
      {| sc_err := None; sc_go := go; sc_wg := wg; sc_closed := false;
         sc_main := SmLoop j; sc_panic := false |} =
    {| sc_err := None; sc_go := go ++ repeat SgCall k; sc_wg := wg + Z.of_nat k;
       sc_closed := false; sc_main := SmLoop (j + k); sc_panic := false |}.
Proof.
  induction k as [| k IH]; intros j go wg Hj.
  - cbn. rewrite app_nil_r, Z.add_0_r, Nat.add_0_r. reflexivity.
  - cbn [repeat]. rewrite run_schedule_step.
    unfold sstep at 2. cbn [sc_panic]. unfold smain_step. cbn [sc_main].
    destruct (Nat.ltb_spec j (List.length calls)) as [_ | Hge]; [| lia].
    cbn [sc_err sc_go sc_wg sc_closed sc_panic].
    rewrite IH by lia. rewrite <- app_assoc. cbn [app].
    f_equal; [lia | f_equal; lia].
Qed.

(** The function has started the goroutines and waits. *)
Lemma started :
  run_schedule (sstep calls) (repeat 0%nat (S (List.length calls))) sinit =
  waiting (called calls (fun _ => false)) None (Z.of_nat (List.length calls)).
Proof.
  replace (repeat 0%nat (S (List.length calls)))
    with (repeat 0%nat (List.length calls) ++ [0%nat])
    by (rewrite <- repeat_cons; reflexivity).
  rewrite run_schedule_app. unfold sinit.
  rewrite (sloop (List.length calls) 0 [] 0) by lia.
  cbn [app Nat.add Z.add]. rewrite run_schedule_step.
  unfold sstep. cbn [sc_panic]. unfold smain_step. cbn [sc_main].
  rewrite Nat.ltb_irrefl. unfold sset_main, waiting, called.
  cbn [sc_err sc_go sc_wg sc_closed sc_panic run_schedule fold_left].
  f_equal. clear. generalize 0%nat.
  induction (List.length calls) as [| n IH]; intros s; cbn; [reflexivity|].
  rewrite (IH (S s)). reflexivity.
Qed.

(** The call of worker [i] returns. *)
Lemma call_returns (p : nat -> bool) (e r : error) (wg : Z) (i : nat) :
  p i = false -> nth_error calls i = Some r ->
  sstep calls (S i) (waiting (called calls p) e wg) =
  Some (waiting (called calls (fun k => (k =? i)%nat || p k)) r wg).
Proof.
  intros Hp Hr.
  assert (Hi : (i < List.length calls)%nat) by (apply nth_error_Some; congruence).
  unfold sstep, waiting. cbn [sc_panic]. unfold sgo_step. cbn [sc_go].
  unfold called at 1. rewrite nth_error_map_seq by exact Hi. rewrite Hp, Hr.
  cbn [sc_err sc_go sc_wg sc_closed sc_main sc_panic].
  unfold called. rewrite set_nth_map_seq by exact Hi. cbn [Nat.add].
  do 2 f_equal. apply map_ext. intros k. destruct (k =? i)%nat; reflexivity.
Qed.

Lemma calls_return (l : list nat) :
  forall (p : nat -> bool) (e : error) (wg : Z),
    (forall i, In i l -> (i < List.length calls)%nat /\ p i = false) ->
    NoDup l ->
    exists e',
      run_schedule (sstep calls) (map S l) (waiting (called calls p) e wg) =
      waiting (called calls (fun k => existsb (Nat.eqb k) l || p k)) e' wg.
Proof.
  induction l as [| i l IH]; intros p e wg Hl Hnd.
  - exists e. reflexivity.
  - cbn [map]. rewrite run_schedule_step.
    destruct (Hl i (in_eq _ _)) as [Hi Hp].
    destruct (nth_error calls i) as [r|] eqn:Hr;
      [| apply nth_error_None in Hr; lia].
    rewrite (call_returns p e r wg i Hp Hr).
    inversion Hnd as [| x l' Hnotin Hnd']; subst.
    destruct (IH (fun k => (k =? i)%nat || p k) r wg) as (e' & He'); [| exact Hnd' |].
    + intros i' Hi'. destruct (Hl i' (in_cons _ _ _ Hi')) as [H1 H2]. split; [exact H1|].
      rewrite H2. destruct (Nat.eqb_spec i' i); [subst; contradiction | reflexivity].
    + exists e'. rewrite He'. f_equal. apply called_ext. intros k _. cbn [existsb].
      destruct (k =? i)%nat, (existsb (Nat.eqb k) l), (p k); reflexivity.
Qed.

(** The goroutines from [k] on test [err], find it [nil], and call
    [wg.Done()]. *)
Lemma test_step (k : nat) (x : list sgo) (wg : Z) :
  sstep calls (S k) (waiting (repeat SgExit k ++ SgTest :: x) None wg) =
  Some (waiting (repeat SgExit k ++ SgDone :: x) None wg).
Proof.
  unfold sstep, waiting. cbn [sc_panic]. unfold sgo_step. cbn [sc_go sc_err].
  rewrite nth_error_repeat_mid. unfold sset_go.
  cbn [sc_err sc_go sc_wg sc_closed sc_main sc_panic].
  rewrite set_nth_repeat_mid. reflexivity.
Qed.

Lemma done_step (k : nat) (x : list sgo) (wg : Z) :
  0 < wg ->
  sstep calls (S k) (waiting (repeat SgExit k ++ SgDone :: x) None wg) =
  Some (waiting (repeat SgExit k ++ SgExit :: x) None (wg - 1)).
Proof.
  intros Hwg. unfold sstep, waiting. cbn [sc_panic]. unfold sgo_step. cbn [sc_go sc_err].
  rewrite nth_error_repeat_mid.
  cbn [sc_err sc_go sc_wg sc_closed sc_main sc_panic].
  rewrite set_nth_repeat_mid.
  destruct (Z.ltb_spec (wg - 1) 0) as [Hneg | _]; [lia | reflexivity].
Qed.

Lemma leave (m : nat) :
  forall k, (k + m = List.length calls)%nat ->
    run_schedule (sstep calls) (flat_map (fun i => [S i; S i]) (seq k m)) (leaving calls k) =
    leaving calls (List.length calls).
Proof.
  induction m as [| m IH]; intros k Hk.
  - cbn. replace k with (List.length calls) by lia. reflexivity.
  - cbn [seq flat_map app]. unfold leaving at 1.
    replace (List.length calls - k)%nat with (S (List.length calls - S k)) by lia.
    cbn [repeat].
    rewrite run_schedule_step, test_step, run_schedule_step, done_step by lia.
    rewrite <- (IH (S k)) by lia. unfold leaving. f_equal. f_equal.
    + change (SgExit :: repeat SgTest (List.length calls - S k))
        with ([SgExit] ++ repeat SgTest (List.length calls - S k)).
      rewrite app_assoc, <- repeat_cons. reflexivity.
    + lia.
Qed.

Lemma all_called (p : nat -> bool) :
  (forall k, (k < List.length calls)%nat -> p k = true) ->
  called calls p = repeat SgTest (List.length calls).
Proof.
  intros H. unfold called.
  rewrite (map_ext_in _ (fun _ => SgTest)).
  - clear H. generalize 0%nat. induction (List.length calls) as [| n IH]; intros s; cbn;
      [reflexivity | rewrite (IH (S s)); reflexivity].
  - intros k Hk. apply in_seq in Hk. rewrite H by lia. reflexivity.
Qed.

(** Under the racy schedule the function returns [nil], whatever the
    calls of the other workers returned. *)
Lemma race (j : nat) :
  nth_error calls j = Some None ->
  setup_fanout calls (racy_schedule (List.length calls) j) = Ret None.
Proof.
  intros Hj.
  assert (Hlt : (j < List.length calls)%nat) by (apply nth_error_Some; congruence).
  unfold setup_fanout, racy_schedule.
  rewrite run_schedule_app, started.
  rewrite run_schedule_app.
  destruct (calls_return (filter (fun i => negb (i =? j)%nat) (seq 0 (List.length calls)))
              (fun _ => false) None (Z.of_nat (List.length calls))) as (e' & He').
  { intros i Hi. apply filter_In in Hi. destruct Hi as [Hi _]. apply in_seq in Hi.
    split; [lia | reflexivity]. }
  { apply NoDup_filter, seq_NoDup. }
  rewrite He'. rewrite run_schedule_app.
  rewrite (run_schedule_step _ (S j) []).
  rewrite call_returns with (r := None); [| | exact Hj].
  2: { rewrite orb_false_r. apply not_true_is_false. intros H.
       apply existsb_exists in H. destruct H as (x & Hx & Hxj).
       apply filter_In in Hx. destruct Hx as [_ Hx]. apply Nat.eqb_eq in Hxj. subst x.
       rewrite Nat.eqb_refl in Hx. discriminate. }
  rewrite all_called.
  2: { intros k Hk. destruct (Nat.eqb_spec k j) as [-> | Hne]; [reflexivity|].
       cbn [orb]. rewrite orb_false_r. apply existsb_exists. exists k.
       split; [| apply Nat.eqb_refl]. apply filter_In. split; [apply in_seq; lia|].
       destruct (Nat.eqb_spec k j); [contradiction | reflexivity]. }
  change (run_schedule (sstep calls) [] ?c) with c.
  rewrite run_schedule_app.
  pose proof (leave (List.length calls) 0 eq_refl) as Hleave.
  unfold leaving at 1 in Hleave. rewrite Nat.sub_0_r in Hleave. cbn [repeat app] in Hleave.
  rewrite Hleave. unfold leaving, waiting. rewrite Nat.sub_diag. cbn [repeat].
  rewrite !run_schedule_step. cbn [run_schedule fold_left].
  unfold sstep at 3. cbn [sc_panic]. unfold smain_step at 1. cbn [sc_main sc_wg Z.of_nat].
  cbn [Z.eqb]. unfold sset_main at 1.
  cbn [sc_err sc_go sc_wg sc_closed sc_main sc_panic].
  unfold sstep at 2. cbn [sc_panic]. unfold smain_step at 1. cbn [sc_main sc_closed].
  cbn [sc_err sc_go sc_wg sc_closed sc_main sc_panic].
  unfold sstep at 1. cbn [sc_panic]. unfold smain_step at 1. cbn [sc_main sc_closed].
  reflexivity.
Qed.

End Race.

End SetupFacts.

(* ================================================================== *)
(** * The phases of a WorkerTask *)

Module TaskFacts.
Import ListUtil GoNum Benchmark Spec.
Local Open Scope task_scope.


Lemma steady_ret {A : Type} (a : A) : steady (ret a).
Proof. intros t. split; reflexivity. Qed.

Lemma steady_lift {A : Type} (o : outcome A) : steady (lift o).
Proof. intros t. split; reflexivity. Qed.

Lemma steady_get : steady get.
Proof. intros t. split; reflexivity. Qed.

Lemma steady_set_workers (ws : list nat) : steady (set_workers ws).
Proof. intros t. split; reflexivity. Qed.

Lemma steady_emit (e : event) :
  match e with EvDeleteNamespace => False | _ => True end -> steady (emit e).
Proof.
  intros He t. split; [reflexivity|].
  unfold teardowns, emit. cbn [snd trace].
  rewrite filter_app, length_app. destruct e; try contradiction; cbn; lia.
Qed.

Lemma steady_bind {A B : Type} (m : M A) (k : A -> M B) :
  steady m -> (forall a, steady (k a)) -> steady (bind m k).
Proof.
  intros Hm Hk t. unfold bind. specialize (Hm t).
  destruct (m t) as [[a | |] t1]; cbn [snd] in *; try exact Hm.
  destruct (Hk a t1) as [H1 H2]. destruct Hm as [H3 H4]. split; congruence.
Qed.

Ltac steady :=
  repeat first
    [ assumption
    | match goal with
      | H : forall _, steady _ |- _ => simple apply H
      | H : forall _ _, steady _ |- _ => simple apply H
      | H : forall _ _ _, steady _ |- _ => simple apply H
      end
    | apply steady_ret
    | apply steady_lift
    | apply steady_get
    | apply steady_set_workers
    | apply steady_emit; exact I
    | apply steady_bind; [| intros ?]
    | match goal with
      | |- steady (match ?x with _ => _ end) => destruct x
      end ].

Section World.

Variable w : World.

Lemma steady_dial_loop (n : nat) :
  forall i ws, steady (dial_loop w n i ws).
Proof.
  induction n as [| n IH]; intros i ws; cbn [dial_loop]; steady.
Qed.

Lemma steady_getWorkers : steady (getWorkers w).
Proof. unfold getWorkers. pose proof steady_dial_loop. steady. Qed.

Lemma steady_setupSuite : steady (setupSuite w).
Proof. unfold setupSuite. pose proof steady_getWorkers. steady. Qed.

Lemma steady_setupWorkers : steady (setupWorkers w).
Proof. unfold setupWorkers. pose proof steady_getWorkers. steady. Qed.

Lemma steady_setupBenchmark (bench : string) : steady (setupBenchmark w bench).
Proof. unfold setupBenchmark. pose proof steady_getWorkers. steady. Qed.

Lemma steady_runBenchmark (bench : string) : steady (runBenchmark w bench).
Proof.
  unfold runBenchmark.
  pose proof steady_getWorkers. pose proof (steady_setupBenchmark bench). steady.
Qed.

Lemma steady_run_suite (benchmarks : list string) :
  forall results, steady (run_suite w benchmarks results).
Proof.
  induction benchmarks as [| b rest IH]; intros results; cbn [run_suite].
  - steady.
  - pose proof (steady_runBenchmark b). steady.
Qed.

Lemma steady_run_all : steady (run_all w).
Proof.
  unfold run_all.
  pose proof steady_setupSuite. pose proof steady_setupWorkers.
  pose proof steady_run_suite. pose proof steady_runBenchmark. steady.
Qed.

Lemma steady_runBenchmarks : steady (runBenchmarks w).
Proof. unfold runBenchmarks. pose proof steady_run_all. steady. Qed.

Lemma steady_run : steady (run w).
Proof.
  unfold run, createWorkers. pose proof steady_runBenchmarks. steady.
Qed.

(** [Run], in terms of [run]: the status is 0 and the error is [run]'s;
    [tearDown] is called once, after [run] has returned, and what it
    returns is dropped. *)
Lemma Run_eq (t : WorkerTask) :
  Run w t =
  match run w t with
  | (Ret e, t1) =>
      (Ret (0, e), {| config := config t1; workers := workers t1;
                      trace := trace t1 ++ [EvDeleteNamespace] |})
  | (Pending, t1) => (Pending, t1)
  | (Panic, t1) => (Panic, t1)
  end.
Proof.
  unfold Run, bind at 1. destruct (run w t) as [[[e|] | |] t1]; reflexivity.
Qed.

Lemma teardowns_snoc (t1 : WorkerTask) :
  teardowns {| config := config t1; workers := workers t1;
               trace := trace t1 ++ [EvDeleteNamespace] |} = S (teardowns t1).
Proof.
  unfold teardowns. cbn [trace]. rewrite filter_app, length_app. cbn. lia.
Qed.

(** Whenever [Run] returns, [tearDown] has been called exactly once more
    than before. *)
Lemma Run_tears_down_once (t : WorkerTask) (r : Z * error) (t' : WorkerTask) :
  Run w t = (Ret r, t') -> teardowns t' = S (teardowns t).
Proof.
  rewrite Run_eq. pose proof (steady_run t) as [_ Hs].
  destruct (run w t) as [[e | |] t1]; cbn [snd] in Hs; intros H; inversion H; subst.
  rewrite teardowns_snoc. congruence.
Qed.

(** When every connection is made, the loop of [getWorkers] dials the
    ordinals in turn. *)
Lemma dial_loop_ok :
  (forall i, Dial w i = None) ->
  forall n i ws t,
    dial_loop w n i ws t =
    (Ret (inl (ws ++ seq i n)),
     {| config := config t; workers := workers t;
        trace := trace t ++ map EvDial (seq i n) |}).
Proof.
  intros Hd. induction n as [| n IH]; intros i ws t.
  - cbn. rewrite !app_nil_r. destruct t; reflexivity.
  - cbn [dial_loop]. unfold bind at 1, emit. rewrite Hd. rewrite IH.
    cbn [config workers trace seq map]. rewrite <- !app_assoc. reflexivity.
Qed.

Lemma getWorkers_fresh (t : WorkerTask) :
  (forall i, Dial w i = None) -> workers t = None -> 0 <= Workers (config t) ->
  getWorkers w t =
  (Ret (inl (seq 0 (Z.to_nat (Workers (config t))))),
   {| config := config t; workers := Some (seq 0 (Z.to_nat (Workers (config t))));
      trace := trace t ++ map EvDial (seq 0 (Z.to_nat (Workers (config t)))) |}).
Proof.
  intros Hd Hw Hn. unfold getWorkers, bind at 1, get. rewrite Hw.
  destruct (Z.ltb_spec (Workers (config t)) 0) as [Hneg | _]; [lia|].
  unfold bind at 1. rewrite dial_loop_ok by exact Hd. reflexivity.
Qed.

Lemma getWorkers_cached (t : WorkerTask) (ws : list nat) :
  workers t = Some ws -> getWorkers w t = (Ret (inl ws), t).
Proof.
  intros Hw. unfold getWorkers, bind, get. rewrite Hw. reflexivity.
Qed.

Lemma setupWorkers_cached (t : WorkerTask) (pool : list nat) :
  workers t = Some pool ->
  setupWorkers w t =
  (setup_fanout (map (SetupWorker w) pool) (sched_setupWorkers w),
   {| config := config t; workers := workers t;
      trace := trace t ++ [EvSetupWorker pool] |}).
Proof.
  intros Hw. unfold setupWorkers, bind at 1. rewrite (getWorkers_cached t pool Hw).
  unfold bind, emit, lift. reflexivity.
Qed.

Lemma setupBenchmark_cached (bench : string) (t : WorkerTask) (pool : list nat) :
  workers t = Some pool ->
  setupBenchmark w bench t =
  (setup_fanout (map (SetupBenchmark w bench) pool) (sched_setupBenchmark w bench),
   {| config := config t; workers := workers t;
      trace := trace t ++ [EvSetupBenchmark bench pool] |}).
Proof.
  intros Hw. unfold setupBenchmark, bind at 1. rewrite (getWorkers_cached t pool Hw).
  unfold bind, emit, lift. reflexivity.
Qed.

(** [setupSuite] on a task that has no connection yet, when every
    connection is made and the pool is not empty. *)
Lemma setupSuite_fresh (t : WorkerTask) :
  (forall i, Dial w i = None) -> workers t = None -> 1 <= Workers (config t) ->
  exists t1,
    setupSuite w t = (Ret (SetupSuite w), t1) /\
    workers t1 = Some (seq 0 (Z.to_nat (Workers (config t)))) /\
    seq 0 (Z.to_nat (Workers (config t))) <> [].
Proof.
  intros Hd Hw Hn. unfold setupSuite, bind at 1.
  rewrite getWorkers_fresh by (try assumption; lia).
  destruct (Z.to_nat (Workers (config t))) as [| n] eqn:Hnat; [lia|].
  cbn [seq]. unfold bind, emit, ret. eexists. split; [reflexivity|].
  split; [reflexivity | discriminate].
Qed.

(** The loop of [getWorkers] stops at the first connection that fails. *)
Lemma dial_loop_fails (e : err) :
  forall n i ws t k,
    (k < n)%nat ->
    (forall j, (j < k)%nat -> Dial w (i + j) = None) ->
    Dial w (i + k) = Some e ->
    dial_loop w n i ws t =
    (Ret (inr e),
     {| config := config t; workers := workers t;
        trace := trace t ++ map EvDial (seq i (S k)) |}).
Proof.
  induction n as [| n IH]; intros i ws t k Hk Hok Hfail; [lia|].
  cbn [dial_loop]. unfold bind at 1, emit.
  destruct k as [| k].
  - rewrite Nat.add_0_r in Hfail. rewrite Hfail. reflexivity.
  - pose proof (Hok 0%nat ltac:(lia)) as H0. rewrite Nat.add_0_r in H0. rewrite H0.
    rewrite (IH (S i) (ws ++ [i]) _ k).
    + cbn [config workers trace]. rewrite <- app_assoc. reflexivity.
    + lia.
    + intros j Hj. replace (S i + j)%nat with (i + S j)%nat by lia. apply Hok. lia.
    + replace (S i + k)%nat with (i + S k)%nat by lia. exact Hfail.
Qed.

(** Whatever [getWorkers] returns as a pool is the pool it has stored. *)
Lemma getWorkers_stores (t t1 : WorkerTask) (ws : list nat) :
  getWorkers w t = (Ret (inl ws), t1) -> workers t1 = Some ws.
Proof.
  unfold getWorkers, bind at 1, get.
  destruct (workers t) as [ws0|] eqn:Hw.
  - unfold ret. intros H. inversion H; subst. exact Hw.
  - destruct (Workers (config t) <? 0); [unfold lift; discriminate|].
    unfold bind at 1.
    destruct (dial_loop w _ _ _ _) as [[[ws' | e] | |] t2]; try discriminate.
    unfold bind, set_workers, ret. intros H. inversion H; subst. reflexivity.
Qed.

(** With the pool provisioned and connected and the suite set up, a
    [SetupWorker] that fails for every worker keeps [run] in
    [setupWorkers]. *)
Lemma run_waits_in_setupWorkers (c : Config) :
  1 <= Workers c ->
  CreateNamespace w = None ->
  IterAsync_createWorker w = None ->
  (forall i, Dial w i = None) ->
  SetupSuite w = None ->
  (forall i, SetupWorker w i <> None) ->
  fst (run w (newWorkerTask c)) = Pending.
Proof.
  intros HW Hns Hcw Hd Hss Hsw.
  unfold run, bind at 1, emit. rewrite Hns.
  unfold bind at 1, createWorkers, bind at 1, get, bind at 1, emit, ret at 1.
  rewrite Hcw. unfold bind at 1, runBenchmarks, bind at 1, run_all, bind at 1.
  match goal with
  | |- context [setupSuite w ?t] =>
      destruct (setupSuite_fresh t Hd eq_refl HW) as (t1 & Hs & Hw1 & Hne);
      rewrite Hs
  end.
  rewrite Hss. unfold bind at 1.
  rewrite (setupWorkers_cached t1 _ Hw1).
  rewrite SetupFacts.setup_fanout_deadlock; [reflexivity | |].
  - intros Hc. apply map_eq_nil in Hc. exact (Hne Hc).
  - intros r Hr. apply in_map_iff in Hr. destruct Hr as (i & <- & _). apply Hsw.
Qed.

Lemma Run_Pending (t : WorkerTask) :
  fst (run w t) = Pending -> fst (Run w t) = Pending.
Proof.
  intros H. rewrite Run_eq. destruct (run w t) as [[e | |] t1]; cbn in H;
    try discriminate. reflexivity.
Qed.

(** The status [Run] returns is 0. *)
Lemma task_Run_zero (t : WorkerTask) (status : Z) (e : error) :
  task_Run w t = Ret (status, e) -> status = 0.
Proof.
  unfold task_Run. rewrite Run_eq.
  destruct (run w t) as [[e0 | |] t1]; cbn; intros H; inversion H. reflexivity.
Qed.

Lemma task_Run_Pending (t : WorkerTask) :
  fst (Run w t) = Pending -> task_Run w t = Pending.
Proof. unfold task_Run. intros ->. reflexivity. Qed.

End World.

Lemma check_latency_none (results : list result) : check_latency None results = None.
Proof. induction results as [| r rest IH]; cbn; auto. Qed.

Lemma check_latency_below (m : Z) (results : list result) :
  (forall r, In r results -> meanLatency r < m) ->
  check_latency (Some m) results = None.
Proof.
  induction results as [| r0 rest IH]; intros Hlt; cbn [check_latency]; [reflexivity|].
  destruct (Z.geb_spec (meanLatency r0) m) as [Hyes | Hno].
  - specialize (Hlt r0 (in_eq _ _)). lia.
  - apply IH. intros r Hr. apply Hlt. right. exact Hr.
Qed.

Lemma check_latency_reached (m : Z) (results : list result) :
  (exists r, In r results /\ m <= meanLatency r) ->
  exists meanMs, check_latency (Some m) results = Some (LatencyExceeded meanMs (Some m)).
Proof.
  induction results as [| r0 rest IH]; intros (r & Hin & Hge); [destruct Hin|].
  cbn [check_latency]. destruct (Z.geb_spec (meanLatency r0) m) as [Hyes | Hno].
  - eexists. reflexivity.
  - destruct Hin as [-> | Hin]; [lia|]. apply IH. exists r. split; assumption.
Qed.

End TaskFacts.

(* ================================================================== *)
(** * runWorkers *)

Module WorkersFacts.
Import ListUtil GoNum Benchmark Spec.

Lemma nth_error_set_nth_eq {A : Type} (i : nat) (x : A) (l : list A) :
  (i < List.length l)%nat -> nth_error (set_nth i x l) i = Some x.
Proof.
  revert i. induction l as [| a l IH]; intros [| i] Hi; cbn in *; try lia; auto.
  apply IH. lia.
Qed.

Lemma nth_error_set_nth_neq {A : Type} (i j : nat) (x : A) (l : list A) :
  i <> j -> nth_error (set_nth i x l) j = nth_error l j.
Proof.
  revert i j. induction l as [| a l IH]; intros [| i] [| j] Hij; cbn; auto; try congruence.
Qed.

Lemma nth_error_set_nth_inv {A : Type} (i j : nat) (x g : A) (l : list A) :
  nth_error (set_nth i x l) j = Some g ->
  (j = i /\ g = x) \/ (j <> i /\ nth_error l j = Some g).
Proof.
  intros H. destruct (Nat.eq_dec j i) as [-> | Hne].
  - left. split; [reflexivity|].
    assert (Hlt : (i < List.length l)%nat).
    { rewrite <- (SetupFacts.length_set_nth i x l). apply nth_error_Some. congruence. }
    rewrite nth_error_set_nth_eq in H by exact Hlt. congruence.
  - right. split; [exact Hne|]. rewrite nth_error_set_nth_neq in H by congruence. exact H.
Qed.

Lemma active_app (l : list wgo) : active (l ++ [WgRun]) = S (active l).
Proof. unfold active. rewrite filter_app, length_app. cbn. lia. Qed.

Lemma active_set_nth_same (i : nat) (g g' : wgo) (l : list wgo) :
  nth_error l i = Some g -> exited g = exited g' -> active (set_nth i g' l) = active l.
Proof.
  unfold active. revert i. induction l as [| a l IH]; intros [| i] Hn He; cbn in *;
    try discriminate.
  - inversion Hn; subst. rewrite He. destruct (negb (exited g')); reflexivity.
  - destruct (negb (exited a)); cbn; rewrite (IH i Hn He); reflexivity.
Qed.

Lemma active_set_nth_exit (i : nat) (g : wgo) (l : list wgo) :
  nth_error l i = Some g -> exited g = false ->
  S (active (set_nth i WgExit l)) = active l.
Proof.
  unfold active. revert i. induction l as [| a l IH]; intros [| i] Hn He; cbn in *;
    try discriminate.
  - inversion Hn; subst. rewrite He. reflexivity.
  - destruct (negb (exited a)); cbn; rewrite <- (IH i Hn He); reflexivity.
Qed.

Lemma active_zero (l : list wgo) : active l = 0%nat -> Forall (fun g => g = WgExit) l.
Proof.
  unfold active. induction l as [| a l IH]; cbn; intros H; [constructor|].
  destruct a; cbn in H; try discriminate. constructor; [reflexivity | apply IH; exact H].
Qed.

Lemma errors_of_snoc (runs : list (outcome (Z * error))) (l : list nat) (i : nat) :
  errors_of runs (l ++ [i]) = errors_of runs l ++ error_of runs i.
Proof. unfold errors_of. rewrite flat_map_app. cbn. rewrite app_nil_r. reflexivity. Qed.

Lemma codes_of_snoc (runs : list (outcome (Z * error))) (l : list nat) (i : nat) :
  codes_of runs (l ++ [i]) = codes_of runs l ++ code_of runs i.
Proof. unfold codes_of. rewrite flat_map_app. cbn. rewrite app_nil_r. reflexivity. Qed.

Lemma errors_of_nil (runs : list (outcome (Z * error))) (l : list nat) (i : nat) :
  In i l -> errors_of runs l = [] -> error_of runs i = [].
Proof.
  unfold errors_of. induction l as [| j l IH]; intros Hin H; [destruct Hin|].
  cbn in H. apply app_eq_nil in H. destruct H as [H1 H2].
  destruct Hin as [-> | Hin]; auto.
Qed.

Lemma codes_of_Forall (P : Z -> Prop) (runs : list (outcome (Z * error)))
      (l : list nat) (i : nat) :
  In i l -> Forall P (codes_of runs l) -> Forall P (code_of runs i).
Proof.
  unfold codes_of. induction l as [| j l IH]; intros Hin H; [destruct Hin|].
  cbn in H. apply Forall_app in H. destruct H as [H1 H2].
  destruct Hin as [-> | Hin]; auto.
Qed.

Lemma codes_of_In (runs : list (outcome (Z * error))) (l : list nat) (z : Z) :
  In z (codes_of runs l) -> exists i, nth_error runs i = Some (Ret (z, None)).
Proof.
  unfold codes_of. intros H. apply in_flat_map in H. destruct H as (i & _ & Hi).
  unfold code_of in Hi. exists i.
  destruct (nth_error runs i) as [[[st [e|]] | |]|]; cbn in Hi; try contradiction.
  destruct Hi as [-> | []]. reflexivity.
Qed.

Lemma errors_of_In (runs : list (outcome (Z * error))) (l : list nat) (e : err) :
  In e (errors_of runs l) -> exists i st, nth_error runs i = Some (Ret (st, Some e)).
Proof.
  unfold errors_of. intros H. apply in_flat_map in H. destruct H as (i & _ & Hi).
  unfold error_of in Hi. exists i.
  destruct (nth_error runs i) as [[[st [e'|]] | |]|]; cbn in Hi; try contradiction.
  destruct Hi as [-> | []]. exists st. reflexivity.
Qed.

Lemma winv_init (runs : list (outcome (Z * error))) : winv runs winit.
Proof.
  constructor; cbn; auto;
    first [ intros [| i] g H; discriminate
          | split; [reflexivity | lia]
          | discriminate
          | intros i []
          | unfold channels_agree; cbn; split; reflexivity ].
Qed.

(** A goroutine that can still move stands in the way of [all_exited]. *)
Lemma not_all_exited (runs : list (outcome (Z * error))) (c : wconf) (i : nat) (g : wgo) :
  nth_error (wc_go c) i = Some g -> g <> WgExit -> ~ all_exited runs c.
Proof.
  intros Hn Hg [_ Hall]. apply Hg.
  apply (SetupFacts.nth_error_Forall _ _ _ _ Hall Hn).
Qed.

Ltac wsimpl :=
  cbn [wc_go wc_wg wc_errChan wc_codeChan wc_closer wc_main wc_panic wc_arrived
       wset_main wset_closer wset_errChan wset_codeChan wdelivered wpanic
       items is_closed].

Lemma all_exited_go (runs : list (outcome (Z * error))) (c c' : wconf) :
  wc_go c' = wc_go c -> all_exited runs c -> all_exited runs c'.
Proof. unfold all_exited. intros ->. auto. Qed.

(** The steps of the function itself. *)
Lemma winv_main_step (runs : list (outcome (Z * error))) (c c' : wconf) :
  winv runs c -> wmain_step runs c = Some c' -> winv runs c'.
Proof.
  intros [Hgo Hwg Hlen Hidle Hcl Hclosed Harr Hch] Hs.
  unfold wmain_step in Hs. unfold channels_agree in Hch.
  destruct (wc_main c) as [k | | | | r] eqn:Hm.
  - (* in the loop *)
    destruct Hlen as [Hlen Hle].
    destruct (Nat.ltb_spec k (List.length runs)) as [Hlt | Hge];
      inversion Hs; subst c'; clear Hs; constructor; wsimpl.
    + intros i g Hn. destruct (Nat.lt_ge_cases i (List.length (wc_go c))) as [Hi | Hi].
      * rewrite nth_error_app1 in Hn by lia. apply Hgo. exact Hn.
      * rewrite nth_error_app2 in Hn by lia.
        destruct (i - List.length (wc_go c))%nat as [| d] eqn:Hd; cbn in Hn;
          [| destruct d; discriminate].
        inversion Hn; subst g. cbn. intros Hin. apply Harr in Hin. lia.
    + rewrite active_app, Hwg. lia.
    + rewrite length_app. cbn. lia.
    + exact Hidle.
    + rewrite Hidle. exact I.
    + intros Hc. destruct (Hclosed Hc) as [Hl _]. lia.
    + intros i Hin. rewrite length_app. apply Harr in Hin. cbn. lia.
    + unfold channels_agree. wsimpl. exact Hch.
    + exact Hgo.
    + exact Hwg.
    + lia.
    + exact Hidle.
    + rewrite Hidle. exact I.
    + exact Hclosed.
    + exact Harr.
    + unfold channels_agree. wsimpl. exact Hch.
  - (* the closing goroutine is started *)
    inversion Hs; subst c'; clear Hs; constructor; wsimpl; auto.
  - (* reading errChan *)
    destruct (items (wc_errChan c)) as [| e rest] eqn:Hitems.
    + destruct (is_closed (wc_errChan c)) eqn:Hc; inversion Hs; subst c'; clear Hs.
      constructor; wsimpl; auto.
      unfold channels_agree. wsimpl. destruct Hch as [He Hk].
      split; [symmetry; exact He|]. split; [apply Hclosed; reflexivity|].
      exists []. split; [symmetry; exact Hk | constructor].
    + inversion Hs; subst c'; clear Hs. constructor; wsimpl; auto.
      unfold channels_agree. wsimpl. destruct Hch as [He Hk]. split; [symmetry; exact He | exact Hk].
  - (* reading codeChan *)
    destruct Hch as (He & Hall & zeros & Hk & Hz).
    destruct (items (wc_codeChan c)) as [| code rest] eqn:Hitems.
    + destruct (is_closed (wc_codeChan c)) eqn:Hc; inversion Hs; subst c'; clear Hs.
      constructor; wsimpl; auto.
      unfold channels_agree. wsimpl. split; [exact He|]. split; [exact Hall|].
      rewrite Hk, app_nil_r. exact Hz.
    + destruct (Z.eqb_spec code 0) as [Hzero | Hnz]; inversion Hs; subst c'; clear Hs;
        constructor; wsimpl; auto; try (rewrite Hm; auto); unfold channels_agree; wsimpl;
        try rewrite Hm.
      * split; [exact He|]. split; [exact Hall|].
        exists (zeros ++ [code]). split.
        -- rewrite Hk, <- app_assoc. reflexivity.
        -- apply Forall_app. split; [exact Hz | constructor; [exact Hzero | constructor]].
      * split; [exact He|]. split; [exact Hall|]. split; [exact Hnz|].
        exists zeros. split; [exact Hk | exact Hz].
  - discriminate.
Qed.

(** The steps of the closing goroutine. *)
Lemma winv_closer_step (runs : list (outcome (Z * error))) (c c' : wconf) :
  winv runs c -> wcloser_step c = Some c' -> winv runs c'.
Proof.
  intros [Hgo Hwg Hlen Hidle Hcl Hclosed Harr Hch] Hs.
  unfold wcloser_step in Hs.
  destruct (wc_closer c) eqn:Hk.
  - discriminate.
  - (* wg.Wait() returns *)
    destruct (Z.eqb_spec (wc_wg c) 0) as [Hz | Hnz]; inversion Hs; subst c'; clear Hs.
    assert (Hall : all_exited runs c).
    { split.
      - revert Hlen Hidle. destruct (wc_main c); cbn; auto; discriminate.
      - apply active_zero. lia. }
    constructor; wsimpl; auto.
    + revert Hidle. destruct (wc_main c); cbn; auto; discriminate.
  - (* close(errChan) *)
    unfold bclose in Hs. destruct (is_closed (wc_errChan c)) eqn:Hc;
      inversion Hs; subst c'; clear Hs; constructor; wsimpl; auto;
      try rewrite Hk;
      try solve [revert Hidle; destruct (wc_main c); cbn; auto; discriminate];
      try solve [unfold channels_agree, all_exited in *; wsimpl; auto].
  - (* close(codeChan) *)
    unfold bclose in Hs. destruct (is_closed (wc_codeChan c)) eqn:Hc;
      inversion Hs; subst c'; clear Hs; constructor; wsimpl; auto;
      try rewrite Hk;
      try solve [revert Hidle; destruct (wc_main c); cbn; auto; discriminate];
      try solve [unfold channels_agree, all_exited in *; wsimpl; auto].
  - discriminate.
Qed.

Lemma go_agrees_snoc (runs : list (outcome (Z * error))) (arrived : list nat)
      (i j : nat) (g : wgo) :
  j <> i -> go_agrees runs arrived j g -> go_agrees runs (arrived ++ [i]) j g.
Proof.
  intros Hne. unfold go_agrees. destruct g.
  - intros H Hin. apply in_app_iff in Hin. destruct Hin as [Hin | [Hin | []]]; auto.
  - intros [H1 H] . split; [exact H1|]. intros Hin. apply in_app_iff in Hin.
    destruct Hin as [Hin | [Hin | []]]; auto.
  - intros [H1 H]. split; [apply in_or_app; left; exact H1 | exact H].
  - intros [H1 H]. split; [apply in_or_app; left; exact H1 | exact H].
Qed.

(** The goroutine of task [i] moves from [g] to [g'] and delivers
    nothing: the invariant is kept when [g'] agrees with the deliveries. *)
Lemma winv_go_moves (runs : list (outcome (Z * error))) (c : wconf)
      (i : nat) (g g' : wgo) (p : bool) :
  winv runs c ->
  nth_error (wc_go c) i = Some g -> g <> WgExit -> exited g' = false ->
  go_agrees runs (wc_arrived c) i g' ->
  winv runs {| wc_go := set_nth i g' (wc_go c); wc_wg := wc_wg c;
               wc_errChan := wc_errChan c; wc_codeChan := wc_codeChan c;
               wc_closer := wc_closer c; wc_main := wc_main c;
               wc_panic := p; wc_arrived := wc_arrived c |}.
Proof.
  intros [Hgo Hwg Hlen Hidle Hcl Hclosed Harr Hch] Hn Hg Hg' Hagree.
  assert (Hact : ~ all_exited runs c) by (eapply not_all_exited; eauto).
  assert (Hex : exited g = false) by (destruct g; try reflexivity; congruence).
  constructor; wsimpl.
  - intros j g0 Hj. apply nth_error_set_nth_inv in Hj.
    destruct Hj as [[-> ->] | [Hne Hj]]; [exact Hagree | apply Hgo; exact Hj].
  - rewrite (active_set_nth_same i g g') by congruence. exact Hwg.
  - rewrite SetupFacts.length_set_nth. exact Hlen.
  - exact Hidle.
  - revert Hcl. destruct (wc_closer c); auto; intros H; exfalso; exact (Hact H).
  - intros H. exfalso. exact (Hact (Hclosed H)).
  - intros j Hj. rewrite SetupFacts.length_set_nth. apply Harr. exact Hj.
  - unfold channels_agree in *. wsimpl.
    destruct (wc_main c) as [k | | | | [[e|] | code]]; auto;
      exfalso; apply Hact; apply Hch.
Qed.

(** The goroutine of task [i] delivers the error [e] of its task. *)
Lemma winv_go_delivers_err (runs : list (outcome (Z * error))) (c : wconf)
      (i : nat) (status : Z) (e : err) :
  winv runs c ->
  nth_error (wc_go c) i = Some (WgSend (status, Some e)) ->
  winv runs (wdelivered i (wset_errChan {| items := items (wc_errChan c) ++ [e];
                                           is_closed := false |} c)).
Proof.
  intros [Hgo Hwg Hlen Hidle Hcl Hclosed Harr Hch] Hn.
  assert (Hact : ~ all_exited runs c) by (eapply not_all_exited; eauto; discriminate).
  pose proof (Hgo i _ Hn) as [Hrun Hnew].
  assert (Hi : (i < List.length (wc_go c))%nat) by (apply nth_error_Some; congruence).
  assert (He : error_of runs i = [e]) by (unfold error_of; rewrite Hrun; reflexivity).
  assert (Hc : code_of runs i = []) by (unfold code_of; rewrite Hrun; reflexivity).
  constructor; wsimpl.
  - intros j g0 Hj. apply nth_error_set_nth_inv in Hj.
    destruct Hj as [[-> ->] | [Hne Hj]].
    + split; [apply in_or_app; right; left; reflexivity | eexists; exact Hrun].
    + apply go_agrees_snoc; [exact Hne | apply Hgo; exact Hj].
  - rewrite (active_set_nth_same i (WgSend (status, Some e)) WgDone) by auto. exact Hwg.
  - rewrite SetupFacts.length_set_nth. exact Hlen.
  - exact Hidle.
  - revert Hcl. destruct (wc_closer c); auto; intros H; exfalso; exact (Hact H).
  - discriminate.
  - intros j Hj. rewrite SetupFacts.length_set_nth. apply in_app_iff in Hj.
    destruct Hj as [Hj | [<- | []]]; [apply Harr; exact Hj | exact Hi].
  - unfold channels_agree in *. wsimpl.
    rewrite errors_of_snoc, codes_of_snoc, He, Hc, app_nil_r.
    destruct (wc_main c) as [k | | | | [[e0|] | code]];
      try (exfalso; apply Hact; apply Hch);
      destruct Hch as [He' Hk]; rewrite He', Hk; split; reflexivity.
Qed.

(** The goroutine of task [i] delivers the status of its task. *)
Lemma winv_go_delivers_code (runs : list (outcome (Z * error))) (c : wconf)
      (i : nat) (status : Z) (closed : bool) :
  winv runs c ->
  nth_error (wc_go c) i = Some (WgSend (status, None)) ->
  winv runs (wdelivered i (wset_codeChan {| items := items (wc_codeChan c) ++ [status];
                                            is_closed := closed |} c)).
Proof.
  intros [Hgo Hwg Hlen Hidle Hcl Hclosed Harr Hch] Hn.
  assert (Hact : ~ all_exited runs c) by (eapply not_all_exited; eauto; discriminate).
  pose proof (Hgo i _ Hn) as [Hrun Hnew].
  assert (Hi : (i < List.length (wc_go c))%nat) by (apply nth_error_Some; congruence).
  assert (He : error_of runs i = []) by (unfold error_of; rewrite Hrun; reflexivity).
  assert (Hc : code_of runs i = [status]) by (unfold code_of; rewrite Hrun; reflexivity).
  constructor; wsimpl.
  - intros j g0 Hj. apply nth_error_set_nth_inv in Hj.
    destruct Hj as [[-> ->] | [Hne Hj]].
    + split; [apply in_or_app; right; left; reflexivity | eexists; exact Hrun].
    + apply go_agrees_snoc; [exact Hne | apply Hgo; exact Hj].
  - rewrite (active_set_nth_same i (WgSend (status, None)) WgDone) by auto. exact Hwg.
  - rewrite SetupFacts.length_set_nth. exact Hlen.
  - exact Hidle.
  - revert Hcl. destruct (wc_closer c); auto; intros H; exfalso; exact (Hact H).
  - intros H. exfalso. exact (Hact (Hclosed H)).
  - intros j Hj. rewrite SetupFacts.length_set_nth. apply in_app_iff in Hj.
    destruct Hj as [Hj | [<- | []]]; [apply Harr; exact Hj | exact Hi].
  - unfold channels_agree in *. wsimpl.
    rewrite errors_of_snoc, codes_of_snoc, He, Hc, app_nil_r.
    destruct (wc_main c) as [k | | | | [[e0|] | code]];
      try (exfalso; apply Hact; apply Hch);
      destruct Hch as [He' Hk]; rewrite He', Hk; split; reflexivity.
Qed.

(** A panic changes nothing the invariant speaks of. *)
Lemma winv_wpanic (runs : list (outcome (Z * error))) (c : wconf) :
  winv runs c -> winv runs (wpanic c).
Proof.
  intros [Hgo Hwg Hlen Hidle Hcl Hclosed Harr Hch]. constructor; wsimpl; auto.
Qed.

(** The last step of a goroutine: [wg.Done()]. *)
Lemma winv_go_exits (runs : list (outcome (Z * error))) (c : wconf) (i : nat) (p : bool) :
  winv runs c ->
  nth_error (wc_go c) i = Some WgDone ->
  winv runs {| wc_go := set_nth i WgExit (wc_go c); wc_wg := wc_wg c - 1;
               wc_errChan := wc_errChan c; wc_codeChan := wc_codeChan c;
               wc_closer := wc_closer c; wc_main := wc_main c;
               wc_panic := p; wc_arrived := wc_arrived c |}.
Proof.
  intros [Hgo Hwg Hlen Hidle Hcl Hclosed Harr Hch] Hn.
  assert (Hact : ~ all_exited runs c) by (eapply not_all_exited; eauto; discriminate).
  constructor; wsimpl.
  - intros j g0 Hj. apply nth_error_set_nth_inv in Hj.
    destruct Hj as [[-> ->] | [Hne Hj]]; [exact (Hgo i _ Hn) | apply Hgo; exact Hj].
  - pose proof (active_set_nth_exit i WgDone (wc_go c) Hn eq_refl). lia.
  - rewrite SetupFacts.length_set_nth. exact Hlen.
  - exact Hidle.
  - revert Hcl. destruct (wc_closer c); auto; intros H; exfalso; exact (Hact H).
  - intros H. exfalso. exact (Hact (Hclosed H)).
  - intros j Hj. rewrite SetupFacts.length_set_nth. apply Harr. exact Hj.
  - unfold channels_agree in *. wsimpl.
    destruct (wc_main c) as [k | | | | [[e|] | code]]; auto;
      exfalso; apply Hact; apply Hch.
Qed.

(** The steps of the goroutine of task [i]. *)
Lemma winv_go_step (runs : list (outcome (Z * error))) (i : nat) (c c' : wconf) :
  winv runs c -> wgo_step runs i c = Some c' -> winv runs c'.
Proof.
  intros Hinv Hs. unfold wgo_step in Hs.
  destruct (nth_error (wc_go c) i) as [g|] eqn:Hn; [| discriminate].
  destruct g as [| [status [e|]] | |].
  - destruct (nth_error runs i) as [[r | |]|] eqn:Hr; try discriminate.
    + inversion Hs; subst c'; clear Hs.
      apply (winv_go_moves runs c i WgRun (WgSend r)); auto; try discriminate.
      split; [exact Hr | exact (wi_go runs c Hinv i _ Hn)].
    + inversion Hs; subst c'. apply winv_wpanic. exact Hinv.
  - unfold bsend in Hs. destruct (is_closed (wc_errChan c)).
    + inversion Hs; subst c'. apply winv_wpanic. exact Hinv.
    + destruct (Nat.ltb _ _); inversion Hs; subst c'; clear Hs.
      apply (winv_go_delivers_err runs c i status e Hinv Hn).
  - unfold bsend in Hs. destruct (is_closed (wc_codeChan c)).
    + inversion Hs; subst c'. apply winv_wpanic. exact Hinv.
    + destruct (Nat.ltb _ _); inversion Hs; subst c'; clear Hs.
      apply (winv_go_delivers_code runs c i status false Hinv Hn).
  - inversion Hs; subst c'; clear Hs. apply winv_go_exits; assumption.
  - discriminate.
Qed.

Lemma winv_step (runs : list (outcome (Z * error))) (tid : nat) (c c' : wconf) :
  winv runs c -> wstep runs tid c = Some c' -> winv runs c'.
Proof.
  intros Hinv Hs. unfold wstep in Hs.
  destruct (wc_panic c); [discriminate|].
  assert (Hs' : match tid with
                | O => wmain_step runs c
                | S O => wcloser_step c
                | S (S i) => wgo_step runs i c
                end = Some c').
  { destruct (wc_main c) as [k | | | | [r | code]]; try exact Hs; discriminate. }
  clear Hs. destruct tid as [| [| i]].
  - exact (winv_main_step runs c c' Hinv Hs').
  - exact (winv_closer_step runs c c' Hinv Hs').
  - exact (winv_go_step runs i c c' Hinv Hs').
Qed.

(** Every configuration [runWorkers] reaches satisfies the invariant. *)
Lemma winv_reached (runs : list (outcome (Z * error))) (schedule : list nat) :
  winv runs (runWorkers_conf runs schedule).
Proof.
  unfold runWorkers_conf.
  apply SetupFacts.run_schedule_invariant with (P := winv runs).
  - intros tid c c'. apply winv_step.
  - apply winv_init.
Qed.

Lemma active_pos (i : nat) (g : wgo) (l : list wgo) :
  nth_error l i = Some g -> exited g = false -> (1 <= active l)%nat.
Proof.
  intros Hn He. rewrite <- (active_set_nth_exit i g l Hn He). lia.
Qed.

Lemma wsafe_init : wsafe winit.
Proof. repeat split; cbn; discriminate. Qed.

(** No step panics: a send finds its channel open, [wg.Done()] finds the
    counter positive, and each channel is closed once. *)
Lemma wsafe_step (runs : list (outcome (Z * error))) (tid : nat) (c c' : wconf) :
  (forall i, nth_error runs i <> Some Panic) ->
  winv runs c -> wsafe c -> wstep runs tid c = Some c' -> wsafe c'.
Proof.
  intros Hruns Hinv (Hp & He & Hc) Hs. unfold wstep in Hs. rewrite Hp in Hs.
  assert (Hs' : match tid with
                | O => wmain_step runs c
                | S O => wcloser_step c
                | S (S i) => wgo_step runs i c
                end = Some c').
  { destruct (wc_main c) as [k | | | | [r | code]]; try exact Hs; discriminate. }
  clear Hs. destruct Hinv as [Hgo Hwg Hlen Hidle Hcl Hclosed Harr Hch].
  destruct tid as [| [| i]].
  - unfold wmain_step in Hs'. destruct (wc_main c) as [k | | | | r] eqn:Hm.
    + destruct (Nat.ltb k (List.length runs)); inversion Hs'; subst c'; clear Hs';
        unfold wsafe; wsimpl; auto.
    + inversion Hs'; subst c'; clear Hs'. unfold wsafe; wsimpl.
      split; [exact Hp|]. split; intros H.
      * destruct (He H) as [H1 | H1]; rewrite Hidle in H1; discriminate.
      * specialize (Hc H). rewrite Hidle in Hc. discriminate.
    + destruct (items (wc_errChan c)) as [| e rest].
      * destruct (is_closed (wc_errChan c)); inversion Hs'; subst c'; clear Hs';
          unfold wsafe; wsimpl; auto.
      * inversion Hs'; subst c'; clear Hs'. unfold wsafe; wsimpl; auto.
    + destruct (items (wc_codeChan c)) as [| code rest].
      * destruct (is_closed (wc_codeChan c)); inversion Hs'; subst c'; clear Hs';
          unfold wsafe; wsimpl; auto.
      * destruct (code =? 0); inversion Hs'; subst c'; clear Hs'; unfold wsafe; wsimpl; auto.
    + discriminate.
  - unfold wcloser_step in Hs'. destruct (wc_closer c) eqn:Hk.
    + discriminate.
    + destruct (wc_wg c =? 0); inversion Hs'; subst c'; clear Hs'. unfold wsafe; wsimpl.
      split; [exact Hp|]. split; intros H.
      * destruct (He H); discriminate.
      * specialize (Hc H). discriminate.
    + unfold bclose in Hs'. destruct (is_closed (wc_errChan c)) eqn:Hce.
      * destruct (He eq_refl); discriminate.
      * inversion Hs'; subst c'; clear Hs'. unfold wsafe; wsimpl.
        split; [exact Hp|]. split; intros H; [left; reflexivity|].
        specialize (Hc H). discriminate.
    + unfold bclose in Hs'. destruct (is_closed (wc_codeChan c)) eqn:Hcc.
      * specialize (Hc eq_refl). discriminate.
      * inversion Hs'; subst c'; clear Hs'. unfold wsafe; wsimpl.
        split; [exact Hp|]. split; intros H; [right |]; reflexivity.
    + discriminate.
  - unfold wgo_step in Hs'.
    destruct (nth_error (wc_go c) i) as [g|] eqn:Hn; [| discriminate].
    assert (Hopen : g <> WgExit ->
                    is_closed (wc_errChan c) = false /\ is_closed (wc_codeChan c) = false).
    { intros Hg.
      assert (Hact : ~ all_exited runs c) by (eapply not_all_exited; eauto).
      split.
      - destruct (is_closed (wc_errChan c)); [| reflexivity].
        exfalso. exact (Hact (Hclosed eq_refl)).
      - destruct (is_closed (wc_codeChan c)); [| reflexivity].
        exfalso. specialize (Hc eq_refl). rewrite Hc in Hcl. exact (Hact Hcl). }
    destruct g as [| [status [e|]] | |].
    + destruct (nth_error runs i) as [[r | |]|] eqn:Hr; inversion Hs'; subst c'; clear Hs'.
      * unfold wsafe; wsimpl; auto.
      * exfalso. exact (Hruns i Hr).
    + destruct Hopen as [Ho _]; [discriminate|].
      unfold bsend in Hs'. rewrite Ho in Hs'.
      destruct (Nat.ltb _ _); inversion Hs'; subst c'; clear Hs'.
      unfold wsafe, wdelivered, wset_errChan; wsimpl.
      split; [exact Hp|]. split; [discriminate | exact Hc].
    + destruct Hopen as [_ Ho]; [discriminate|].
      unfold bsend in Hs'. rewrite Ho in Hs'.
      destruct (Nat.ltb _ _); inversion Hs'; subst c'; clear Hs'.
      unfold wsafe, wdelivered, wset_codeChan; wsimpl.
      split; [exact Hp|]. split; [exact He | discriminate].
    + inversion Hs'; subst c'; clear Hs'. unfold wsafe; wsimpl.
      split; [| split; assumption].
      pose proof (active_pos i WgDone (wc_go c) Hn eq_refl).
      apply Z.ltb_ge. lia.
    + discriminate.
Qed.

(** The two invariants together, for every configuration reached. *)
Lemma wsafe_reached (runs : list (outcome (Z * error))) (schedule : list nat) :
  (forall i, nth_error runs i <> Some Panic) ->
  winv runs (runWorkers_conf runs schedule) /\ wsafe (runWorkers_conf runs schedule).
Proof.
  intros Hruns. unfold runWorkers_conf.
  apply SetupFacts.run_schedule_invariant with (P := fun c => winv runs c /\ wsafe c).
  - intros tid c c' [Hi Hs] Hstep. split.
    + exact (winv_step runs tid c c' Hi Hstep).
    + exact (wsafe_step runs tid c c' Hruns Hi Hs Hstep).
  - split; [apply winv_init | apply wsafe_init].
Qed.

(** When every goroutine is over, every task has returned and delivered. *)
Lemma all_exited_runs (runs : list (outcome (Z * error))) (c : wconf) (i : nat) :
  winv runs c -> all_exited runs c -> (i < List.length runs)%nat ->
  In i (wc_arrived c) /\ exists r, nth_error runs i = Some (Ret r).
Proof.
  intros Hinv [Hlen Hall] Hi.
  destruct (nth_error (wc_go c) i) as [g|] eqn:Hn.
  - pose proof (SetupFacts.nth_error_Forall _ _ _ _ Hall Hn) as Hg. cbn in Hg. subst g.
    exact (wi_go runs c Hinv i WgExit Hn).
  - apply nth_error_None in Hn. lia.
Qed.

(** *** How the function ends *)

Lemma runWorkers_Ret (runs : list (outcome (Z * error))) (schedule : list nat)
      (r : wresult) :
  runWorkers runs schedule = Ret r ->
  wc_main (runWorkers_conf runs schedule) = WmEnd r.
Proof.
  unfold runWorkers, wresult_of.
  destruct (wc_panic _); [discriminate|].
  destruct (wc_main _); try discriminate. congruence.
Qed.

Lemma runWorkers_not_Panic (runs : list (outcome (Z * error))) (schedule : list nat) :
  (forall i, nth_error runs i <> Some Panic) ->
  runWorkers runs schedule = Pending \/ exists r, runWorkers runs schedule = Ret r.
Proof.
  intros Hruns. destruct (wsafe_reached runs schedule Hruns) as [_ (Hp & _)].
  unfold runWorkers, wresult_of. rewrite Hp.
  destruct (wc_main _); eauto.
Qed.

Lemma returns_error (runs : list (outcome (Z * error))) (schedule : list nat) (e : err) :
  runWorkers runs schedule = Ret (Returns (Some e)) ->
  exists rest, errors_of runs (wc_arrived (runWorkers_conf runs schedule)) = e :: rest.
Proof.
  intros H. apply runWorkers_Ret in H.
  pose proof (wi_chan runs _ (winv_reached runs schedule)) as Hch.
  unfold channels_agree in Hch. rewrite H in Hch. destruct Hch as [He _]. eauto.
Qed.

Lemma returns_nil_runs (runs : list (outcome (Z * error))) (schedule : list nat) (i : nat) :
  runWorkers runs schedule = Ret (Returns None) -> (i < List.length runs)%nat ->
  nth_error runs i = Some (Ret (0, None)).
Proof.
  intros H Hi. apply runWorkers_Ret in H.
  pose proof (winv_reached runs schedule) as Hinv.
  pose proof (wi_chan runs _ Hinv) as Hch.
  unfold channels_agree in Hch. rewrite H in Hch. destruct Hch as (He & Hall & Hz).
  destruct (all_exited_runs runs _ i Hinv Hall Hi) as (Hin & r & Hr).
  pose proof (errors_of_nil runs _ i Hin He) as He'.
  pose proof (codes_of_Forall _ runs _ i Hin Hz) as Hc'.
  unfold error_of in He'. unfold code_of in Hc'. rewrite Hr in *.
  destruct r as [st [e|]]; [discriminate|].
  inversion Hc'; subst. reflexivity.
Qed.

Lemma exits_runs (runs : list (outcome (Z * error))) (schedule : list nat) (code : Z) :
  runWorkers runs schedule = Ret (Exits code) ->
  (code =? 0) = false /\
  (exists zeros rest,
      codes_of runs (wc_arrived (runWorkers_conf runs schedule)) = zeros ++ code :: rest /\
      Forall (fun z => z = 0) zeros) /\
  (forall i, (i < List.length runs)%nat ->
             exists status, nth_error runs i = Some (Ret (status, None))).
Proof.
  intros H. apply runWorkers_Ret in H.
  pose proof (winv_reached runs schedule) as Hinv.
  pose proof (wi_chan runs _ Hinv) as Hch.
  unfold channels_agree in Hch. rewrite H in Hch.
  destruct Hch as (He & Hall & Hne & zeros & Hz & Hzeros).
  split; [apply Z.eqb_neq; exact Hne|]. split; [eauto|].
  intros i Hi.
  destruct (all_exited_runs runs _ i Hinv Hall Hi) as (Hin & r & Hr).
  pose proof (errors_of_nil runs _ i Hin He) as He'.
  unfold error_of in He'. rewrite Hr in He'.
  destruct r as [st [e|]]; [discriminate|]. eauto.
Qed.

(** A task that never returns keeps the channels open. *)
Lemma never_all_exited (runs : list (outcome (Z * error))) (schedule : list nat) (i : nat) :
  nth_error runs i = Some Pending -> ~ all_exited runs (runWorkers_conf runs schedule).
Proof.
  intros Hn Hall.
  assert (Hi : (i < List.length runs)%nat) by (apply nth_error_Some; congruence).
  destruct (all_exited_runs runs _ i (winv_reached runs schedule) Hall Hi) as (_ & r & Hr).
  congruence.
Qed.

(** *** The loop that starts the goroutines *)

Lemma wloop (runs : list (outcome (Z * error))) (k : nat) :
  forall (j : nat) (go : list wgo) (wg : Z),
    (j + k <= List.length runs)%nat ->
    run_schedule (wstep runs) (repeat 0%nat k)
      {| wc_go := go; wc_wg := wg; wc_errChan := bmake; wc_codeChan := bmake;
         wc_closer := WcIdle; wc_main := WmLoop j; wc_panic := false; wc_arrived := [] |} =
    {| wc_go := go ++ repeat WgRun k; wc_wg := wg + Z.of_nat k;
       wc_errChan := bmake; wc_codeChan := bmake;
       wc_closer := WcIdle; wc_main := WmLoop (j + k); wc_panic := false;
       wc_arrived := [] |}.
Proof.
  induction k as [| k IH]; intros j go wg Hj.
  - cbn. rewrite app_nil_r, Z.add_0_r, Nat.add_0_r. reflexivity.
  - cbn [repeat]. rewrite SetupFacts.run_schedule_step.
    unfold wstep at 2. cbn [wc_panic wc_main]. unfold wmain_step. cbn [wc_main].
    destruct (Nat.ltb_spec j (List.length runs)) as [_ | Hge]; [| lia].
    cbn [wc_go wc_wg wc_errChan wc_codeChan wc_closer wc_panic wc_arrived].
    rewrite IH by lia. rewrite <- app_assoc. cbn [app].
    f_equal; [lia | f_equal; lia].
Qed.

Lemma nth_error_repeat_lt {A : Type} (x : A) (n i : nat) :
  (i < n)%nat -> nth_error (repeat x n) i = Some x.
Proof.
  revert i. induction n as [| n IH]; intros [| i] Hi; cbn; try lia; auto.
  apply IH. lia.
Qed.

(** What the hasty schedule leads to, when task [i] returns an error. *)
Lemma hasty_conf (runs : list (outcome (Z * error))) (i : nat) (status : Z) (e : err) :
  nth_error runs i = Some (Ret (status, Some e)) ->
  runWorkers_conf runs (hasty_schedule (List.length runs) i) =
  {| wc_go := set_nth i WgDone
                (set_nth i (WgSend (status, Some e)) (repeat WgRun (List.length runs)));
     wc_wg := Z.of_nat (List.length runs);
     wc_errChan := {| items := []; is_closed := false |};
     wc_codeChan := bmake;
     wc_closer := WcWait;
     wc_main := WmEnd (Returns (Some e));
     wc_panic := false;
     wc_arrived := [i] |}.
Proof.
  intros Hn.
  assert (Hi : (i < List.length runs)%nat) by (apply nth_error_Some; congruence).
  unfold runWorkers_conf, hasty_schedule, winit.
  rewrite SetupFacts.run_schedule_app, (wloop runs (List.length runs) 0 [] 0) by lia.
  cbn [app Nat.add Z.add].
  (* the loop ends *)
  rewrite SetupFacts.run_schedule_step.
  unfold wstep at 2. cbn [wc_panic wc_main]. unfold wmain_step at 1. cbn [wc_main].
  rewrite Nat.ltb_irrefl. unfold wset_main at 1.
  cbn [wc_go wc_wg wc_errChan wc_codeChan wc_closer wc_panic wc_arrived].
  (* the closing goroutine is started *)
  rewrite SetupFacts.run_schedule_step.
  unfold wstep at 2. cbn [wc_panic wc_main]. unfold wmain_step at 1. cbn [wc_main].
  unfold wset_main, wset_closer.
  cbn [wc_go wc_wg wc_errChan wc_codeChan wc_closer wc_panic wc_arrived wc_main].
  (* the task returns *)
  rewrite SetupFacts.run_schedule_step.
  unfold wstep at 2. cbn [wc_panic wc_main]. unfold wgo_step at 1. cbn [wc_go].
  rewrite nth_error_repeat_lt by exact Hi. rewrite Hn.
  cbn [wc_go wc_wg wc_errChan wc_codeChan wc_closer wc_panic wc_arrived wc_main].
  (* and sends its error *)
  rewrite SetupFacts.run_schedule_step.
  unfold wstep at 2. cbn [wc_panic wc_main]. unfold wgo_step at 1. cbn [wc_go].
  rewrite nth_error_set_nth_eq by (rewrite repeat_length; exact Hi).
  cbn [wc_errChan]. unfold bsend, bmake. cbn [is_closed items List.length app].
  destruct (Nat.ltb_spec 0 (List.length runs)) as [_ | Hz]; [| lia].
  unfold wdelivered, wset_errChan.
  cbn [wc_go wc_wg wc_errChan wc_codeChan wc_closer wc_panic wc_arrived wc_main app].
  (* the function receives it *)
  rewrite SetupFacts.run_schedule_step.
  unfold wstep. cbn [wc_panic wc_main]. unfold wmain_step. cbn [wc_main wc_errChan items].
  unfold wset_main, wset_errChan.
  cbn [wc_go wc_wg wc_errChan wc_codeChan wc_closer wc_panic wc_arrived wc_main is_closed].
  reflexivity.
Qed.

(** *** What the tasks have to do with the outcome *)

Lemma error_from_task (runs : list (outcome (Z * error))) (schedule : list nat) (e : err) :
  runWorkers runs schedule = Ret (Returns (Some e)) ->
  exists i status, nth_error runs i = Some (Ret (status, Some e)).
Proof.
  intros H. destruct (returns_error runs schedule e H) as (rest & Hr).
  apply (errors_of_In runs (wc_arrived (runWorkers_conf runs schedule))).
  rewrite Hr. left. reflexivity.
Qed.

Lemma runWorkers_cases (runs : list (outcome (Z * error))) (schedule : list nat) :
  runWorkers runs schedule = Pending \/ runWorkers runs schedule = Panic \/
  exists r, runWorkers runs schedule = Ret r.
Proof.
  destruct (runWorkers runs schedule) as [r | |]; eauto.
Qed.

Lemma waits_for_all (runs : list (outcome (Z * error))) (schedule : list nat) (i : nat) :
  nth_error runs i = Some Pending ->
  runWorkers runs schedule = Pending \/ runWorkers runs schedule = Panic \/
  exists e, runWorkers runs schedule = Ret (Returns (Some e)).
Proof.
  intros Hn. pose proof (never_all_exited runs schedule i Hn) as Hact.
  destruct (runWorkers_cases runs schedule) as [H | [H | [r H]]]; auto.
  pose proof (runWorkers_Ret runs schedule r H) as Hm.
  pose proof (wi_chan runs _ (winv_reached runs schedule)) as Hch.
  unfold channels_agree in Hch. rewrite Hm in Hch.
  destruct r as [[e|] | code].
  - right. right. exists e. exact H.
  - exfalso. apply Hact. apply Hch.
  - exfalso. apply Hact. apply Hch.
Qed.

Lemma exit_code_from_task (runs : list (outcome (Z * error))) (schedule : list nat)
      (code : Z) :
  runWorkers runs schedule = Ret (Exits code) ->
  (code =? 0) = false /\ exists i, nth_error runs i = Some (Ret (code, None)).
Proof.
  intros H. destruct (exits_runs runs schedule code H) as (Hne & (zeros & rest & Hc & _) & _).
  split; [exact Hne|].
  apply (codes_of_In runs (wc_arrived (runWorkers_conf runs schedule))).
  rewrite Hc. apply in_or_app. right. left. reflexivity.
Qed.

(** *** When every task returns, the function returns *)

Lemma wlive_init : wlive winit.
Proof.
  constructor; cbn; auto; try discriminate.
  - constructor.
  - intros [H | H]; discriminate.
Qed.

Ltac wl_done :=
  constructor; wsimpl; auto; try discriminate; try congruence;
  try (intros [H | H]; discriminate);
  try (match goal with |- match ?m with _ => _ end => destruct m end;
       auto; discriminate).

Lemma wlive_step (runs : list (outcome (Z * error))) (tid : nat) (c c' : wconf) :
  winv runs c -> wsafe c -> wlive c -> wstep runs tid c = Some c' -> wlive c'.
Proof.
  intros Hinv (Hp & Hse & Hsc) [Hnd Hst Hec Hcc Hrg] Hs.
  unfold wstep in Hs. rewrite Hp in Hs.
  assert (Hs' : match tid with
                | O => wmain_step runs c
                | S O => wcloser_step c
                | S (S i) => wgo_step runs i c
                end = Some c').
  { destruct (wc_main c) as [k | | | | [r | code]]; try exact Hs; discriminate. }
  clear Hs. destruct Hinv as [Hgo Hwg Hlen Hidle Hcl Hclosed Harr Hch].
  destruct tid as [| [| i]].
  - unfold wmain_step in Hs'. destruct (wc_main c) as [k | | | | r] eqn:Hm.
    + destruct (Nat.ltb k (List.length runs)); inversion Hs'; subst c'; clear Hs'; wl_done.
    + inversion Hs'; subst c'; clear Hs'. wl_done.
    + destruct (items (wc_errChan c)) as [| e rest].
      * destruct (is_closed (wc_errChan c)) eqn:Hce; inversion Hs'; subst c'; clear Hs'.
        wl_done.
      * inversion Hs'; subst c'; clear Hs'. wl_done.
    + destruct (items (wc_codeChan c)) as [| code rest].
      * destruct (is_closed (wc_codeChan c)) eqn:Hcc'; inversion Hs'; subst c'; clear Hs'.
        wl_done.
      * destruct (code =? 0); inversion Hs'; subst c'; clear Hs'; wl_done.
    + discriminate.
  - unfold wcloser_step in Hs'. destruct (wc_closer c) eqn:Hk.
    + discriminate.
    + destruct (wc_wg c =? 0); inversion Hs'; subst c'; clear Hs'. wl_done.
    + unfold bclose in Hs'. destruct (is_closed (wc_errChan c)) eqn:Hce.
      * destruct (Hse eq_refl); discriminate.
      * inversion Hs'; subst c'; clear Hs'. wl_done.
    + unfold bclose in Hs'. destruct (is_closed (wc_codeChan c)) eqn:Hcc'.
      * specialize (Hsc eq_refl). discriminate.
      * inversion Hs'; subst c'; clear Hs'. wl_done.
    + discriminate.
  - unfold wgo_step in Hs'.
    destruct (nth_error (wc_go c) i) as [g|] eqn:Hn; [| discriminate].
    assert (Hact : g <> WgExit -> ~ all_exited runs c)
      by (intros Hg; eapply not_all_exited; eauto).
    assert (Hquiet : g <> WgExit ->
              (wc_closer c = WcCloseCode \/ wc_closer c = WcExit -> False) /\
              (wc_closer c = WcExit -> False) /\ (wc_main c = WmRangeCode -> False)).
    { intros Hg. specialize (Hact Hg). repeat split.
      - intros [H | H]; rewrite H in Hcl; exact (Hact Hcl).
      - intros H. rewrite H in Hcl. exact (Hact Hcl).
      - intros H. unfold channels_agree in Hch. rewrite H in Hch. apply Hact. apply Hch. }
    destruct g as [| [status [e|]] | |].
    + destruct (nth_error runs i) as [[r | |]|]; inversion Hs'; subst c'; clear Hs'; wl_done.
    + destruct (Hquiet ltac:(discriminate)) as (Hq1 & Hq2 & Hq3).
      pose proof (Hgo i _ Hn) as [_ Hnew].
      unfold bsend in Hs'. destruct (is_closed (wc_errChan c)) eqn:Hce.
      * inversion Hs'; subst c'. wl_done.
      * destruct (Nat.ltb _ _); inversion Hs'; subst c'; clear Hs'.
        unfold wdelivered, wset_errChan. constructor; wsimpl; auto;
          try (intros H; exfalso; auto; fail).
        apply NoDup_app; [exact Hnd | constructor; [intros [] | constructor] |].
        intros x Hx [<- | []]. exact (Hnew Hx).
    + destruct (Hquiet ltac:(discriminate)) as (Hq1 & Hq2 & Hq3).
      pose proof (Hgo i _ Hn) as [_ Hnew].
      unfold bsend in Hs'. destruct (is_closed (wc_codeChan c)) eqn:Hcc'.
      * inversion Hs'; subst c'. wl_done.
      * destruct (Nat.ltb _ _); inversion Hs'; subst c'; clear Hs'.
        unfold wdelivered, wset_codeChan. constructor; wsimpl; auto;
          try (intros H; exfalso; auto; fail).
        apply NoDup_app; [exact Hnd | constructor; [intros [] | constructor] |].
        intros x Hx [<- | []]. exact (Hnew Hx).
    + inversion Hs'; subst c'; clear Hs'. wl_done.
    + discriminate.
Qed.

Lemma wlive_reached (runs : list (outcome (Z * error))) (schedule : list nat) :
  (forall i, nth_error runs i <> Some Panic) ->
  winv runs (runWorkers_conf runs schedule) /\ wsafe (runWorkers_conf runs schedule)
  /\ wlive (runWorkers_conf runs schedule).
Proof.
  intros Hruns. unfold runWorkers_conf.
  apply SetupFacts.run_schedule_invariant
    with (P := fun c => winv runs c /\ wsafe c /\ wlive c).
  - intros tid c c' (Hi & Hs & Hl) Hstep. split; [| split].
    + exact (winv_step runs tid c c' Hi Hstep).
    + exact (wsafe_step runs tid c c' Hruns Hi Hs Hstep).
    + exact (wlive_step runs tid c c' Hi Hs Hl Hstep).
  - split; [apply winv_init | split; [apply wsafe_init | apply wlive_init]].
Qed.

Lemma returning_no_Panic (runs : list (outcome (Z * error))) :
  returning runs -> forall i, nth_error runs i <> Some Panic.
Proof.
  intros Hr i Hi. apply nth_error_In in Hi. destruct (Hr _ Hi) as [v Hv]. discriminate.
Qed.

Lemma flat_map_short {A B : Type} (f : A -> list B) (l : list A) :
  (forall a, (List.length (f a) <= 1)%nat) ->
  (List.length (flat_map f l) <= List.length l)%nat.
Proof.
  intros Hf. induction l as [| a l IH]; cbn; [lia|].
  rewrite length_app. specialize (Hf a). lia.
Qed.

(** A goroutine that has not delivered finds room on both channels. *)
Lemma wroom (runs : list (outcome (Z * error))) (c : wconf) (i : nat) (r : Z * error) :
  winv runs c -> wsafe c -> wlive c ->
  nth_error (wc_go c) i = Some (WgSend r) ->
  is_closed (wc_errChan c) = false /\ is_closed (wc_codeChan c) = false /\
  (List.length (items (wc_errChan c)) < List.length runs)%nat /\
  (List.length (items (wc_codeChan c)) < List.length runs)%nat.
Proof.
  intros Hinv (Hp & Hse & Hsc) [Hnd Hst Hec Hcc Hrg] Hn.
  assert (Hact : ~ all_exited runs c) by (eapply not_all_exited; eauto; discriminate).
  destruct Hinv as [Hgo Hwg Hlen Hidle Hcl Hclosed Harr Hch].
  pose proof (Hgo i _ Hn) as [Hrun Hnew].
  assert (Hi : (i < List.length (wc_go c))%nat) by (apply nth_error_Some; congruence).
  assert (Hgolen : (List.length (wc_go c) <= List.length runs)%nat)
    by (destruct (wc_main c); lia).
  assert (Harrived : (List.length (wc_arrived c) < List.length (wc_go c))%nat).
  { assert (Hincl : incl (i :: wc_arrived c) (seq 0 (List.length (wc_go c)))).
    { intros x [<- | Hx]; apply in_seq; [lia | specialize (Harr x Hx); lia]. }
    assert (Hnd' : NoDup (i :: wc_arrived c)) by (constructor; assumption).
    pose proof (NoDup_incl_length Hnd' Hincl) as Hle. rewrite length_seq in Hle.
    cbn in Hle. lia. }
  assert (Herrs : (List.length (errors_of runs (wc_arrived c))
                   <= List.length (wc_arrived c))%nat).
  { apply flat_map_short. intros a. unfold error_of.
    destruct (nth_error runs a) as [[[st [e|]] | |]|]; cbn; lia. }
  assert (Hcodes : (List.length (codes_of runs (wc_arrived c))
                    <= List.length (wc_arrived c))%nat).
  { apply flat_map_short. intros a. unfold code_of.
    destruct (nth_error runs a) as [[[st [e|]] | |]|]; cbn; lia. }
  split; [| split].
  - destruct (is_closed (wc_errChan c)); [| reflexivity].
    exfalso. exact (Hact (Hclosed eq_refl)).
  - destruct (is_closed (wc_codeChan c)); [| reflexivity].
    exfalso. specialize (Hsc eq_refl). rewrite Hsc in Hcl. exact (Hact Hcl).
  - unfold channels_agree in Hch.
    destruct (wc_main c) as [k | | | | [[e|] | code]];
      try (exfalso; apply Hact; apply Hch);
      destruct Hch as [He Hk]; split; try (rewrite He; lia); try (rewrite Hk; lia).
    assert (Hl : (List.length (items (wc_errChan c))
                  < List.length (errors_of runs (wc_arrived c)))%nat)
      by (rewrite He; cbn; lia).
    lia.
Qed.

(** In a configuration in which the function has not ended, some thread
    can make a step. *)
Lemma wprogress (runs : list (outcome (Z * error))) (c : wconf) :
  returning runs -> winv runs c -> wsafe c -> wlive c -> wresult_of c = Pending ->
  exists tid c', wstep runs tid c = Some c'.
Proof.
  intros Hret Hinv Hsafe Hlive Hpend.
  pose proof (wroom runs c) as Hroom.
  destruct Hsafe as (Hp & Hse & Hsc). destruct Hlive as [Hnd Hst Hec Hcc Hrg].
  assert (Hsafe : wsafe c) by (repeat split; assumption).
  assert (Hlive : wlive c) by (constructor; assumption).
  pose proof (wi_wg runs c Hinv) as Hwg. pose proof (wi_len runs c Hinv) as Hlen.
  unfold wresult_of in Hpend. rewrite Hp in Hpend.
  (* a step of a goroutine, or of the closing goroutine *)
  assert (Hothers : wc_closer c <> WcIdle -> wc_closer c <> WcExit ->
                    List.length (wc_go c) = List.length runs ->
                    exists tid c', match tid with
                                   | O => None
                                   | S O => wcloser_step c
                                   | S (S i) => wgo_step runs i c
                                   end = Some c').
  { intros Hk1 Hk2 Hfull. destruct (wc_closer c) eqn:Hk; try congruence.
    - destruct (Z.eqb_spec (wc_wg c) 0) as [Hz | Hnz].
      + exists 1%nat. unfold wcloser_step. rewrite Hk. apply Z.eqb_eq in Hz. rewrite Hz. eauto.
      + destruct (SetupFacts.count_pos (fun g => negb (exited g)) (wc_go c))
          as (i & g & Hn & Hg).
        { unfold active in Hwg. lia. }
        exists (S (S i)). unfold wgo_step. rewrite Hn.
        assert (Hi : (i < List.length runs)%nat)
          by (rewrite <- Hfull; apply nth_error_Some; congruence).
        destruct g as [| r | |]; try discriminate.
        * destruct (nth_error runs i) as [o|] eqn:Hr; [| apply nth_error_None in Hr; lia].
          destruct (Hret o (nth_error_In _ _ Hr)) as [v ->]. eauto.
        * destruct (Hroom i r Hinv Hsafe Hlive Hn) as (Ho1 & Ho2 & Hl1 & Hl2).
          destruct r as [status [e|]]; unfold bsend; rewrite ?Ho1, ?Ho2.
          -- destruct (Nat.ltb_spec (List.length (items (wc_errChan c))) (List.length runs));
               [eauto | lia].
          -- destruct (Nat.ltb_spec (List.length (items (wc_codeChan c))) (List.length runs));
               [eauto | lia].
        * eauto.
    - exists 1%nat. unfold wcloser_step. rewrite Hk. destruct (bclose _); eauto.
    - exists 1%nat. unfold wcloser_step. rewrite Hk. destruct (bclose _); eauto. }
  unfold wstep. rewrite Hp.
  destruct (wc_main c) as [k | | | | r] eqn:Hm; try discriminate.
  - exists 0%nat. unfold wmain_step. rewrite Hm.
    destruct (Nat.ltb k (List.length runs)); eauto.
  - exists 0%nat. unfold wmain_step. rewrite Hm. eauto.
  - destruct (items (wc_errChan c)) as [| e rest] eqn:Hitems.
    + destruct (is_closed (wc_errChan c)) eqn:Hce.
      * exists 0%nat. unfold wmain_step. rewrite Hm, Hitems, Hce. eauto.
      * destruct Hothers as (tid & c' & Hstep); auto.
        -- intros Hk. specialize (Hec (or_intror Hk)). congruence.
        -- destruct tid as [| tid]; [discriminate|]. exists (S tid), c'. exact Hstep.
    + exists 0%nat. unfold wmain_step. rewrite Hm, Hitems. eauto.
  - destruct (items (wc_codeChan c)) as [| code rest] eqn:Hitems.
    + destruct (is_closed (wc_codeChan c)) eqn:Hcc'.
      * exists 0%nat. unfold wmain_step. rewrite Hm, Hitems, Hcc'. eauto.
      * destruct Hothers as (tid & c' & Hstep); auto.
        -- intros Hk. specialize (Hcc Hk). congruence.
        -- destruct tid as [| tid]; [discriminate|]. exists (S tid), c'. exact Hstep.
    + exists 0%nat. unfold wmain_step. rewrite Hm, Hitems.
      destruct (code =? 0); eauto.
Qed.

Lemma wmeasure_step (runs : list (outcome (Z * error))) (tid : nat) (c c' : wconf) :
  (forall i, nth_error runs i <> Some Panic) ->
  winv runs c -> wsafe c -> wstep runs tid c = Some c' ->
  (wmeasure runs c' < wmeasure runs c)%nat.
Proof.
  intros Hruns Hinv (Hp & Hse & Hsc) Hs.
  unfold wstep in Hs. rewrite Hp in Hs.
  assert (Hs' : match tid with
                | O => wmain_step runs c
                | S O => wcloser_step c
                | S (S i) => wgo_step runs i c
                end = Some c').
  { destruct (wc_main c) as [k | | | | [r | code]]; try exact Hs; discriminate. }
  clear Hs. destruct Hinv as [Hgo Hwg Hlen Hidle Hcl Hclosed Harr Hch].
  unfold wmeasure. destruct tid as [| [| i]].
  - unfold wmain_step in Hs'. destruct (wc_main c) as [k | | | | r] eqn:Hm.
    + destruct (Nat.ltb_spec k (List.length runs)) as [Hlt | Hge];
        inversion Hs'; subst c'; clear Hs'; wsimpl; cbn [wmain_rank].
      * rewrite map_app, list_sum_app, length_app. cbn. lia.
      * lia.
    + inversion Hs'; subst c'; clear Hs'. wsimpl. rewrite Hidle. cbn. lia.
    + destruct (items (wc_errChan c)) as [| e rest].
      * destruct (is_closed (wc_errChan c)); inversion Hs'; subst c'; clear Hs'; wsimpl.
        cbn. lia.
      * inversion Hs'; subst c'; clear Hs'; wsimpl. cbn. lia.
    + destruct (items (wc_codeChan c)) as [| code rest] eqn:Hitems.
      * destruct (is_closed (wc_codeChan c)); inversion Hs'; subst c'; clear Hs'; wsimpl.
        rewrite ?Hitems. cbn. lia.
      * destruct (code =? 0); inversion Hs'; subst c'; clear Hs'; wsimpl;
          rewrite ?Hm, ?Hitems; cbn; lia.
    + discriminate.
  - unfold wcloser_step in Hs'. destruct (wc_closer c) eqn:Hk.
    + discriminate.
    + destruct (wc_wg c =? 0); inversion Hs'; subst c'; clear Hs'; wsimpl. cbn. lia.
    + unfold bclose in Hs'. destruct (is_closed (wc_errChan c)) eqn:Hce.
      * destruct (Hse eq_refl); discriminate.
      * inversion Hs'; subst c'; clear Hs'; wsimpl. cbn. lia.
    + unfold bclose in Hs'. destruct (is_closed (wc_codeChan c)) eqn:Hcc.
      * specialize (Hsc eq_refl). discriminate.
      * inversion Hs'; subst c'; clear Hs'; wsimpl. cbn. lia.
    + discriminate.
  - unfold wgo_step in Hs'.
    destruct (nth_error (wc_go c) i) as [g|] eqn:Hn; [| discriminate].
    assert (Hrank : forall g' extra,
               (wgo_rank g' + extra < wgo_rank g)%nat ->
               (wmain_rank (wc_main c) + wcloser_rank (wc_closer c)
                + list_sum (map wgo_rank (set_nth i g' (wc_go c)))
                + 5 * (List.length runs - List.length (set_nth i g' (wc_go c)))
                + (List.length (items (wc_codeChan c)) + extra)
                < wmain_rank (wc_main c) + wcloser_rank (wc_closer c)
                  + list_sum (map wgo_rank (wc_go c))
                  + 5 * (List.length runs - List.length (wc_go c))
                  + List.length (items (wc_codeChan c)))%nat).
    { intros g' extra Hg'. rewrite SetupFacts.length_set_nth.
      pose proof (SetupFacts.sum_set_nth wgo_rank i g g' (wc_go c) Hn). lia. }
    assert (Hopen : g <> WgExit ->
                    is_closed (wc_errChan c) = false /\ is_closed (wc_codeChan c) = false).
    { intros Hg.
      assert (Hact : ~ all_exited runs c) by (eapply not_all_exited; eauto).
      split.
      - destruct (is_closed (wc_errChan c)); [| reflexivity].
        exfalso. exact (Hact (Hclosed eq_refl)).
      - destruct (is_closed (wc_codeChan c)); [| reflexivity].
        exfalso. specialize (Hsc eq_refl). rewrite Hsc in Hcl. exact (Hact Hcl). }
    destruct g as [| [status [e|]] | |].
    + destruct (nth_error runs i) as [[r | |]|] eqn:Hr; inversion Hs'; subst c'; clear Hs'.
      * wsimpl. specialize (Hrank (WgSend r) 0%nat ltac:(cbn; lia)). lia.
      * exfalso. exact (Hruns i Hr).
    + destruct Hopen as [Ho _]; [discriminate|].
      unfold bsend in Hs'. rewrite Ho in Hs'.
      destruct (Nat.ltb _ _); inversion Hs'; subst c'; clear Hs'.
      unfold wdelivered, wset_errChan. wsimpl.
      specialize (Hrank WgDone 0%nat ltac:(cbn; lia)). lia.
    + destruct Hopen as [_ Ho]; [discriminate|].
      unfold bsend in Hs'. rewrite Ho in Hs'.
      destruct (Nat.ltb _ _); inversion Hs'; subst c'; clear Hs'.
      unfold wdelivered, wset_codeChan. wsimpl. rewrite length_app. cbn [List.length].
      apply (Hrank WgDone 1%nat). cbn. lia.
    + inversion Hs'; subst c'; clear Hs'. wsimpl.
      specialize (Hrank WgExit 0%nat ltac:(cbn; lia)). lia.
    + discriminate.
Qed.

Lemma wsteps_bound (runs : list (outcome (Z * error))) (schedule : list nat) :
  (forall i, nth_error runs i <> Some Panic) ->
  forall c, winv runs c -> wsafe c ->
            (steps_made (wstep runs) schedule c
             + wmeasure runs (run_schedule (wstep runs) schedule c)
             <= wmeasure runs c)%nat.
Proof.
  intros Hruns. induction schedule as [| tid rest IH]; intros c Hinv Hsafe.
  - cbn. lia.
  - rewrite SetupFacts.run_schedule_step. cbn [steps_made].
    destruct (wstep runs tid c) as [c'|] eqn:Hs.
    + pose proof (wmeasure_step runs tid c c' Hruns Hinv Hsafe Hs).
      specialize (IH c' (winv_step runs tid c c' Hinv Hs)
                     (wsafe_step runs tid c c' Hruns Hinv Hsafe Hs)). lia.
    + exact (IH c Hinv Hsafe).
Qed.

End WorkersFacts.

(* ================================================================== *)
(** * The fan-out of runBenchmark *)

Module FanoutFacts.
Import ListUtil GoNum Benchmark Spec.

Lemma bactive_app (l : list bgo) : bactive (l ++ [BgCall]) = S (bactive l).
Proof. unfold bactive. rewrite filter_app, length_app. cbn. lia. Qed.

Lemma bactive_set_nth_same (i : nat) (g g' : bgo) (l : list bgo) :
  nth_error l i = Some g -> bexited g = bexited g' ->
  bactive (set_nth i g' l) = bactive l.
Proof.
  unfold bactive. revert i. induction l as [| a l IH]; intros [| i] Hn He; cbn in *;
    try discriminate.
  - inversion Hn; subst. rewrite He. destruct (negb (bexited g')); reflexivity.
  - destruct (negb (bexited a)); cbn; rewrite (IH i Hn He); reflexivity.
Qed.

Lemma bactive_set_nth_exit (i : nat) (g : bgo) (l : list bgo) :
  nth_error l i = Some g -> bexited g = false ->
  S (bactive (set_nth i BgExit l)) = bactive l.
Proof.
  unfold bactive. revert i. induction l as [| a l IH]; intros [| i] Hn He; cbn in *;
    try discriminate.
  - inversion Hn; subst. rewrite He. reflexivity.
  - destruct (negb (bexited a)); cbn; rewrite <- (IH i Hn He); reflexivity.
Qed.

Lemma bactive_zero (l : list bgo) : bactive l = 0%nat -> Forall (fun g => g = BgExit) l.
Proof.
  unfold bactive. induction l as [| a l IH]; cbn; intros H; [constructor|].
  destruct a; cbn in H; try discriminate. constructor; [reflexivity | apply IH; exact H].
Qed.

(** Some goroutine has not exited while the counter is positive. *)
Lemma bactive_pos (l : list bgo) :
  (0 < bactive l)%nat -> exists i g, nth_error l i = Some g /\ bexited g = false.
Proof.
  unfold bactive. induction l as [| a l IH]; cbn; intros H; [lia|].
  destruct (bexited a) eqn:Ha; cbn in H.
  - destruct (IH H) as (i & g & Hi & Hg). exists (S i), g. split; assumption.
  - exists 0%nat, a. split; [reflexivity | exact Ha].
Qed.

Lemma delivered_calls_app (go : list bgo) (g : bgo) :
  bdelivered g = false ->
  forall calls, delivered_calls (go ++ [g]) calls = delivered_calls go calls.
Proof.
  intros Hg. induction go as [| a go IH]; intros [| r calls];
    cbn [app delivered_calls]; try reflexivity.
  - rewrite Hg. destruct calls; reflexivity.
  - rewrite IH. reflexivity.
Qed.

Lemma delivered_calls_same (i : nat) (g g' : bgo) :
  forall go calls,
    nth_error go i = Some g -> bdelivered g = bdelivered g' ->
    delivered_calls (set_nth i g' go) calls = delivered_calls go calls.
Proof.
  induction i as [| i IH]; intros [| a go] [| r calls] Hn Hg; cbn in *;
    try discriminate; try reflexivity.
  - inversion Hn; subst. rewrite Hg. reflexivity.
  - rewrite (IH go calls Hn Hg). reflexivity.
Qed.

Lemma delivered_calls_new (i : nat) (g : bgo) (r : RunResponse + err) :
  forall go calls,
    nth_error go i = Some g -> bdelivered g = false -> nth_error calls i = Some r ->
    Permutation (delivered_calls (set_nth i BgDone go) calls)
                (r :: delivered_calls go calls).
Proof.
  induction i as [| i IH]; intros [| a go] [| r0 calls] Hn Hg Hr; cbn in *;
    try discriminate.
  - inversion Hn; subst. inversion Hr; subst. rewrite Hg. reflexivity.
  - specialize (IH go calls Hn Hg Hr).
    destruct (bdelivered a); cbn.
    + rewrite IH. apply perm_swap.
    + exact IH.
Qed.

(** While a goroutine has not delivered, fewer values than there are
    goroutines have been sent. *)
Lemma delivered_calls_lt (i : nat) (g : bgo) :
  forall go calls,
    nth_error go i = Some g -> bdelivered g = false ->
    (List.length (delivered_calls go calls) < List.length go)%nat.
Proof.
  assert (Hle : forall go calls,
             (List.length (delivered_calls go calls) <= List.length go)%nat).
  { induction go as [| a go IH]; intros [| r calls]; cbn; try lia.
    specialize (IH calls). rewrite length_app. destruct (bdelivered a); cbn; lia. }
  induction i as [| i IH]; intros [| a go] [| r calls] Hn Hg; cbn in *;
    try discriminate; try lia.
  - inversion Hn; subst. rewrite Hg. cbn. specialize (Hle go calls). lia.
  - specialize (IH go calls Hn Hg). rewrite length_app.
    destruct (bdelivered a); cbn; lia.
Qed.

Lemma delivered_calls_all (go : list bgo) :
  forall calls,
    Forall (fun g => g = BgExit) go -> List.length go = List.length calls ->
    delivered_calls go calls = calls.
Proof.
  induction go as [| a go IH]; intros [| r calls] Hall Hlen; cbn in *;
    try discriminate; try reflexivity.
  inversion Hall; subst. cbn. rewrite IH; auto.
Qed.

Lemma not_over (c : bconf) (i : nat) (g : bgo) :
  nth_error (bc_go c) i = Some g -> g <> BgExit ->
  ~ Forall (fun g => g = BgExit) (bc_go c).
Proof.
  intros Hn Hg Hall. apply Hg. exact (SetupFacts.nth_error_Forall _ _ _ _ Hall Hn).
Qed.

Ltac bsimpl :=
  cbn [bc_go bc_wg bc_resultCh bc_errCh bc_main bc_panic bset_main bset_go bpanic
       items is_closed] in *.

Lemma binv_init (bench : string) (calls : list (RunResponse + err)) :
  binv bench calls binit.
Proof.
  constructor; cbn; auto; [split; [reflexivity | lia] |].
  intros [| i] r H; discriminate.
Qed.

Lemma binv_main_step (bench : string) (calls : list (RunResponse + err)) (c c' : bconf) :
  binv bench calls c -> bmain_step bench calls c = Some c' -> binv bench calls c'.
Proof.
  intros [Hp Hwg Hlen Hsend Hch Hopen Hover Hret] Hs.
  unfold bmain_step in Hs. unfold channel_contents in Hch.
  destruct (bc_main c) as [k | | | | | | r] eqn:Hm.
  - destruct (Nat.ltb_spec k (List.length calls)) as [Hlt | Hge];
      inversion Hs; subst c'; clear Hs; constructor; unfold channel_contents; bsimpl; auto.
    + rewrite bactive_app. lia.
    + rewrite length_app. cbn. lia.
    + intros i r Hi. apply Hsend.
      destruct (Nat.lt_ge_cases i (List.length (bc_go c))) as [Hi' | Hi'].
      * rewrite nth_error_app1 in Hi by exact Hi'. exact Hi.
      * rewrite nth_error_app2 in Hi by exact Hi'.
        destruct (i - List.length (bc_go c))%nat as [| j]; cbn in Hi;
          [discriminate | destruct j; discriminate].
    + rewrite delivered_calls_app by reflexivity. exact Hch.
    + lia.
  - destruct (Z.eqb_spec (bc_wg c) 0) as [Hz | Hnz]; inversion Hs; subst c'; clear Hs.
    constructor; unfold channel_contents; bsimpl; auto.
    apply bactive_zero. lia.
  - destruct Hopen as [Ho1 Ho2]. unfold bclose in Hs. rewrite Ho1 in Hs.
    inversion Hs; subst c'; clear Hs. constructor; unfold channel_contents; bsimpl; auto.
  - destruct Hopen as [Ho1 Ho2]. unfold bclose in Hs. rewrite Ho2 in Hs.
    inversion Hs; subst c'; clear Hs. constructor; unfold channel_contents; bsimpl; auto.
  - destruct Hopen as [Ho1 Ho2].
    destruct (items (bc_errCh c)) as [| e rest] eqn:He.
    + rewrite Ho2 in Hs. inversion Hs; subst c'; clear Hs.
      constructor; unfold channel_contents; bsimpl; auto.
      rewrite He. exact Hch.
    + inversion Hs; subst c'; clear Hs.
      constructor; unfold channel_contents; bsimpl; auto.
      * rewrite He. exact Hch.
      * rewrite He. left. reflexivity.
  - destruct Hopen as [Ho1 Ho2]. rewrite Ho1 in Hs. inversion Hs; subst c'; clear Hs.
    constructor; unfold channel_contents; bsimpl; auto.
  - discriminate.
Qed.

(** A goroutine that has not delivered finds room in the channels. *)
Lemma binv_room (bench : string) (calls : list (RunResponse + err)) (c : bconf)
      (i : nat) (g : bgo) :
  binv bench calls c -> nth_error (bc_go c) i = Some g -> bdelivered g = false ->
  is_closed (bc_resultCh c) = false /\ is_closed (bc_errCh c) = false /\
  (List.length (items (bc_resultCh c)) < List.length calls)%nat /\
  (List.length (items (bc_errCh c)) < List.length calls)%nat.
Proof.
  intros [Hp Hwg Hlen Hsend Hch Hopen Hover Hret] Hn Hg.
  assert (Hact : ~ Forall (fun g => g = BgExit) (bc_go c)).
  { eapply not_over; eauto. intros ->. discriminate. }
  pose proof (delivered_calls_lt i g (bc_go c) calls Hn Hg) as Hlt.
  apply Permutation_length in Hch. unfold channel_contents in Hch.
  rewrite length_app, !length_map in Hch.
  assert (Hgo : (List.length (bc_go c) <= List.length calls)%nat).
  { destruct (bc_main c); lia. }
  destruct (bc_main c); try (exfalso; exact (Hact Hover));
    destruct Hopen as [H1 H2]; repeat split; auto; lia.
Qed.

Lemma binv_go_step (bench : string) (calls : list (RunResponse + err)) (i : nat)
      (c c' : bconf) :
  binv bench calls c -> bgo_step calls i c = Some c' -> binv bench calls c'.
Proof.
  intros Hinv Hs. unfold bgo_step in Hs.
  destruct (nth_error (bc_go c) i) as [g|] eqn:Hn; [| discriminate].
  assert (Hact : g <> BgExit -> ~ Forall (fun g => g = BgExit) (bc_go c))
    by (intros Hg; eapply not_over; eauto).
  assert (Hroom : bdelivered g = false ->
                  is_closed (bc_resultCh c) = false /\ is_closed (bc_errCh c) = false /\
                  (List.length (items (bc_resultCh c)) < List.length calls)%nat /\
                  (List.length (items (bc_errCh c)) < List.length calls)%nat)
    by (intros Hg; eapply binv_room; eauto).
  destruct Hinv as [Hp Hwg Hlen Hsend Hch Hopen Hover Hret].
  unfold channel_contents in Hch.
  assert (Hlen' : forall g',
             match bc_main c with
             | BmLoop k => List.length (set_nth i g' (bc_go c)) = k
                           /\ (k <= List.length calls)%nat
             | _ => List.length (set_nth i g' (bc_go c)) = List.length calls
             end)
    by (intros g'; rewrite SetupFacts.length_set_nth; exact Hlen).
  assert (Hsend' : forall g', (forall r, g' = BgSend r -> nth_error calls i = Some r) ->
             forall j r, nth_error (set_nth i g' (bc_go c)) j = Some (BgSend r) ->
                         nth_error calls j = Some r).
  { intros g' Hg' j r Hj. apply WorkersFacts.nth_error_set_nth_inv in Hj.
    destruct Hj as [[-> Hj] | [Hne Hj]]; [apply Hg'; congruence | apply Hsend; exact Hj]. }
  destruct g as [| [r | e] | |].
  - (* the call returns *)
    destruct (nth_error calls i) as [r|] eqn:Hr; inversion Hs; subst c'; clear Hs.
    specialize (Hact ltac:(discriminate)).
    constructor; unfold channel_contents; bsimpl; auto;
      try (destruct (bc_main c); auto; exfalso; exact (Hact Hover)).
    + rewrite (bactive_set_nth_same i BgCall (BgSend r)) by auto. exact Hwg.
    + apply Hsend'. intros r' Hr'. congruence.
    + rewrite (delivered_calls_same i BgCall (BgSend r)) by auto. exact Hch.
  - (* a response is sent *)
    destruct (Hroom eq_refl) as (Ho1 & Ho2 & Hl1 & Hl2).
    specialize (Hact ltac:(discriminate)).
    unfold bsend in Hs. rewrite Ho1 in Hs.
    destruct (Nat.ltb_spec (List.length (items (bc_resultCh c))) (List.length calls))
      as [_ | Hge]; [| lia].
    inversion Hs; subst c'; clear Hs.
    constructor; unfold channel_contents; bsimpl; auto;
      try (destruct (bc_main c); auto; exfalso; exact (Hact Hover)).
    + rewrite (bactive_set_nth_same i (BgSend (inl r)) BgDone) by auto. exact Hwg.
    + apply Hsend'. discriminate.
    + rewrite (delivered_calls_new i (BgSend (inl r)) (inl r)) by auto.
      rewrite map_app. cbn [map]. rewrite <- app_assoc. cbn [app].
      rewrite <- Hch. symmetry. apply Permutation_middle.
  - (* an error is sent *)
    destruct (Hroom eq_refl) as (Ho1 & Ho2 & Hl1 & Hl2).
    specialize (Hact ltac:(discriminate)).
    unfold bsend in Hs. rewrite Ho2 in Hs.
    destruct (Nat.ltb_spec (List.length (items (bc_errCh c))) (List.length calls))
      as [_ | Hge]; [| lia].
    inversion Hs; subst c'; clear Hs.
    constructor; unfold channel_contents; bsimpl; auto;
      try (destruct (bc_main c); auto; exfalso; exact (Hact Hover)).
    + rewrite (bactive_set_nth_same i (BgSend (inr e)) BgDone) by auto. exact Hwg.
    + apply Hsend'. discriminate.
    + rewrite (delivered_calls_new i (BgSend (inr e)) (inr e)) by auto.
      rewrite map_app. cbn [map]. rewrite app_assoc.
      rewrite <- Hch. symmetry. apply Permutation_cons_append.
  - (* wg.Done() *)
    specialize (Hact ltac:(discriminate)).
    inversion Hs; subst c'; clear Hs.
    pose proof (bactive_set_nth_exit i BgDone (bc_go c) Hn eq_refl) as Hex.
    constructor; unfold channel_contents; bsimpl; auto;
      try (destruct (bc_main c); auto; exfalso; exact (Hact Hover)).
    + apply Z.ltb_ge. lia.
    + lia.
    + apply Hsend'. discriminate.
    + rewrite (delivered_calls_same i BgDone BgExit) by auto. exact Hch.
  - discriminate.
Qed.

Lemma binv_step (bench : string) (calls : list (RunResponse + err)) (tid : nat)
      (c c' : bconf) :
  binv bench calls c -> bstep bench calls tid c = Some c' -> binv bench calls c'.
Proof.
  intros Hinv Hs. unfold bstep in Hs.
  destruct (bc_panic c); [discriminate|].
  destruct tid as [| i].
  - exact (binv_main_step bench calls c c' Hinv Hs).
  - exact (binv_go_step bench calls i c c' Hinv Hs).
Qed.

Lemma binv_reached (bench : string) (calls : list (RunResponse + err))
      (schedule : list nat) :
  binv bench calls (run_fanout_conf bench calls schedule).
Proof.
  unfold run_fanout_conf.
  apply SetupFacts.run_schedule_invariant with (P := binv bench calls).
  - intros tid c c'. apply binv_step.
  - apply binv_init.
Qed.

Lemma run_fanout_Ret (bench : string) (calls : list (RunResponse + err))
      (schedule : list nat) (r : result + err) :
  run_fanout bench calls schedule = Ret r ->
  bc_main (run_fanout_conf bench calls schedule) = BmReturn r.
Proof.
  unfold run_fanout, run_fanout_conf, bresult.
  destruct (bc_panic _); [discriminate|].
  destruct (bc_main _); try discriminate. congruence.
Qed.

(** When the function has returned, the channels hold what the calls
    returned, each once. *)
Lemma returned_contents (bench : string) (calls : list (RunResponse + err))
      (schedule : list nat) (r : result + err) :
  run_fanout bench calls schedule = Ret r ->
  Permutation (channel_contents (run_fanout_conf bench calls schedule)) calls /\
  Forall (fun g => g = BgExit) (bc_go (run_fanout_conf bench calls schedule)) /\
  List.length (bc_go (run_fanout_conf bench calls schedule)) = List.length calls.
Proof.
  intros H. apply run_fanout_Ret in H.
  destruct (binv_reached bench calls schedule) as [Hp Hwg Hlen Hsend Hch Hopen Hover Hret].
  rewrite H in *.
  rewrite (delivered_calls_all _ calls Hover Hlen) in Hch. auto.
Qed.

(** In a configuration that is not final, some thread can make a step. *)
Lemma binv_progress (bench : string) (calls : list (RunResponse + err)) (c : bconf) :
  binv bench calls c -> bresult c = Pending ->
  exists tid c', bstep bench calls tid c = Some c'.
Proof.
  intros Hinv Hpend.
  pose proof (binv_room bench calls c) as Hroom.
  destruct Hinv as [Hp Hwg Hlen Hsend Hch Hopen Hover Hret].
  unfold bresult in Hpend. unfold bstep. rewrite Hp in *.
  destruct (bc_main c) as [k | | | | | | r] eqn:Hm.
  - exists 0%nat. unfold bmain_step. rewrite Hm.
    destruct (Nat.ltb k (List.length calls)); eauto.
  - destruct (Z.eqb_spec (bc_wg c) 0) as [Hz | Hnz].
    + exists 0%nat. unfold bmain_step. rewrite Hm.
      apply Z.eqb_eq in Hz. rewrite Hz. eauto.
    + destruct (bactive_pos (bc_go c)) as (i & g & Hn & Hg); [lia|].
      exists (S i). unfold bgo_step. rewrite Hn.
      assert (Hi : (i < List.length calls)%nat)
        by (rewrite <- Hlen; apply nth_error_Some; congruence).
      destruct g as [| [r | e] | |]; try discriminate.
      * destruct (nth_error calls i) eqn:Hr; eauto.
        apply nth_error_None in Hr. lia.
      * assert (Hinv' : binv bench calls c) by (constructor; rewrite ?Hm; assumption).
        destruct (Hroom i _ Hinv' Hn eq_refl) as (Ho1 & Ho2 & Hl1 & Hl2).
        unfold bsend. rewrite Ho1.
        destruct (Nat.ltb_spec (List.length (items (bc_resultCh c))) (List.length calls));
          [eauto | lia].
      * assert (Hinv' : binv bench calls c) by (constructor; rewrite ?Hm; assumption).
        destruct (Hroom i _ Hinv' Hn eq_refl) as (Ho1 & Ho2 & Hl1 & Hl2).
        unfold bsend. rewrite Ho2.
        destruct (Nat.ltb_spec (List.length (items (bc_errCh c))) (List.length calls));
          [eauto | lia].
      * eauto.
  - exists 0%nat. unfold bmain_step. rewrite Hm. destruct (bclose _); eauto.
  - exists 0%nat. unfold bmain_step. rewrite Hm. destruct (bclose _); eauto.
  - exists 0%nat. unfold bmain_step. rewrite Hm. destruct Hopen as [_ Ho].
    rewrite Ho. destruct (items (bc_errCh c)); eauto.
  - exists 0%nat. unfold bmain_step. rewrite Hm. destruct Hopen as [Ho _].
    rewrite Ho. eauto.
  - discriminate.
Qed.

(** *** Every step brings the end nearer *)

Lemma rank_set_nth (i : nat) (g g' : bgo) (l : list bgo) :
  nth_error l i = Some g ->
  (list_sum (map bgo_rank (set_nth i g' l)) + bgo_rank g =
   list_sum (map bgo_rank l) + bgo_rank g')%nat.
Proof.
  unfold list_sum.
  revert i. induction l as [| a l IH]; intros [| i] Hn; cbn in *; try discriminate.
  - inversion Hn; subst. lia.
  - specialize (IH i Hn). lia.
Qed.

Lemma bmeasure_step (bench : string) (calls : list (RunResponse + err)) (tid : nat)
      (c c' : bconf) :
  binv bench calls c -> bstep bench calls tid c = Some c' ->
  (bmeasure calls c' < bmeasure calls c)%nat.
Proof.
  intros Hinv Hs. pose proof (bi_len bench calls c Hinv) as Hlen.
  unfold bstep in Hs. destruct (bc_panic c); [discriminate|].
  unfold bmeasure. destruct tid as [| i].
  - unfold bmain_step in Hs.
    destruct (bc_main c) as [k | | | | | | r] eqn:Hm.
    + destruct (Nat.ltb_spec k (List.length calls)) as [Hlt | Hge];
        inversion Hs; subst c'; clear Hs; bsimpl; cbn [bmain_rank].
      * rewrite map_app, list_sum_app, length_app. cbn. lia.
      * lia.
    + destruct (bc_wg c =? 0); inversion Hs; subst c'; clear Hs; bsimpl;
        cbn [bmain_rank]; lia.
    + pose proof (bi_open bench calls c Hinv) as Ho. rewrite Hm in Ho.
      destruct Ho as [Ho _]. unfold bclose in Hs. rewrite Ho in Hs.
      inversion Hs; subst c'; clear Hs; bsimpl; cbn [bmain_rank]. lia.
    + pose proof (bi_open bench calls c Hinv) as Ho. rewrite Hm in Ho.
      destruct Ho as [_ Ho]. unfold bclose in Hs. rewrite Ho in Hs.
      inversion Hs; subst c'; clear Hs; bsimpl; cbn [bmain_rank]. lia.
    + destruct (items (bc_errCh c)); [destruct (is_closed (bc_errCh c))|];
        inversion Hs; subst c'; clear Hs; bsimpl; cbn [bmain_rank]; lia.
    + destruct (is_closed (bc_resultCh c)); inversion Hs; subst c'; clear Hs; bsimpl;
        cbn [bmain_rank]; lia.
    + discriminate.
  - unfold bgo_step in Hs.
    destruct (nth_error (bc_go c) i) as [g|] eqn:Hn; [| discriminate].
    assert (Hrank : forall g', (bgo_rank g' < bgo_rank g)%nat ->
               (bmain_rank (bc_main c) + list_sum (map bgo_rank (set_nth i g' (bc_go c)))
                + 4 * (List.length calls - List.length (set_nth i g' (bc_go c)))
                < bmain_rank (bc_main c) + list_sum (map bgo_rank (bc_go c))
                  + 4 * (List.length calls - List.length (bc_go c)))%nat).
    { intros g' Hg'. rewrite SetupFacts.length_set_nth.
      pose proof (rank_set_nth i g g' (bc_go c) Hn). lia. }
    destruct g as [| [r | e] | |]; try discriminate.
    + destruct (nth_error calls i); inversion Hs; subst c'; clear Hs; bsimpl.
      apply Hrank. cbn. lia.
    + destruct (binv_room bench calls c i _ Hinv Hn eq_refl) as (Ho1 & Ho2 & Hl1 & Hl2).
      unfold bsend in Hs. rewrite Ho1 in Hs.
      destruct (Nat.ltb _ _); inversion Hs; subst c'; clear Hs; bsimpl.
      apply Hrank. cbn. lia.
    + destruct (binv_room bench calls c i _ Hinv Hn eq_refl) as (Ho1 & Ho2 & Hl1 & Hl2).
      unfold bsend in Hs. rewrite Ho2 in Hs.
      destruct (Nat.ltb _ _); inversion Hs; subst c'; clear Hs; bsimpl.
      apply Hrank. cbn. lia.
    + inversion Hs; subst c'; clear Hs; bsimpl. apply Hrank. cbn. lia.
Qed.

Lemma steps_bound (bench : string) (calls : list (RunResponse + err))
      (schedule : list nat) :
  forall c, binv bench calls c ->
            (steps_made (bstep bench calls) schedule c
             + bmeasure calls (run_schedule (bstep bench calls) schedule c)
             <= bmeasure calls c)%nat.
Proof.
  induction schedule as [| tid rest IH]; intros c Hinv.
  - cbn. lia.
  - rewrite SetupFacts.run_schedule_step. cbn [steps_made].
    destruct (bstep bench calls tid c) as [c'|] eqn:Hs.
    + pose proof (bmeasure_step bench calls tid c c' Hinv Hs).
      specialize (IH c' (binv_step bench calls tid c c' Hinv Hs)). lia.
    + exact (IH c Hinv).
Qed.

End FanoutFacts.

(* ================================================================== *)
(** * Forked tasks that finish in any order *)

Module ForkFacts.
Import ListUtil Console ForkSpec.

Section WithErrors.

Variable E : Type.

Lemma set_nth_twice {A : Type} (i : nat) (x y : A) (l : list A) :
  set_nth i y (set_nth i x l) = set_nth i y l.
Proof.
  revert i. induction l as [| a l IH]; intros [| i]; cbn; auto. rewrite IH. reflexivity.
Qed.

Lemma nth_error_offset {A : Type} (h l : list A) (i : nat) :
  nth_error (h ++ l) (List.length h + i) = nth_error l i.
Proof. induction h as [| a h IH]; cbn; auto. Qed.

Lemma set_nth_offset {A : Type} (h l : list A) (i : nat) (x : A) :
  set_nth (List.length h + i) x (h ++ l) = h ++ set_nth i x l.
Proof. induction h as [| a h IH]; cbn; [reflexivity | rewrite IH; reflexivity]. Qed.

(** The goroutine of a channel as [Fork] made it sends and closes at
    once, wherever the channel is in the store. *)
Lemma goroutine_at (st : store E) (ch : nat) (r : error E) :
  nth_error st ch = Some fresh ->
  goroutine ch r st = Some (tt, set_nth ch (finished r) st).
Proof.
  intros Hn.
  assert (Hlt : (ch < List.length st)%nat) by (apply nth_error_Some; congruence).
  destruct r as [e|]; unfold goroutine, bind, send, close.
  - rewrite Hn. cbn [fresh closed buf cap List.length Nat.ltb Nat.leb app].
    rewrite WorkersFacts.nth_error_set_nth_eq by exact Hlt.
    cbn [closed buf cap]. rewrite set_nth_twice. reflexivity.
  - rewrite Hn. cbn [fresh closed buf cap]. reflexivity.
Qed.

Lemma channels_ext (rs : list (error E)) (p p' : nat -> bool) :
  (forall k, (k < List.length rs)%nat -> p k = p' k) -> channels rs p = channels rs p'.
Proof.
  intros H. unfold channels. apply map_ext_in. intros k Hk. apply in_seq in Hk.
  rewrite H by lia. reflexivity.
Qed.

Lemma channels_none (rs : list (error E)) :
  channels rs (fun _ => false) = repeat fresh (List.length rs).
Proof.
  unfold channels. generalize 0%nat.
  induction (List.length rs) as [| n IH]; intros s; cbn;
    [reflexivity | rewrite (IH (S s)); reflexivity].
Qed.

Lemma channels_all (rs : list (error E)) (p : nat -> bool) :
  (forall k, (k < List.length rs)%nat -> p k = true) ->
  channels rs p = map finished rs.
Proof.
  intros H. unfold channels.
  rewrite (map_ext_in _ (fun i => finished (nth i rs None))).
  - clear H p. induction rs as [| r rs IH]; [reflexivity|].
    cbn [List.length seq map nth]. f_equal.
    rewrite <- seq_shift, map_map. exact IH.
  - intros k Hk. apply in_seq in Hk. rewrite H by lia. reflexivity.
Qed.

(** The goroutines of the tasks of [l] finish. *)
Lemma finish_in_eq (h : store E) (rs : list (error E)) (l : list nat) :
  forall p : nat -> bool,
    (forall i, In i l -> (i < List.length rs)%nat /\ p i = false) ->
    NoDup l ->
    finish_in (List.length h) rs l (h ++ channels rs p) =
    Some (tt, h ++ channels rs (fun k => existsb (Nat.eqb k) l || p k)).
Proof.
  induction l as [| i l IH]; intros p Hl Hnd.
  - reflexivity.
  - cbn [finish_in]. destruct (Hl i (in_eq _ _)) as [Hi Hp].
    destruct (nth_error rs i) as [r|] eqn:Hr; [| apply nth_error_None in Hr; lia].
    unfold bind. rewrite goroutine_at.
    2: { rewrite nth_error_offset. unfold channels.
         rewrite SetupFacts.nth_error_map_seq by exact Hi. rewrite Hp. reflexivity. }
    rewrite set_nth_offset. unfold channels at 1.
    rewrite SetupFacts.set_nth_map_seq by exact Hi. cbn [Nat.add].
    inversion Hnd as [| x l' Hnotin Hnd']; subst.
    assert (Hch : map (fun k => if (k =? i)%nat then finished r
                                else if p k then finished (nth k rs None) else fresh)
                      (seq 0 (List.length rs))
                  = channels rs (fun k => (k =? i)%nat || p k)).
    { unfold channels. apply map_ext. intros k.
      destruct (Nat.eqb_spec k i) as [-> | Hne]; [| reflexivity].
      cbn [orb]. rewrite (nth_error_nth _ _ _ Hr). reflexivity. }
    rewrite Hch. rewrite IH; [| | exact Hnd'].
    + do 3 f_equal. apply channels_ext. intros k _. cbn [existsb].
      destruct (k =? i)%nat, (existsb (Nat.eqb k) l), (p k); reflexivity.
    + intros i' Hi'. destruct (Hl i' (in_cons _ _ _ Hi')) as [H1 H2]. split; [exact H1|].
      rewrite H2. destruct (Nat.eqb_spec i' i); [subst; contradiction | reflexivity].
Qed.

(** The tasks forked and finished in any order leave the channels as
    when they finish in the order they were forked. *)
Lemma fork_finish_in_eq (rs : list (error E)) (order : list nat) (h : store E) :
  Permutation order (seq 0 (List.length rs)) ->
  fork_finish_in rs order h =
  Some (map newChannelJoiner (seq (List.length h) (List.length rs)), h ++ map finished rs).
Proof.
  intros Hperm. unfold fork_finish_in, bind at 1.
  rewrite ConsoleFacts.Fork_all_eq. unfold bind at 1.
  rewrite <- channels_none. rewrite finish_in_eq.
  - unfold ret. rewrite map_map. cbn [fst]. do 3 f_equal.
    apply channels_all. intros k Hk. rewrite orb_false_r.
    apply existsb_exists. exists k. split; [| apply Nat.eqb_refl].
    apply (Permutation_in _ (Permutation_sym Hperm)). apply in_seq. lia.
  - intros i Hi. apply (Permutation_in _ Hperm) in Hi. apply in_seq in Hi.
    split; [lia | reflexivity].
  - apply (Permutation_NoDup (Permutation_sym Hperm)). apply seq_NoDup.
Qed.

(** The loop of [Join] over two lists of joiners. *)
Lemma Join_from_app (a b : list (Joiner E)) :
  forall (err : error E) (h : store E),
    Join_from err (a ++ b) h = bind (Join_from err a) (fun e => Join_from e b) h.
Proof.
  induction a as [| j a IH]; intros err h.
  - reflexivity.
  - cbn [app Join_from]. unfold bind in *.
    destruct (Joiner_Join j h) as [[[y|] h1]|]; [apply IH | apply IH | reflexivity].
Qed.

Lemma Wait_from_app (a b : list (Waiter E)) :
  forall (err : error E) (h : store E),
    Wait_from err (a ++ b) h = bind (Wait_from err a) (fun e => Wait_from e b) h.
Proof.
  induction a as [| j a IH]; intros err h.
  - reflexivity.
  - cbn [app Wait_from]. unfold bind in *.
    destruct (Waiter_Wait j h) as [[[y|] h1]|]; [apply IH | apply IH | reflexivity].
Qed.

End WithErrors.

End ForkFacts.

(* ================================================================== *)
(** * Names of jobs and workers *)

Module NameFacts.
Import GoNum Benchmark Spec.
Local Open Scope string_scope.

Lemma append_cancel_l (p a b : string) : p ++ a = p ++ b -> a = b.
Proof.
  induction p as [| c p IH]; cbn; intros H; [exact H|].
  inversion H. auto.
Qed.

Lemma length_append' (a b : string) :
  String.length (a ++ b) = (String.length a + String.length b)%nat.
Proof. induction a as [| c a IH]; cbn; [reflexivity | rewrite IH; reflexivity]. Qed.

Lemma append_cancel_r (s : string) :
  forall a b : string, a ++ s = b ++ s -> a = b.
Proof.
  induction a as [| c a IH]; intros [| d b] H; cbn in H.
  - reflexivity.
  - exfalso. apply (f_equal String.length) in H. cbn in H.
    rewrite length_append' in H. lia.
  - exfalso. apply (f_equal String.length) in H. cbn in H.
    rewrite length_append' in H. lia.
  - inversion H. f_equal. apply IH. assumption.
Qed.

(** Two strings cut at the first occurrence of [c] agree part by part. *)
Lemma split_at_char (c : Ascii.ascii) :
  forall a b x y : string,
    mem_char c a = false -> mem_char c b = false ->
    a ++ String c x = b ++ String c y -> a = b /\ x = y.
Proof.
  induction a as [| u a IH]; intros [| v b] x y Ha Hb H; cbn in *.
  - inversion H. split; reflexivity.
  - inversion H; subst. rewrite Ascii.eqb_refl in Hb. discriminate.
  - inversion H; subst. rewrite Ascii.eqb_refl in Ha. discriminate.
  - inversion H; subst. apply orb_false_iff in Ha, Hb.
    destruct (IH b x y (proj2 Ha) (proj2 Hb) ltac:(assumption)) as [-> ->].
    split; reflexivity.
Qed.

Lemma no_dot_uint (d : Decimal.uint) :
  mem_char dot (DecimalString.NilEmpty.string_of_uint d) = false.
Proof. induction d; cbn; auto. Qed.

Lemma no_dot_Sprintf_d (n : Z) : mem_char dot (Sprintf_d n) = false.
Proof.
  unfold Sprintf_d. destruct (Z.to_int n) as [d | d]; cbn; apply no_dot_uint.
Qed.

Lemma Sprintf_d_inj (i j : Z) : Sprintf_d i = Sprintf_d j -> i = j.
Proof.
  unfold Sprintf_d. intros H. apply DecimalZ.to_int_inj.
  pose proof (DecimalString.NilEmpty.isi (Z.to_int i)) as Hi.
  pose proof (DecimalString.NilEmpty.isi (Z.to_int j)) as Hj.
  rewrite H in Hi. congruence.
Qed.

Lemma getWorkerName_inj (i j : Z) : getWorkerName i = getWorkerName j -> i = j.
Proof.
  unfold getWorkerName. intros H. apply append_cancel_l in H.
  apply Sprintf_d_inj. exact H.
Qed.

Lemma getWorkerAddress_inj (t t' : WorkerTask) (i j : Z) :
  getWorkerAddress t i = getWorkerAddress t' j -> i = j /\ ID (config t) = ID (config t').
Proof.
  unfold getWorkerAddress, getWorkerName. intros H.
  rewrite !ContextFacts.append_assoc' in H. apply append_cancel_l in H.
  change ("." ++ ?x) with (String dot x) in H.
  apply split_at_char in H; try apply no_dot_Sprintf_d.
  destruct H as [H1 H2]. split.
  - apply Sprintf_d_inj. exact H1.
  - apply append_cancel_r in H2. exact H2.
Qed.

Lemma newJobID_inj (testID s1 s2 : string) :
  newJobID testID s1 = newJobID testID s2 -> s1 = s2.
Proof.
  unfold newJobID. intros H. apply append_cancel_l in H.
  change ("-" ++ ?x) with (String dash x) in H. inversion H. reflexivity.
Qed.

End NameFacts.

(* ================================================================== *)
(** * The benchmarks of a suite, one after the other *)

Module SuiteFacts.
Import ListUtil GoNum Benchmark Spec.
Local Open Scope task_scope.

Section World.

Variable w : World.

Lemma setups_snoc (tr : list event) (e : event) :
  setups (tr ++ [e]) = setups tr ++ match e with EvSetupBenchmark b _ => [b] | _ => [] end.
Proof. unfold setups. rewrite flat_map_app. cbn. rewrite app_nil_r. reflexivity. Qed.

(** The result of a benchmark bears its name. *)
Lemma run_fanout_benchmark (bench : string) (calls : list (RunResponse + err))
      (schedule : list nat) (res : result) :
  run_fanout bench calls schedule = Ret (inl res) -> benchmark res = bench.
Proof.
  intros H.
  pose proof (bi_ret bench calls _ (FanoutFacts.binv_reached bench calls schedule)) as Hret.
  rewrite (FanoutFacts.run_fanout_Ret bench calls schedule _ H) in Hret.
  destruct Hret as [_ ->]. reflexivity.
Qed.

(** [runBenchmark] on a task that holds its pool: the benchmark is set up
    once, the pool is kept, and a result bears the name of the
    benchmark. *)
Lemma runBenchmark_returns (bench : string) (t t1 : WorkerTask) (pool : list nat)
      (r : result + err) :
  workers t = Some pool ->
  runBenchmark w bench t = (Ret r, t1) ->
  workers t1 = Some pool /\
  setups (trace t1) = setups (trace t) ++ [bench] /\
  match r with inl res => benchmark res = bench | inr _ => True end.
Proof.
  intros Hw. unfold runBenchmark, bind at 1.
  rewrite (TaskFacts.setupBenchmark_cached w bench t pool Hw).
  destruct (setup_fanout _ _) as [[e|] | |]; try discriminate.
  - unfold ret. intros H. inversion H; subst; clear H. cbn [workers trace].
    rewrite setups_snoc. auto.
  - unfold bind at 1.
    rewrite (TaskFacts.getWorkers_cached w _ pool) by exact Hw.
    unfold bind, get, emit, lift. cbn [config workers trace].
    intros H. inversion H as [[Hr Ht]]; subst t1; clear H. cbn [workers trace].
    rewrite !setups_snoc, app_nil_r. split; [exact Hw|]. split; [reflexivity|].
    destruct r as [res | e]; [| exact I].
    exact (run_fanout_benchmark _ _ _ _ Hr).
Qed.

Lemma run_suite_returns (bs : list string) :
  forall (rs0 : list result) (t t1 : WorkerTask) (pool : list nat)
         (r : list result + err),
    workers t = Some pool ->
    run_suite w bs rs0 t = (Ret r, t1) ->
    match r with
    | inl results =>
        exists new, results = rs0 ++ new /\ map benchmark new = bs /\
                    setups (trace t1) = setups (trace t) ++ bs
    | inr _ =>
        exists pre b post, bs = pre ++ b :: post /\
                           setups (trace t1) = setups (trace t) ++ pre ++ [b]
    end.
Proof.
  induction bs as [| b bs IH]; intros rs0 t t1 pool r Hw H.
  - cbn in H. inversion H; subst. exists []. rewrite !app_nil_r. auto.
  - cbn [run_suite] in H. unfold bind at 1 in H.
    destruct (runBenchmark w b t) as [[rb | |] t2] eqn:Hb; try discriminate.
    destruct (runBenchmark_returns b t t2 pool rb Hw Hb) as (Hw2 & Hs2 & Hname).
    destruct rb as [res | e].
    + specialize (IH (rs0 ++ [res]) t2 t1 pool r Hw2 H).
      destruct r as [results | e].
      * destruct IH as (new & Hres & Hmap & Hs).
        exists (res :: new). rewrite <- app_assoc in Hres. cbn [app] in Hres.
        split; [exact Hres|]. split; [cbn; rewrite Hname, Hmap; reflexivity|].
        rewrite Hs, Hs2, <- app_assoc. reflexivity.
      * destruct IH as (pre & b' & post & Hbs & Hs).
        exists (b :: pre), b', post. split; [rewrite Hbs; reflexivity|].
        rewrite Hs, Hs2, <- !app_assoc. reflexivity.
    + unfold ret in H. inversion H; subst. exists [], b, bs.
      split; [reflexivity | exact Hs2].
Qed.

End World.

End SuiteFacts.

(* ================================================================== *)
(** * The properties of the aggregation and of the dispatch *)

Module AggregateClaims.
Import GoNum Benchmark Spec.

(** C1, as amended. For responses in range (counts and times not negative,
    every duration exact in a float64, request sum below [2^32], latency
    sums below [2^53]) of a pool of [W >= 1] workers, the aggregated result
    has the sum of the request counts, the greatest of the durations, the
    float64 quotient of the requests by the duration in seconds as its
    throughput, and the means of the latencies rounded down to a whole
    nanosecond; and the two workers of the scenario give requests 200,
    duration 2s, throughput 100/s, mean 15ms, and 12, 18, 25 and 30ms for
    the percentiles. *)
Theorem aggregate_in_range :
  (forall (bench : string) (rs : list RunResponse),
      1 <= Z.of_nat (List.length rs) < 2 ^ 53 ->
      in_range rs ->
      benchmark (aggregate bench (Z.of_nat (List.length rs)) rs) = bench /\
      requests (aggregate bench (Z.of_nat (List.length rs)) rs) = total Requests rs /\
      greatest rs_Duration rs (duration (aggregate bench (Z.of_nat (List.length rs)) rs)) /\
      throughput (aggregate bench (Z.of_nat (List.length rs)) rs) =
        Float64.div (Float64.of_int (total Requests rs))
          (Float64.div
             (Float64.of_int (duration (aggregate bench (Z.of_nat (List.length rs)) rs)))
             (Float64.of_int time_Second)) /\
      meanLatency (aggregate bench (Z.of_nat (List.length rs)) rs) =
        total Latency rs / Z.of_nat (List.length rs) /\
      latencyPercentiles (aggregate bench (Z.of_nat (List.length rs)) rs) =
        [(k50, total Latency50 rs / Z.of_nat (List.length rs));
         (k75, total Latency75 rs / Z.of_nat (List.length rs));
         (k95, total Latency95 rs / Z.of_nat (List.length rs));
         (k99, total Latency99 rs / Z.of_nat (List.length rs))])
  /\
  aggregate "Get" 2 [worker0; worker1] =
    {| benchmark := "Get"; requests := 200; duration := 2 * time_Second;
       throughput := Float64.of_int 100; meanLatency := ms 15;
       latencyPercentiles := [(k50, ms 12); (k75, ms 18); (k95, ms 25); (k99, ms 30)] |}.
Proof.
  split; [| vm_compute; reflexivity].
  intros bench rs HW [Hf Hreq Hl Hl50 Hl75 Hl95 Hl99].
  set (W := Z.of_nat (List.length rs)) in *.
  assert (Hdur : forall r, In r rs -> exact (rs_Duration r)) by (intros r Hr; apply (Hf r Hr)).
  assert (Hfold : fold_left accumulate rs sums0 = summed sums0 rs).
  { apply AggregateFacts.fold_accumulate; [apply AggregateFacts.reduced_sums0 | unfold exact; cbn; lia | exact Hdur]. }
  assert (N0 : 0 <= total Requests rs) by (apply AggregateFacts.total_nonneg; intros r Hr; apply (Hf r Hr)).
  assert (N1 : 0 <= total Latency rs) by (apply AggregateFacts.total_nonneg; intros r Hr; apply (Hf r Hr)).
  assert (N2 : 0 <= total Latency50 rs) by (apply AggregateFacts.total_nonneg; intros r Hr; apply (Hf r Hr)).
  assert (N3 : 0 <= total Latency75 rs) by (apply AggregateFacts.total_nonneg; intros r Hr; apply (Hf r Hr)).
  assert (N4 : 0 <= total Latency95 rs) by (apply AggregateFacts.total_nonneg; intros r Hr; apply (Hf r Hr)).
  assert (N5 : 0 <= total Latency99 rs) by (apply AggregateFacts.total_nonneg; intros r Hr; apply (Hf r Hr)).
  assert (Hrq : s_requests (summed sums0 rs) = total Requests rs).
  { cbn. apply AggregateFacts.uint32_small. lia. }
  unfold aggregate. rewrite Hfold. cbn [benchmark requests duration throughput meanLatency latencyPercentiles].
  rewrite AggregateFacts.percentiles_four. rewrite Hrq.
  cbn [summed s_latencySum s_latency50Sum s_latency75Sum s_latency95Sum s_latency99Sum
       s_duration sums0].
  rewrite !AggregateFacts.mean_of_int64 by lia.
  split; [reflexivity|]. split; [reflexivity|]. split; [| auto].
  (* the duration is the greatest of the workers' *)
  destruct (AggregateFacts.fold_max_spec (map rs_Duration rs) 0) as (M0 & Mub & Min).
  unfold greatest. split.
  - destruct Min as [Hz | Hin]; [| exact Hin].
    destruct rs as [| r rs']; [cbn in HW; lia|].
    assert (Hr0 : rs_Duration r = 0).
    { specialize (Mub (rs_Duration r) (in_eq _ _)).
      destruct (Hdur r (in_eq _ _)) as [Hlo _]. lia. }
    rewrite Hz. left. exact Hr0.
  - intros r Hr. apply Mub. apply in_map. exact Hr.
Qed.

Lemma aggregate_in_range_witness :
  in_range [worker0; worker1] /\
  meanLatency (aggregate "Get" (Z.of_nat (List.length [worker0; worker1])) [worker0; worker1]) =
    total Latency [worker0; worker1] / Z.of_nat (List.length [worker0; worker1]).
Proof.
  assert (R : in_range [worker0; worker1]).
  { constructor;
      [ intros r [<- | [<- | []]]; unfold exact; vm_compute; intuition discriminate
      | vm_compute; reflexivity .. ]. }
  split; [exact R|].
  apply (proj1 aggregate_in_range "Get"%string [worker0; worker1]); [vm_compute; intuition discriminate | exact R].
Defined.

(** C1, as stated, fails: two workers reporting [2^31] requests each give a
    total of 0, not [2^32]; and latencies of 1ns and 2ns give a mean of
    1ns, which is not their arithmetic mean. *)
Lemma aggregate_wraps_and_rounds :
  requests (aggregate "Get" 2 [heavy0; heavy1]) = 0 /\
  total Requests [heavy0; heavy1] = 4294967296 /\
  meanLatency (aggregate "Get" 2 [heavy0; heavy1]) = 1 /\
  total Latency [heavy0; heavy1] = 3.
Proof. vm_compute. repeat split. Qed.




(** C2, as amended. For a pool of [W >= 1] workers and a total [N >= 0]
    with [N / W < 2^32], every worker is sent [N / W] requests, so the sum
    is [N - N mod W], short of [N] by at most [W - 1]. *)
Theorem dispatch_equal_shares :
  forall (A : Type) (c : Config) (bench : string) (pool : list A),
    1 <= Z.of_nat (List.length pool) ->
    0 <= Iterations c ->
    Iterations c / Z.of_nat (List.length pool) < 2 ^ 32 ->
    List.length (dispatch c bench pool) = List.length pool /\
    (forall rq, In rq (dispatch c bench pool) ->
           rq_Requests rq = Iterations c / Z.of_nat (List.length pool)) /\
    dispatched (dispatch c bench pool) =
      Iterations c - Iterations c mod Z.of_nat (List.length pool) /\
    0 <= Iterations c - dispatched (dispatch c bench pool)
      <= Z.of_nat (List.length pool) - 1.
Proof.
  intros A c bench pool HW HN Hq.
  set (W := Z.of_nat (List.length pool)) in *.
  set (N := Iterations c) in *.
  assert (Hshare : rq_Requests (runRequest c bench W) = N / W).
  { cbn. unfold int_div. fold N. rewrite Z.quot_div_nonneg by lia.
    apply AggregateFacts.uint32_small. split; [apply Z.div_pos; lia | exact Hq]. }
  assert (Hsum : forall l : list A,
            dispatched (map (fun _ => runRequest c bench W) l) =
            Z.of_nat (List.length l) * (N / W)).
  { induction l as [| x l IH]; [reflexivity|].
    unfold dispatched in *. cbn [map fold_right List.length]. rewrite IH, Hshare. lia. }
  unfold dispatch. fold W.
  split; [apply length_map|].
  split.
  { intros rq Hin. apply in_map_iff in Hin. destruct Hin as (x & <- & _). exact Hshare. }
  rewrite Hsum. fold W.
  pose proof (Z.div_mod N W ltac:(lia)) as Hdm.
  pose proof (Z.mod_pos_bound N W ltac:(lia)) as Hmod.
  lia.
Qed.

Lemma dispatch_equal_shares_witness :
  dispatched (dispatch (scenario_config 201 None) "Get" [0%nat; 1%nat]) =
  Iterations (scenario_config 201 None)
  - Iterations (scenario_config 201 None) mod Z.of_nat (List.length [0%nat; 1%nat]).
Proof.
  apply (dispatch_equal_shares nat (scenario_config 201 None) "Get" [0%nat; 1%nat]);
    vm_compute; intuition discriminate.
Defined.

(** C2, as stated, fails: with a total of [2^33] for two workers, the
    count sent to each worker is [uint32(2^32) = 0], and the sum is 0. *)
Lemma dispatch_narrows :
  dispatched (dispatch (scenario_config 8589934592 None) "Get" [0%nat; 1%nat]) = 0 /\
  Iterations (scenario_config 8589934592 None)
  - Iterations (scenario_config 8589934592 None) mod 2 = 8589934592.
Proof. vm_compute. split; reflexivity. Qed.

End AggregateClaims.

(* ================================================================== *)
(** * The properties of Join and Wait *)

Module ConsoleClaims.
Import Console.




End ConsoleClaims.

(* ================================================================== *)
(** * The properties of a WorkerTask *)

Module TaskClaims.
Import GoNum Benchmark Spec.

(** X28. When the phases of [runBenchmarks] have succeeded with the results
    [results], [runBenchmarks] returns what the threshold check gives: a
    threshold-violation error when [MaxLatency] is configured and the mean
    latency of some result reaches it, no error when [MaxLatency] is not
    configured or every mean latency stays below it. *)
Theorem runBenchmarks_threshold :
  forall (w : World) (t t1 : WorkerTask) (results : list result),
    run_all w t = (Ret (inl results), t1) ->
    fst (runBenchmarks w t) = Ret (check_latency (MaxLatency (config t)) results) /\
    (forall m, MaxLatency (config t) = Some m ->
               (exists r, In r results /\ m <= meanLatency r) ->
               exists meanMs,
                 fst (runBenchmarks w t) = Ret (Some (LatencyExceeded meanMs (Some m)))) /\
    (MaxLatency (config t) = None \/
     (exists m, MaxLatency (config t) = Some m /\
                forall r, In r results -> meanLatency r < m) ->
     fst (runBenchmarks w t) = Ret None).
Proof.
  intros w t t1 results Hall.
  assert (Hcfg : config t1 = config t).
  { pose proof (TaskFacts.steady_run_all w t) as [H _]. rewrite Hall in H. exact H. }
  assert (Hrun : fst (runBenchmarks w t) = Ret (check_latency (MaxLatency (config t)) results)).
  { unfold runBenchmarks, bind at 1. rewrite Hall. cbn. rewrite Hcfg. reflexivity. }
  split; [exact Hrun|]. rewrite Hrun. split.
  - intros m Hm Hex. rewrite Hm.
    destruct (TaskFacts.check_latency_reached m results Hex) as (meanMs & Heq).
    exists meanMs. rewrite Heq. reflexivity.
  - intros [Hnone | (m & Hm & Hlt)].
    + rewrite Hnone, TaskFacts.check_latency_none. reflexivity.
    + rewrite Hm, TaskFacts.check_latency_below by exact Hlt. reflexivity.
Qed.

Lemma runBenchmarks_threshold_witness :
  run_all (scenario_world None None) (newWorkerTask (scenario_config 200 (Some (ms 10)))) =
    (Ret (inl [scenario_result]),
     snd (run_all (scenario_world None None)
                  (newWorkerTask (scenario_config 200 (Some (ms 10)))))) /\
  fst (runBenchmarks (scenario_world None None)
                     (newWorkerTask (scenario_config 200 (Some (ms 10))))) =
    Ret (check_latency (MaxLatency (config (newWorkerTask (scenario_config 200 (Some (ms 10))))))
                       [scenario_result]).
Proof.
  assert (H : run_all (scenario_world None None)
                      (newWorkerTask (scenario_config 200 (Some (ms 10)))) =
              (Ret (inl [scenario_result]),
               snd (run_all (scenario_world None None)
                            (newWorkerTask (scenario_config 200 (Some (ms 10))))))).
  { vm_compute. reflexivity. }
  split; [exact H|].
  exact (proj1 (runBenchmarks_threshold _ _ _ _ H)).
Defined.

(** X26. With the pool connected, [setupWorkers] and [setupBenchmark] never
    return the error of a call, under any schedule; and when every call
    fails (as the one call of a pool of one worker that fails) they do not
    return at all: each goroutine waits in [errCh <- err] for a receiver,
    and the function waits in [wg.Wait()] for the goroutines. *)
Theorem setup_error_deadlocks :
  forall (w : World) (t : WorkerTask) (pool : list nat) (bench : string),
    workers t = Some pool ->
    pool <> [] ->
    (forall e, fst (setupWorkers w t) = Ret e -> e = None) /\
    (forall e, fst (setupBenchmark w bench t) = Ret e -> e = None) /\
    ((forall i, SetupWorker w i <> None) -> fst (setupWorkers w t) = Pending) /\
    ((forall i, SetupBenchmark w bench i <> None) ->
     fst (setupBenchmark w bench t) = Pending).
Proof.
  intros w t pool bench Hw Hne.
  assert (HW : fst (setupWorkers w t) =
               setup_fanout (map (SetupWorker w) pool) (sched_setupWorkers w)).
  { rewrite (TaskFacts.setupWorkers_cached w t pool Hw). reflexivity. }
  assert (HB : fst (setupBenchmark w bench t) =
               setup_fanout (map (SetupBenchmark w bench) pool) (sched_setupBenchmark w bench)).
  { rewrite (TaskFacts.setupBenchmark_cached w bench t pool Hw). reflexivity. }
  rewrite HW, HB.
  assert (Hmap : forall (f : nat -> error), map f pool <> []).
  { intros f. destruct pool; [congruence | discriminate]. }
  split; [intros e; apply SetupFacts.setup_fanout_nil|].
  split; [intros e; apply SetupFacts.setup_fanout_nil|].
  split; intros Hfail; apply SetupFacts.setup_fanout_deadlock; try apply Hmap;
    intros r Hr; apply in_map_iff in Hr; destruct Hr as (i & <- & _); apply Hfail.
Qed.

Lemma setup_error_deadlocks_witness :
  fst (setupWorkers failing_world
         {| config := one_worker_config; workers := Some [0%nat]; trace := [] |}) = Pending.
Proof.
  apply (setup_error_deadlocks failing_world
           {| config := one_worker_config; workers := Some [0%nat]; trace := [] |}
           [0%nat] "Get"%string); [reflexivity | discriminate | discriminate].
Defined.

(** X27. When the pool is provisioned and connected, the suite is set up,
    and every [SetupWorker] call fails, [Run] does not return and
    [tearDown] is never called: a failing setup phase skips the teardown. *)
Theorem Run_skips_tearDown :
  forall (w : World) (c : Config),
    1 <= Workers c ->
    CreateNamespace w = None ->
    IterAsync_createWorker w = None ->
    (forall i, Dial w i = None) ->
    SetupSuite w = None ->
    (forall i, SetupWorker w i <> None) ->
    fst (Run w (newWorkerTask c)) = Pending /\
    teardowns (snd (Run w (newWorkerTask c))) = 0%nat.
Proof.
  intros w c HW Hns Hcw Hd Hss Hsw.
  assert (Hrun : fst (run w (newWorkerTask c)) = Pending)
    by (apply TaskFacts.run_waits_in_setupWorkers; assumption).
  split.
  - rewrite TaskFacts.Run_eq. destruct (run w (newWorkerTask c)) as [[e | |] t1];
      cbn in Hrun; try discriminate. reflexivity.
  - rewrite TaskFacts.Run_eq. pose proof (TaskFacts.steady_run w (newWorkerTask c)) as [_ Hs].
    destruct (run w (newWorkerTask c)) as [[e | |] t1]; cbn in Hrun; try discriminate.
    cbn [snd] in *. rewrite Hs. reflexivity.
Qed.

Lemma Run_skips_tearDown_witness :
  fst (Run failing_world (newWorkerTask one_worker_config)) = Pending /\
  teardowns (snd (Run failing_world (newWorkerTask one_worker_config))) = 0%nat.
Proof.
  apply Run_skips_tearDown;
    [cbn; lia | reflexivity | reflexivity | reflexivity | reflexivity | discriminate].
Defined.


End TaskClaims.

(* ================================================================== *)
(** * The coordinator: runWorkers and Coordinator.Run *)

Module CoordinatorProps.
Import ListUtil GoNum Benchmark Spec.

(** X1. When no task's [Run] panics, [runWorkers] does not panic either,
    under any schedule and whatever the tasks return: no goroutine sends
    on a closed channel, no channel is closed twice, and the counter of
    the wait group is the number of goroutines that have not called
    [wg.Done()] yet, so it is never negative. *)
Theorem runWorkers_never_panics :
  forall (runs : list (outcome (Z * error))) (schedule : list nat),
    (forall i, nth_error runs i <> Some Panic) ->
    wc_panic (runWorkers_conf runs schedule) = false /\
    wc_wg (runWorkers_conf runs schedule) =
      Z.of_nat (active (wc_go (runWorkers_conf runs schedule))) /\
    (runWorkers runs schedule = Pending \/ exists r, runWorkers runs schedule = Ret r).
Proof.
  intros runs schedule Hruns.
  destruct (WorkersFacts.wsafe_reached runs schedule Hruns) as [Hinv (Hp & _)].
  split; [exact Hp|]. split; [exact (wi_wg runs _ Hinv)|].
  apply WorkersFacts.runWorkers_not_Panic. exact Hruns.
Qed.

Lemma runWorkers_never_panics_witness :
  wc_panic (runWorkers_conf two_suites full_schedule) = false /\
  wc_wg (runWorkers_conf two_suites full_schedule) =
    Z.of_nat (active (wc_go (runWorkers_conf two_suites full_schedule))) /\
  (runWorkers two_suites full_schedule = Pending \/
   exists r, runWorkers two_suites full_schedule = Ret r).
Proof.
  apply (runWorkers_never_panics two_suites full_schedule).
  intros [| [| [| i]]]; discriminate.
Defined.

(** X2. When [runWorkers] returns an error, it is the error some task's
    [Run] returned, and it is the first error that was delivered: the
    errors of the tasks, in the order the tasks delivered, start with
    it. *)
Theorem runWorkers_returns_first_error :
  forall (runs : list (outcome (Z * error))) (schedule : list nat) (e : err),
    runWorkers runs schedule = Ret (Returns (Some e)) ->
    (exists i status, nth_error runs i = Some (Ret (status, Some e))) /\
    (exists rest,
        errors_of runs (wc_arrived (runWorkers_conf runs schedule)) = e :: rest).
Proof.
  intros runs schedule e H. split.
  - exact (WorkersFacts.error_from_task runs schedule e H).
  - exact (WorkersFacts.returns_error runs schedule e H).
Qed.

Lemma runWorkers_returns_first_error_witness :
  runWorkers failing_suites early_schedule = Ret (Returns (Some (ExternalError 14))) /\
  (exists i status,
      nth_error failing_suites i = Some (Ret (status, Some (ExternalError 14)))) /\
  (exists rest,
      errors_of failing_suites (wc_arrived (runWorkers_conf failing_suites early_schedule)) =
      ExternalError 14 :: rest).
Proof.
  split; [reflexivity|].
  apply (runWorkers_returns_first_error failing_suites early_schedule (ExternalError 14)).
  reflexivity.
Defined.

(** X3. [runWorkers] does not wait for the tasks before it returns an
    error: whenever some task returns an error, there is a schedule under
    which [runWorkers] returns that error while no other task has
    finished its [Run]. *)
Theorem runWorkers_returns_before_tasks_end :
  forall (runs : list (outcome (Z * error))) (i : nat) (status : Z) (e : err),
    nth_error runs i = Some (Ret (status, Some e)) ->
    runWorkers runs (hasty_schedule (List.length runs) i) = Ret (Returns (Some e)) /\
    (forall j, j <> i ->
               task_finished (runWorkers_conf runs (hasty_schedule (List.length runs) i)) j
               = false).
Proof.
  intros runs i status e Hn.
  pose proof (WorkersFacts.hasty_conf runs i status e Hn) as Hc.
  split.
  - unfold runWorkers. rewrite Hc. reflexivity.
  - intros j Hj. rewrite Hc. unfold task_finished. cbn [wc_go].
    rewrite !WorkersFacts.nth_error_set_nth_neq by congruence.
    destruct (Nat.lt_ge_cases j (List.length runs)) as [Hlt | Hge].
    + rewrite WorkersFacts.nth_error_repeat_lt by exact Hlt. reflexivity.
    + assert (Hnone : nth_error (repeat WgRun (List.length runs)) j = None)
        by (apply nth_error_None; rewrite repeat_length; exact Hge).
      rewrite Hnone. reflexivity.
Qed.

Lemma runWorkers_returns_before_tasks_end_witness :
  nth_error failing_suites 0 = Some (Ret (0, Some (ExternalError 14))) /\
  runWorkers failing_suites (hasty_schedule 2 0) = Ret (Returns (Some (ExternalError 14))) /\
  task_finished (runWorkers_conf failing_suites (hasty_schedule 2 0)) 1 = false.
Proof.
  split; [reflexivity|].
  destruct (runWorkers_returns_before_tasks_end
              failing_suites 0%nat 0 (ExternalError 14) eq_refl) as [H1 H2].
  split; [exact H1 | apply H2; discriminate].
Defined.

(** X4. [runWorkers] returns [nil] only when every task has returned the
    status 0 and no error. *)
Theorem runWorkers_nil_all_zero :
  forall (runs : list (outcome (Z * error))) (schedule : list nat) (i : nat),
    runWorkers runs schedule = Ret (Returns None) ->
    (i < List.length runs)%nat ->
    nth_error runs i = Some (Ret (0, None)).
Proof.
  intros runs schedule i H Hi.
  exact (WorkersFacts.returns_nil_runs runs schedule i H Hi).
Qed.

Lemma runWorkers_nil_all_zero_witness :
  runWorkers quiet_suites full_schedule = Ret (Returns None) /\
  nth_error quiet_suites 1 = Some (Ret (0, None)).
Proof.
  split; [reflexivity|].
  apply (runWorkers_nil_all_zero quiet_suites full_schedule 1%nat);
    [reflexivity | cbn; lia].
Defined.

(** X5. [runWorkers] ends the process with [os.Exit(code)] only when every
    task has returned without an error; the code is not 0, it is the
    status of some task, and every status delivered before it is 0. *)
Theorem runWorkers_exit_code :
  forall (runs : list (outcome (Z * error))) (schedule : list nat) (code : Z),
    runWorkers runs schedule = Ret (Exits code) ->
    (code =? 0) = false /\
    (exists i, nth_error runs i = Some (Ret (code, None))) /\
    (exists zeros rest,
        codes_of runs (wc_arrived (runWorkers_conf runs schedule)) = zeros ++ code :: rest /\
        Forall (fun z => z = 0) zeros) /\
    (forall i, (i < List.length runs)%nat ->
               exists status, nth_error runs i = Some (Ret (status, None))).
Proof.
  intros runs schedule code H.
  destruct (WorkersFacts.exits_runs runs schedule code H) as (Hne & Hz & Hall).
  destruct (WorkersFacts.exit_code_from_task runs schedule code H) as (_ & Hi).
  repeat split; assumption.
Qed.

Lemma runWorkers_exit_code_witness :
  runWorkers two_suites full_schedule = Ret (Exits 2) /\
  (2 =? 0) = false /\
  (exists i, nth_error two_suites i = Some (Ret (2, None))).
Proof.
  split; [reflexivity|].
  destruct (runWorkers_exit_code two_suites full_schedule 2 eq_refl) as (H1 & H2 & _).
  split; [exact H1 | exact H2].
Defined.

(** X6. When every task's [Run] returns, [runWorkers] does not deadlock:
    under every schedule, either it has ended (it has returned, or ended
    the process) or some thread can make a step; and [n] tasks make at
    most [5 n + 8] steps, so a schedule that always picks a thread able to
    step ends the function within that many steps. *)
Theorem runWorkers_terminates :
  forall (runs : list (outcome (Z * error))) (schedule : list nat),
    returning runs ->
    ((exists r, runWorkers runs schedule = Ret r) \/
     (exists tid c', wstep runs tid (runWorkers_conf runs schedule) = Some c')) /\
    (steps_made (wstep runs) schedule winit <= 5 * List.length runs + 8)%nat.
Proof.
  intros runs schedule Hret.
  pose proof (WorkersFacts.returning_no_Panic runs Hret) as Hruns.
  destruct (WorkersFacts.wlive_reached runs schedule Hruns) as (Hinv & Hsafe & Hlive).
  split.
  - destruct (WorkersFacts.runWorkers_not_Panic runs schedule Hruns) as [H | H];
      [| left; exact H].
    right. exact (WorkersFacts.wprogress runs _ Hret Hinv Hsafe Hlive H).
  - pose proof (WorkersFacts.wsteps_bound runs schedule Hruns winit
                  (WorkersFacts.winv_init runs) WorkersFacts.wsafe_init) as Hb.
    unfold wmeasure at 2 in Hb. cbn in Hb. lia.
Qed.

Lemma runWorkers_terminates_witness :
  ((exists r, runWorkers two_suites full_schedule = Ret r) \/
   (exists tid c', wstep two_suites tid (runWorkers_conf two_suites full_schedule) = Some c')) /\
  (steps_made (wstep two_suites) full_schedule winit <= 5 * List.length two_suites + 8)%nat.
Proof.
  apply (runWorkers_terminates two_suites full_schedule).
  intros r [<- | [<- | []]]; eexists; reflexivity.
Defined.

(** X7. [Coordinator.Run] never ends the process through [os.Exit]: the
    status [WorkerTask.Run] returns is always 0, so under every schedule,
    for every registry and whatever the collaborators answer, the call is
    still waiting, or has returned, or a task has panicked. *)
Theorem Coordinator_Run_never_exits :
  forall (registered : list string) (worlds : string -> World) (c : Config)
         (schedule : list nat),
    Coordinator_Run registered worlds c schedule = Pending \/
    Coordinator_Run registered worlds c schedule = Panic \/
    exists e, Coordinator_Run registered worlds c schedule = Ret (Returns e).
Proof.
  intros registered worlds c schedule. unfold Coordinator_Run.
  set (runs := map _ (Coordinator_tasks registered c)).
  destruct (WorkersFacts.runWorkers_cases runs schedule) as [H | [H | [[e | code] H]]]; auto.
  - right. right. exists e. exact H.
  - exfalso.
    destruct (WorkersFacts.exit_code_from_task runs schedule code H) as (Hne & i & Hi).
    unfold runs in Hi. rewrite nth_error_map in Hi.
    destruct (nth_error (Coordinator_tasks registered c) i) as [t|]; [| discriminate].
    cbn in Hi. inversion Hi as [Hr].
    apply TaskFacts.task_Run_zero in Hr. subst code. discriminate.
Qed.

(** X8. A suite whose workers cannot be set up hangs the coordinator: when
    every suite that is run has its pool provisioned and connected and its
    [SetupWorker] calls fail, [Coordinator.Run] never returns, under any
    schedule. *)
Theorem Coordinator_Run_hangs :
  forall (registered : list string) (worlds : string -> World) (c : Config)
         (schedule : list nat),
    1 <= Workers c ->
    Coordinator_tasks registered c <> [] ->
    (forall s, CreateNamespace (worlds s) = None /\
               IterAsync_createWorker (worlds s) = None /\
               (forall i, Dial (worlds s) i = None) /\
               SetupSuite (worlds s) = None /\
               (forall i, SetupWorker (worlds s) i <> None)) ->
    Coordinator_Run registered worlds c schedule = Pending.
Proof.
  intros registered worlds c schedule HW Hne Hfail. unfold Coordinator_Run.
  set (runs := map _ (Coordinator_tasks registered c)).
  assert (Hnone : forall i r, nth_error runs i = Some r -> r = Pending).
  { intros i r Hi. unfold runs in Hi. rewrite nth_error_map in Hi.
    destruct (nth_error (Coordinator_tasks registered c) i) as [t|] eqn:Ht;
      [| discriminate].
    cbn in Hi. inversion Hi as [Hr]. clear Hi.
    apply nth_error_In in Ht. unfold Coordinator_tasks in Ht.
    apply in_map_iff in Ht. destruct Ht as (s & <- & _).
    destruct (Hfail (Suite (config (newWorkerTask
               {| ID := newJobID (ID c) s; Suite := s; Benchmark := Benchmark c;
                  Workers := Workers c; Parallelism := Parallelism c;
                  Iterations := Iterations c; Duration := Duration c;
                  MaxLatency := MaxLatency c; Args := Args c |}))))
      as (H1 & H2 & H3 & H4 & H5).
    apply TaskFacts.task_Run_Pending. apply TaskFacts.Run_Pending.
    apply TaskFacts.run_waits_in_setupWorkers; assumption. }
  assert (H0 : nth_error runs 0 = Some Pending).
  { destruct runs as [| r runs'] eqn:Hr.
    - unfold runs in Hr. apply map_eq_nil in Hr. contradiction.
    - cbn. rewrite (Hnone 0%nat r eq_refl). reflexivity. }
  assert (Hruns : forall i, nth_error runs i <> Some Panic).
  { intros i Hi. specialize (Hnone i _ Hi). discriminate. }
  destruct (WorkersFacts.runWorkers_not_Panic runs schedule Hruns) as [H | [r H]];
    [exact H|].
  destruct (WorkersFacts.waits_for_all runs schedule 0%nat H0) as [H' | [H' | [e H']]];
    try congruence.
  destruct (WorkersFacts.error_from_task runs schedule e H') as (j & status & Hj).
  specialize (Hnone j _ Hj). discriminate.
Qed.

Lemma Coordinator_Run_hangs_witness :
  Coordinator_Run [] (fun _ => failing_world) one_worker_config full_schedule = Pending.
Proof.
  apply (Coordinator_Run_hangs [] (fun _ => failing_world) one_worker_config full_schedule).
  - cbn. lia.
  - discriminate.
  - intros s. repeat split; try reflexivity; discriminate.
Defined.

End CoordinatorProps.

(* ================================================================== *)
(** * WorkerTask: Run, run and getWorkers *)

Module TaskProps.
Import ListUtil GoNum Benchmark Spec.

(** X9. Whenever [WorkerTask.Run] returns, [tearDown] has been called
    exactly once more than before, it is the last call the task has made,
    and the configuration of the task is as it was. *)
Theorem Run_tears_down_last :
  forall (w : World) (t t' : WorkerTask) (r : Z * error),
    Run w t = (Ret r, t') ->
    teardowns t' = S (teardowns t) /\
    (exists before, trace t' = before ++ [EvDeleteNamespace]) /\
    config t' = config t.
Proof.
  intros w t t' r H. rewrite TaskFacts.Run_eq in H.
  pose proof (TaskFacts.steady_run w t) as [Hc Hs].
  destruct (run w t) as [[e | |] t1]; cbn [snd] in *; inversion H; subst; clear H.
  rewrite TaskFacts.teardowns_snoc. cbn [trace config].
  split; [congruence|]. split; [eauto | exact Hc].
Qed.

Lemma Run_tears_down_last_witness :
  Run (scenario_world None None) (newWorkerTask (scenario_config 200 None)) =
    (Ret (0, None),
     snd (Run (scenario_world None None) (newWorkerTask (scenario_config 200 None)))) /\
  teardowns (snd (Run (scenario_world None None)
                      (newWorkerTask (scenario_config 200 None)))) = 1%nat.
Proof.
  assert (H : Run (scenario_world None None) (newWorkerTask (scenario_config 200 None)) =
              (Ret (0, None),
               snd (Run (scenario_world None None)
                        (newWorkerTask (scenario_config 200 None)))))
    by (vm_compute; reflexivity).
  split; [exact H|].
  exact (proj1 (Run_tears_down_last _ _ _ _ H)).
Defined.

(** X10. When the namespace cannot be created, or the workers cannot be
    started, [WorkerTask.Run] returns that error with the status 0 after
    one [tearDown]: no connection is made and no worker is called. *)
Theorem Run_stops_at_failed_provisioning :
  forall (w : World) (c : Config) (e : err),
    CreateNamespace w = Some e \/
    (CreateNamespace w = None /\ IterAsync_createWorker w = Some e) ->
    fst (Run w (newWorkerTask c)) = Ret (0, Some e) /\
    (trace (snd (Run w (newWorkerTask c))) = [EvCreateNamespace; EvDeleteNamespace] \/
     trace (snd (Run w (newWorkerTask c))) =
       [EvCreateNamespace; EvCreateWorkers (Workers c); EvDeleteNamespace]) /\
    workers (snd (Run w (newWorkerTask c))) = None.
Proof.
  intros w c e [Hns | [Hns Hcw]].
  - unfold Run, bind at 1, run, bind at 1, emit. rewrite Hns.
    cbn. repeat split. left. reflexivity.
  - unfold Run, bind at 1, run, bind at 1, emit. rewrite Hns.
    unfold bind at 1, createWorkers, bind at 1, get, bind at 1, emit, ret at 1.
    rewrite Hcw. cbn. repeat split. right. reflexivity.
Qed.

Lemma Run_stops_at_failed_provisioning_witness :
  fst (Run (with_CreateNamespace (Some (ExternalError 14)) failing_world)
           (newWorkerTask one_worker_config)) = Ret (0, Some (ExternalError 14)) /\
  workers (snd (Run (with_CreateNamespace (Some (ExternalError 14)) failing_world)
                    (newWorkerTask one_worker_config))) = None.
Proof.
  destruct (Run_stops_at_failed_provisioning
              (with_CreateNamespace (Some (ExternalError 14)) failing_world)
              one_worker_config (ExternalError 14) (or_introl eq_refl))
    as (H1 & _ & H3).
  split; [exact H1 | exact H3].
Defined.

(** X11. A task configured with no worker, or with a negative number of
    workers, panics in [runBenchmarks] once the namespace is created and
    the (empty) provisioning has succeeded: [make] panics on a negative
    length and [workers[0]] on the empty pool. [Run] has no deferred call,
    so [tearDown] is not called. *)
Theorem Run_panics_without_workers :
  forall (w : World) (c : Config),
    Workers c <= 0 ->
    CreateNamespace w = None ->
    IterAsync_createWorker w = None ->
    fst (Run w (newWorkerTask c)) = Panic /\
    teardowns (snd (Run w (newWorkerTask c))) = 0%nat.
Proof.
  intros w c HW Hns Hcw.
  assert (Hrun : fst (run w (newWorkerTask c)) = Panic).
  { unfold run, bind at 1, emit. rewrite Hns.
    unfold bind at 1, createWorkers, bind at 1, get, bind at 1, emit, ret at 1.
    rewrite Hcw. unfold bind at 1, runBenchmarks, bind at 1, run_all, bind at 1.
    unfold setupSuite, bind at 1, getWorkers, bind at 1, get.
    cbn [workers newWorkerTask config].
    destruct (Z.ltb_spec (Workers c) 0) as [Hneg | Hz]; [reflexivity|].
    assert (H0 : Workers c = 0) by lia. rewrite H0. reflexivity. }
  rewrite TaskFacts.Run_eq.
  pose proof (TaskFacts.steady_run w (newWorkerTask c)) as [_ Hs].
  destruct (run w (newWorkerTask c)) as [[e | |] t1]; cbn in Hrun; try discriminate.
  cbn [fst snd] in *. split; [reflexivity | rewrite Hs; reflexivity].
Qed.

Lemma Run_panics_without_workers_witness :
  fst (Run failing_world (newWorkerTask no_worker_config)) = Panic /\
  teardowns (snd (Run failing_world (newWorkerTask no_worker_config))) = 0%nat.
Proof.
  apply (Run_panics_without_workers failing_world no_worker_config);
    [cbn; lia | reflexivity | reflexivity].
Defined.

(** X12. [getWorkers] connects once: after a call that returned a pool,
    every further call returns the same pool and makes no connection (the
    task, with the calls it has made, is left as it is). *)
Theorem getWorkers_connects_once :
  forall (w : World) (t t1 : WorkerTask) (ws : list nat),
    getWorkers w t = (Ret (inl ws), t1) ->
    getWorkers w t1 = (Ret (inl ws), t1).
Proof.
  intros w t t1 ws H.
  apply TaskFacts.getWorkers_cached.
  exact (TaskFacts.getWorkers_stores w t t1 ws H).
Qed.

Lemma getWorkers_connects_once_witness :
  getWorkers failing_world
    (snd (getWorkers failing_world (newWorkerTask (scenario_config 200 None)))) =
  (Ret (inl [0; 1]%nat),
   snd (getWorkers failing_world (newWorkerTask (scenario_config 200 None)))).
Proof.
  apply (getWorkers_connects_once failing_world
           (newWorkerTask (scenario_config 200 None))).
  reflexivity.
Defined.

(** X13. When the connection to worker [k] is the first that fails,
    [getWorkers] returns its error after dialling the workers [0] to [k]
    in turn; the later workers are not dialled and no pool is stored, so
    the next call starts again at worker [0]. *)
Theorem getWorkers_stops_at_failed_dial :
  forall (w : World) (t : WorkerTask) (k : nat) (e : err),
    workers t = None ->
    (k < Z.to_nat (Workers (config t)))%nat ->
    (forall j, (j < k)%nat -> Dial w j = None) ->
    Dial w k = Some e ->
    getWorkers w t =
    (Ret (inr e),
     {| config := config t; workers := None;
        trace := trace t ++ map EvDial (seq 0 (S k)) |}).
Proof.
  intros w t k e Hw Hk Hok Hfail.
  unfold getWorkers, bind at 1, get. rewrite Hw.
  destruct (Z.ltb_spec (Workers (config t)) 0) as [Hneg | _]; [lia|].
  unfold bind at 1.
  rewrite (TaskFacts.dial_loop_fails w e _ 0%nat [] t k Hk Hok Hfail).
  cbn [workers]. rewrite Hw. reflexivity.
Qed.

Lemma getWorkers_stops_at_failed_dial_witness :
  getWorkers (with_Dial (fun i => if Nat.eqb i 1 then Some (ExternalError 14) else None)
                        failing_world)
             (newWorkerTask (scenario_config 200 None)) =
  (Ret (inr (ExternalError 14)),
   {| config := scenario_config 200 None; workers := None;
      trace := [EvDial 0; EvDial 1] |}).
Proof.
  apply (getWorkers_stops_at_failed_dial
           (with_Dial (fun i => if Nat.eqb i 1 then Some (ExternalError 14) else None)
                      failing_world)
           (newWorkerTask (scenario_config 200 None)) 1%nat (ExternalError 14)).
  - reflexivity.
  - cbn. lia.
  - intros [| j] Hj; [reflexivity | lia].
  - reflexivity.
Defined.

(** X30. The loop of [runBenchmarks] over the benchmarks of a suite, on a
    task that holds its pool. When it returns the results, every
    benchmark has been set up once, in the order of the suite,
    and there is one result for each, in that order, bearing its name.
    When it returns an error, the benchmarks up to the one that failed
    have been set up in order, and none after it: the first failure ends
    the suite. *)
Theorem run_suite_in_order :
  forall (w : World) (bs : list string) (t t1 : WorkerTask) (pool : list nat)
         (r : list result + err),
    workers t = Some pool ->
    run_suite w bs [] t = (Ret r, t1) ->
    match r with
    | inl results =>
        map benchmark results = bs /\ setups (trace t1) = setups (trace t) ++ bs
    | inr _ =>
        exists pre b post, bs = pre ++ b :: post /\
                           setups (trace t1) = setups (trace t) ++ pre ++ [b]
    end.
Proof.
  intros w bs t t1 pool r Hw H.
  pose proof (SuiteFacts.run_suite_returns w bs [] t t1 pool r Hw H) as Hr.
  destruct r as [results | e]; [| exact Hr].
  destruct Hr as (new & -> & Hmap & Hs). cbn [app]. split; assumption.
Qed.

Lemma run_suite_in_order_witness :
  run_suite (scenario_world None None) ["Get"%string] [] connected_task =
    (Ret (inl [scenario_result]),
     snd (run_suite (scenario_world None None) ["Get"%string] [] connected_task)) /\
  map benchmark [scenario_result] = ["Get"%string] /\
  setups (trace (snd (run_suite (scenario_world None None) ["Get"%string] []
                                connected_task))) =
    setups (trace connected_task) ++ ["Get"%string].
Proof.
  assert (H : run_suite (scenario_world None None) ["Get"%string] [] connected_task =
              (Ret (inl [scenario_result]),
               snd (run_suite (scenario_world None None) ["Get"%string] []
                              connected_task)))
    by (vm_compute; reflexivity).
  split; [exact H|].
  exact (run_suite_in_order (scenario_world None None) ["Get"%string] connected_task _
           [0; 1]%nat (inl [scenario_result]) eq_refl H).
Defined.

End TaskProps.

(* ================================================================== *)
(** * runBenchmark: the fan-out over the pool *)

Module FanoutProps.
Import ListUtil GoNum Benchmark Spec.

(** X14. When the fan-out of [runBenchmark] returns a result, every call
    has returned a response, and the result is the aggregate of all the
    responses, each taken once, in the order they arrived on the channel;
    the divisor of the means is the size of the pool. *)
Theorem run_fanout_aggregates_every_response :
  forall (bench : string) (calls : list (RunResponse + err)) (schedule : list nat)
         (res : result),
    run_fanout bench calls schedule = Ret (inl res) ->
    exists rs,
      Permutation (map inl rs) calls /\
      res = aggregate bench (Z.of_nat (List.length calls)) rs.
Proof.
  intros bench calls schedule res H.
  destruct (FanoutFacts.returned_contents bench calls schedule _ H) as (Hperm & _ & _).
  pose proof (bi_ret bench calls _ (FanoutFacts.binv_reached bench calls schedule)) as Hret.
  rewrite (FanoutFacts.run_fanout_Ret bench calls schedule _ H) in Hret.
  destruct Hret as [Herr Hres].
  exists (items (bc_resultCh (run_fanout_conf bench calls schedule))).
  split; [| exact Hres].
  unfold channel_contents in Hperm. rewrite Herr in Hperm. cbn [map] in Hperm.
  rewrite app_nil_r in Hperm. exact Hperm.
Qed.

Lemma run_fanout_aggregates_every_response_witness :
  run_fanout "Get" answered_calls run_schedule2 = Ret (inl scenario_result) /\
  exists rs,
    Permutation (map inl rs) answered_calls /\
    scenario_result = aggregate "Get" (Z.of_nat (List.length answered_calls)) rs.
Proof.
  assert (H : run_fanout "Get" answered_calls run_schedule2 =
              Ret (inl scenario_result)) by (vm_compute; reflexivity).
  split; [exact H|].
  exact (run_fanout_aggregates_every_response _ _ _ _ H).
Defined.

(** X15. When the fan-out of [runBenchmark] returns an error, it is the
    error one of the calls returned, and every goroutine is over: unlike
    [runWorkers], the function reads the channels only after [wg.Wait()],
    so every call has returned before the error is returned. *)
Theorem run_fanout_error_after_all_calls :
  forall (bench : string) (calls : list (RunResponse + err)) (schedule : list nat)
         (e : err),
    run_fanout bench calls schedule = Ret (inr e) ->
    In (inr e) calls /\
    Forall (fun g => g = BgExit) (bc_go (run_fanout_conf bench calls schedule)) /\
    List.length (bc_go (run_fanout_conf bench calls schedule)) = List.length calls.
Proof.
  intros bench calls schedule e H.
  destruct (FanoutFacts.returned_contents bench calls schedule _ H) as (Hperm & Hall & Hlen).
  pose proof (bi_ret bench calls _ (FanoutFacts.binv_reached bench calls schedule)) as Hret.
  rewrite (FanoutFacts.run_fanout_Ret bench calls schedule _ H) in Hret.
  split; [| split; assumption].
  apply (Permutation_in _ Hperm). unfold channel_contents.
  apply in_or_app. right. apply in_map. exact Hret.
Qed.

Lemma run_fanout_error_after_all_calls_witness :
  run_fanout "Get" refused_calls run_schedule2 =
    Ret (inr (ExternalError 14)) /\
  In (inr (ExternalError 14)) refused_calls /\
  Forall (fun g => g = BgExit)
         (bc_go (run_fanout_conf "Get" refused_calls run_schedule2)) /\
  List.length (bc_go (run_fanout_conf "Get" refused_calls
                                      run_schedule2)) =
    List.length refused_calls.
Proof.
  assert (H : run_fanout "Get" refused_calls run_schedule2 =
              Ret (inr (ExternalError 14))) by (vm_compute; reflexivity).
  split; [exact H|].
  exact (run_fanout_error_after_all_calls _ _ _ _ H).
Defined.

(** X16. The result of the fan-out of [runBenchmark] does not depend on the
    schedule: when every call returns a response whose duration a
    [float64] holds exactly, whatever the order in which the goroutines
    run and deliver, a result that is returned is the aggregate of the
    responses in the order of the pool. *)
Theorem run_fanout_schedule_independent :
  forall (bench : string) (responses : list RunResponse) (schedule : list nat)
         (res : result),
    (forall r, In r responses -> exact (rs_Duration r)) ->
    run_fanout bench (map inl responses) schedule = Ret (inl res) ->
    res = aggregate bench (Z.of_nat (List.length responses)) responses.
Proof.
  intros bench responses schedule res Hd H.
  destruct (FanoutFacts.returned_contents bench _ schedule _ H) as (Hperm & _ & _).
  pose proof (bi_ret bench _ _ (FanoutFacts.binv_reached bench (map inl responses) schedule))
    as Hret.
  rewrite (FanoutFacts.run_fanout_Ret bench _ schedule _ H) in Hret.
  destruct Hret as [Herr Hres].
  unfold channel_contents in Hperm. rewrite Herr in Hperm. cbn [map] in Hperm.
  rewrite app_nil_r in Hperm.
  apply Permutation_sym, Permutation_map_inv in Hperm.
  destruct Hperm as (l3 & Heq & Hp).
  assert (Hinj : forall a b : list RunResponse,
             map (@inl RunResponse err) a = map inl b -> a = b).
  { induction a as [| x a IH]; intros [| y b] Hab; cbn in Hab; try discriminate;
      [reflexivity|]. inversion Hab; subst. f_equal. apply IH. assumption. }
  apply Hinj in Heq. subst l3.
  rewrite Hres, length_map.
  symmetry. apply AggregateFacts.aggregate_reorder; [apply Permutation_sym|]; assumption.
Qed.

Lemma run_fanout_schedule_independent_witness :
  run_fanout "Get" (map inl [worker0; worker1]) run_schedule2 = Ret (inl scenario_result) /\
  scenario_result = aggregate "Get" (Z.of_nat (List.length [worker0; worker1]))
                              [worker0; worker1].
Proof.
  assert (H : run_fanout "Get" (map inl [worker0; worker1]) run_schedule2 =
              Ret (inl scenario_result)) by (vm_compute; reflexivity).
  split; [exact H|].
  apply (run_fanout_schedule_independent "Get" [worker0; worker1] run_schedule2);
    [| exact H].
  intros r [<- | [<- | []]]; unfold exact; vm_compute; intuition discriminate.
Defined.

(** X17. The fan-out of [runBenchmark] never panics and never deadlocks:
    under every schedule and whatever the calls return, either the
    function has returned or some thread can make a step (no goroutine
    waits for room on a channel, each channel having room for one value
    per worker); and a pool of [n] workers makes at most [4 n + 6]
    steps, so a schedule that always picks a thread able to step makes
    the function return within that many steps. *)
Theorem run_fanout_never_deadlocks :
  forall (bench : string) (calls : list (RunResponse + err)) (schedule : list nat),
    bc_panic (run_fanout_conf bench calls schedule) = false /\
    ((exists r, run_fanout bench calls schedule = Ret r) \/
     (exists tid c', bstep bench calls tid (run_fanout_conf bench calls schedule) = Some c')) /\
    (steps_made (bstep bench calls) schedule binit <= 4 * List.length calls + 6)%nat.
Proof.
  intros bench calls schedule.
  pose proof (FanoutFacts.binv_reached bench calls schedule) as Hinv.
  split; [exact (bi_panic bench calls _ Hinv)|]. split.
  - destruct (run_fanout bench calls schedule) as [r | |] eqn:H.
    + left. eauto.
    + right. apply (FanoutFacts.binv_progress bench calls _ Hinv). exact H.
    + exfalso. unfold run_fanout, bresult in H. fold (run_fanout_conf bench calls schedule) in H.
      rewrite (bi_panic bench calls _ Hinv) in H. destruct (bc_main _); discriminate.
  - pose proof (FanoutFacts.steps_bound bench calls schedule binit
                  (FanoutFacts.binv_init bench calls)) as Hb.
    unfold bmeasure at 2 in Hb. cbn in Hb. lia.
Qed.

End FanoutProps.

(* ================================================================== *)
(** * setupWorkers and setupBenchmark: the fan-out over the pool *)

Module SetupProps.
Import ListUtil GoNum Benchmark Spec.

(** X18. When every call succeeds, the fan-out of [setupWorkers] (and of
    [setupBenchmark]) neither panics nor deadlocks: under every schedule,
    either the function has returned [nil] or some thread can make a
    step; and a pool of [n] workers makes at most [4 n + 4] steps, so a
    schedule that always picks a thread able to step makes the function
    return [nil] within that many steps. *)
Theorem setup_fanout_succeeds :
  forall (calls : list error) (schedule : list nat),
    (forall r, In r calls -> r = None) ->
    sc_panic (setup_fanout_conf calls schedule) = false /\
    (setup_fanout calls schedule = Ret None \/
     exists tid c', sstep calls tid (setup_fanout_conf calls schedule) = Some c') /\
    (steps_made (sstep calls) schedule sinit <= 4 * List.length calls + 4)%nat.
Proof.
  intros calls schedule Hok.
  pose proof (SetupFacts.calm_reached calls schedule Hok) as Hinv.
  split; [exact (calm_panic calls _ Hinv)|]. split.
  - destruct (setup_fanout calls schedule) as [e | |] eqn:H.
    + left. rewrite (SetupFacts.setup_fanout_nil calls schedule e H). reflexivity.
    + right. apply (SetupFacts.calm_progress calls _ Hinv). exact H.
    + exfalso. unfold setup_fanout, sresult in H.
      fold (setup_fanout_conf calls schedule) in H.
      rewrite (calm_panic calls _ Hinv) in H. destruct (sc_main _); discriminate.
  - pose proof (SetupFacts.calm_steps_bound calls schedule Hok sinit
                  (SetupFacts.calm_init calls)) as Hb.
    unfold smeasure at 2 in Hb. cbn in Hb. lia.
Qed.

Lemma setup_fanout_succeeds_witness :
  sc_panic (setup_fanout_conf [None; None] setup_schedule) = false /\
  (setup_fanout [None; None] setup_schedule = Ret None \/
   exists tid c',
     sstep [None; None] tid (setup_fanout_conf [None; None] setup_schedule) = Some c') /\
  (steps_made (sstep [None; None]) setup_schedule sinit
   <= 4 * List.length [@None err; None] + 4)%nat.
Proof.
  apply (setup_fanout_succeeds [None; None] setup_schedule).
  intros r [<- | [<- | []]]; reflexivity.
Defined.

(** X19. The error of a failed [SetupWorker] (or [SetupBenchmark]) call
    can be lost: the goroutines assign the one [err] of the enclosing
    function, so whenever the call of some worker [j] succeeds, there is a
    schedule (the call of [j] returns last) under which the function
    returns [nil], whatever the other calls returned. *)
Theorem setup_fanout_loses_error :
  forall (calls : list error) (j : nat),
    nth_error calls j = Some None ->
    setup_fanout calls (racy_schedule (List.length calls) j) = Ret None.
Proof.
  intros calls j Hj. exact (SetupFacts.race calls j Hj).
Qed.

Lemma setup_fanout_loses_error_witness :
  nth_error [Some (ExternalError 14); None] 1 = Some None /\
  setup_fanout [Some (ExternalError 14); None] (racy_schedule 2 1) = Ret None.
Proof.
  split; [reflexivity|].
  apply (setup_fanout_loses_error [Some (ExternalError 14); None] 1%nat).
  reflexivity.
Defined.

End SetupProps.

(* ================================================================== *)
(** * The console: forked tasks, options and Status *)

Module ConsoleProps.
Import ListUtil GoNum Console ForkSpec ConsoleContext ContextSpec.

(** X20. The result of [Join] does not depend on the order in which the
    forked tasks finish: for tasks forked one after the other whose
    goroutines finish in any order, [Join] over their Joiners in argument
    order returns the last non-nil error in argument order, and leaves
    every channel closed and empty. *)
Theorem Join_finishing_order :
  forall (E : Type) (rs : list (error E)) (order : list nat) (h : store E),
    Permutation order (seq 0 (List.length rs)) ->
    bind (fork_finish_in rs order) Join h =
    Some (last_error rs, h ++ repeat drained (List.length rs)).
Proof.
  intros E rs order h Hperm. unfold bind at 1.
  rewrite (ForkFacts.fork_finish_in_eq E rs order h Hperm).
  unfold Join. rewrite ConsoleFacts.Join_from_each. unfold bind.
  pose proof (ConsoleFacts.join_each_eq E rs h []) as Hj.
  rewrite !app_nil_r in Hj. rewrite Hj. unfold ret.
  destruct (last_error rs); reflexivity.
Qed.

Lemma Join_finishing_order_witness :
  bind (fork_finish_in [Some 1%Z; None; Some 3%Z] [2; 0; 1]%nat) Join [] =
  Some (Some 3%Z, [drained; drained; drained]).
Proof.
  apply (Join_finishing_order Z [Some 1%Z; None; Some 3%Z] [2; 0; 1]%nat []).
  cbn [List.length seq].
  apply Permutation_sym.
  apply (perm_trans (l' := [0; 2; 1]%nat)).
  - apply perm_skip. apply perm_swap.
  - apply perm_swap.
Defined.

(** X21. [Join] over two lists of joiners one after the other is [Join]
    over the first list followed by [Join] over the second, and the
    error of the second list, when it has one, is the one returned; the
    same holds of [Wait]. *)
Theorem Join_app :
  forall (E : Type),
    (forall (a b : list (Joiner E)) (h : store E),
        Join (a ++ b) h =
        bind (Join a) (fun e1 =>
          bind (Join b) (fun e2 =>
            ret (match e2 with Some _ => e2 | None => e1 end))) h) /\
    (forall (a b : list (Waiter E)) (h : store E),
        Wait (a ++ b) h =
        bind (Wait a) (fun e1 =>
          bind (Wait b) (fun e2 =>
            ret (match e2 with Some _ => e2 | None => e1 end))) h).
Proof.
  intros E. split.
  - intros a b h. unfold Join. rewrite ForkFacts.Join_from_app. unfold bind at 1 2.
    destruct (Join_from None a h) as [[e1 h1]|]; [| reflexivity].
    unfold bind, ret. rewrite !ConsoleFacts.Join_from_each. unfold bind, ret.
    destruct (join_each b h1) as [[es h2]|]; [| reflexivity].
    destruct (last_error es); reflexivity.
  - intros a b h. unfold Wait. rewrite ForkFacts.Wait_from_app. unfold bind at 1 2.
    destruct (Wait_from None a h) as [[e1 h1]|]; [| reflexivity].
    unfold bind, ret. rewrite !ConsoleFacts.Wait_from_each. unfold bind, ret.
    destruct (wait_each b h1) as [[es h2]|]; [| reflexivity].
    destruct (last_error es); reflexivity.
Qed.

(** X22. The options of the context [NewContext] makes: the refresh rate
    is the last one given with [WithRefreshRate], one millisecond when
    none is given, and it is the rate the reporter is made with; the
    context is verbose exactly when [WithVerbose] is given; the context
    has a closer. Every context forked from it, at any depth, has the
    same options and no closer, so [Close] on it stops nothing. *)
Theorem NewContext_options :
  forall (gs : list given) (n : nat),
    RefreshRate (options (NewContext (map option_of gs))) = last (rates gs) time_Millisecond /\
    Verbose (options (NewContext (map option_of gs))) = verbose_given gs /\
    reporter (NewContext (map option_of gs)) = Some (last (rates gs) time_Millisecond) /\
    Close (NewContext (map option_of gs)) = 1%nat /\
    options (descendant n (NewContext (map option_of gs))) =
      options (NewContext (map option_of gs)) /\
    Close (descendant (S n) (NewContext (map option_of gs))) = 0%nat.
Proof.
  intros gs n.
  destruct (ContextFacts.options_fold gs
              {| RefreshRate := defaultRefreshRate; Verbose := false |}) as [H1 H2].
  cbn [RefreshRate Verbose] in H1, H2. rewrite orb_false_r in H2.
  unfold NewContext. cbn [options reporter]. rewrite H1, H2.
  repeat split. apply ContextFacts.descendant_options.
Qed.

(** X23. What [Status.Log] writes. On a verbose status, the writer's
    buffer grows by each message in turn, a newline being added to a
    message that is empty or does not end with one; the report is updated
    once for each message, and what it is last updated with is all the
    buffer holds, not the last message alone. On a status that is not
    verbose nothing is written and the report is not updated. What is
    written for a message ends with a newline, and a message that ends
    with one is written as it is. *)
Theorem Status_log_lines :
  forall (msgs : list string) (m : string) (buf : string) (ups : list string),
    writer_buf (logs msgs (loud buf ups)) = (buf ++ joined (map terminated msgs))%string /\
    List.length (updates (logs msgs (loud buf ups))) =
      (List.length ups + List.length msgs)%nat /\
    last (updates (logs (msgs ++ [m]) (loud buf ups))) EmptyString =
      writer_buf (logs (msgs ++ [m]) (loud buf ups)) /\
    logs msgs (mute buf ups) = mute buf ups /\
    last_byte (terminated m) = Some newline /\
    terminated (terminated m) = terminated m.
Proof.
  intros msgs m buf ups.
  destruct (ContextFacts.logs_loud msgs buf ups) as (ups1 & H1 & H2 & _).
  destruct (ContextFacts.logs_loud (msgs ++ [m]) buf ups) as (ups2 & H3 & H4 & H5).
  rewrite H1, H3. cbn [writer_buf updates loud].
  split; [reflexivity|]. split; [rewrite length_app; lia|]. split.
  - specialize (H5 ltac:(destruct msgs; discriminate)). rewrite <- H5.
    destruct ups2 as [| u ups2]; [rewrite length_app in H4; cbn in H4; lia|].
    apply ContextFacts.last_app_cons.
  - split; [apply ContextFacts.logs_mute|].
    split; [apply ContextFacts.last_byte_terminated | apply ContextFacts.terminated_idem].
Qed.

End ConsoleProps.

(* ================================================================== *)
(** * Names of jobs and workers *)

Module NameProps.
Import GoNum Benchmark Spec.

(** X24. The name of a worker determines its ordinal, and the address
    [getWorkerAddress] derives determines both the ordinal and the job
    identifier of the task: two addresses are equal exactly when the
    ordinals are equal and the job identifiers are equal. *)
Theorem worker_addresses_distinct :
  forall (t t' : WorkerTask) (i j : Z),
    String.eqb (getWorkerName i) (getWorkerName j) = (i =? j) /\
    String.eqb (getWorkerAddress t i) (getWorkerAddress t' j) =
      (i =? j) && String.eqb (ID (config t)) (ID (config t')).
Proof.
  intros t t' i j. split.
  - destruct (String.eqb_spec (getWorkerName i) (getWorkerName j)) as [H | H].
    + apply NameFacts.getWorkerName_inj in H. subst. symmetry. apply Z.eqb_refl.
    + destruct (Z.eqb_spec i j) as [-> | _]; [contradiction H |]; reflexivity.
  - destruct (String.eqb_spec (getWorkerAddress t i) (getWorkerAddress t' j)) as [H | H].
    + apply NameFacts.getWorkerAddress_inj in H. destruct H as [-> ->].
      rewrite Z.eqb_refl, String.eqb_refl. reflexivity.
    + destruct (Z.eqb_spec i j) as [-> | _]; [| reflexivity].
      destruct (String.eqb_spec (ID (config t)) (ID (config t'))) as [Hid | _];
        [| reflexivity].
      exfalso. apply H. unfold getWorkerAddress. rewrite Hid. reflexivity.
Qed.

(** X25. [Coordinator.Run] makes one task for each suite it runs (the
    suite configured, or every registered suite when none is), each with
    no connection yet; the tasks of suites with different names have
    different job identifiers, so no two of them share a namespace. *)
Theorem job_ids_distinct :
  forall (registered : list string) (c : Config),
    NoDup registered ->
    map (fun t => Suite (config t)) (Coordinator_tasks registered c) =
      suites_of registered c /\
    job_ids (Coordinator_tasks registered c) =
      map (newJobID (ID c)) (suites_of registered c) /\
    Forall (fun t => workers t = None) (Coordinator_tasks registered c) /\
    NoDup (job_ids (Coordinator_tasks registered c)).
Proof.
  intros registered c Hnd.
  assert (Hs : NoDup (suites_of registered c)).
  { unfold suites_of. destruct (String.eqb (Suite c) ""); [exact Hnd|].
    constructor; [intros [] | constructor]. }
  assert (Hids : job_ids (Coordinator_tasks registered c) =
                 map (newJobID (ID c)) (suites_of registered c)).
  { unfold job_ids, Coordinator_tasks, suites_of. rewrite map_map. reflexivity. }
  split; [| split; [exact Hids | split]].
  - unfold Coordinator_tasks, suites_of. rewrite map_map. cbn. apply map_id.
  - unfold Coordinator_tasks. apply Forall_forall. intros t Ht.
    apply in_map_iff in Ht. destruct Ht as (s & <- & _). reflexivity.
  - rewrite Hids. clear Hids.
    induction Hs as [| s l Hnotin Hl IH]; cbn; constructor; [| exact IH].
    intros Hin. apply in_map_iff in Hin. destruct Hin as (s' & Heq & Hin).
    apply NameFacts.newJobID_inj in Heq. subst s'. contradiction.
Qed.

Lemma job_ids_distinct_witness :
  NoDup ["kv"; "map"]%string /\
  NoDup (job_ids (Coordinator_tasks ["kv"; "map"]%string no_suite_config)).
Proof.
  assert (H : NoDup ["kv"; "map"]%string).
  { constructor; [intros [H | []]; discriminate | constructor; [intros [] | constructor]]. }
  split; [exact H|].
  exact (proj2 (proj2 (proj2 (job_ids_distinct _ no_suite_config H)))).
Defined.

End NameProps.
